(** * expandTailwindAtRules: candidate discovery and stylesheet assembly

    A shallow embedding of [lib/expandTailwindAtRules.js]: the
    extractor/transformer registry, the line-memoized extraction cache,
    the scan router, the candidate collector, [buildStylesheet] and the
    splice of the generated layers into the host document.

    Conventions of the embedding.
    - A JavaScript string is a [string]; every character stands for one
      code unit in the range U+0000..U+00FF.
    - A JavaScript [Set] is a duplicate-free list in insertion order.
    - Objects with identity (host nodes, functions) carry that identity as
      a number; object keys are own keys.
    - Collaborators that live outside this file (the rule generator, the
      offsets comparator, [cloneNodes], the native scanner, the file
      system, the configured extractors and transformers, the feature
      flags) are the fields of a record [externals].
    - Calls to collaborators are recorded in a trace of [event]s. *)

From Stdlib Require Import String Ascii ZArith Lia.
From stdpp Require Import base option list strings gmap sorting.

Local Open Scope string_scope.
Local Open Scope list_scope.

(** ** JavaScript strings *)

Module JsString.

(** Code unit of a character. *)
Definition code (c : ascii) : nat := nat_of_ascii c.

(** [a < z] on strings: lexicographic comparison of code units. *)
Fixpoint lt (a z : string) : bool :=
  match a, z with
  | EmptyString, EmptyString => false
  | EmptyString, String _ _ => true
  | String _ _, EmptyString => false
  | String c a', String d z' =>
      if Nat.ltb (code c) (code d) then true
      else if Nat.eqb (code c) (code d) then lt a' z'
      else false
  end.

(** White space and line terminators below U+0100, the characters that
    [String.prototype.trim] strips and that [\s] matches. *)
Definition is_space (c : ascii) : bool :=
  let n := code c in
  (Nat.leb 9 n && Nat.leb n 13) || Nat.eqb n 32 || Nat.eqb n 160.

Definition is_newline (c : ascii) : bool := Nat.eqb (code c) 10.

Definition is_empty (s : string) : bool :=
  match s with EmptyString => true | String _ _ => false end.

Fixpoint trimStart (s : string) : string :=
  match s with
  | EmptyString => EmptyString
  | String c r => if is_space c then trimStart r else s
  end.

Fixpoint trimEnd (s : string) : string :=
  match s with
  | EmptyString => EmptyString
  | String c r =>
      let r' := trimEnd r in
      if is_space c && is_empty r' then EmptyString else String c r'
  end.

(** [s.trim()] *)
Definition trim (s : string) : string := trimEnd (trimStart s).

(** [s.split('\n')]; the result is never empty. *)
Fixpoint split_newline (s : string) : list string :=
  match s with
  | EmptyString => [EmptyString]
  | String c r =>
      if is_newline c then EmptyString :: split_newline r
      else match split_newline r with
           | h :: t => String c h :: t
           | [] => [String c EmptyString]
           end
  end.

Fixpoint starts_with (p s : string) : bool :=
  match p, s with
  | EmptyString, _ => true
  | String _ _, EmptyString => false
  | String a p', String b s' => Nat.eqb (code a) (code b) && starts_with p' s'
  end.

End JsString.

(** ** JavaScript [Set]: insertion-ordered, no duplicates *)

Module JsSet.
Section keyed.
Context {A K : Type} `{EqDecision K} (key : A → K).

Definition has (x : A) (s : list A) : bool :=
  bool_decide (key x ∈ key <$> s).

(** [s.add(x)] *)
Definition add (s : list A) (x : A) : list A :=
  if has x s then s else s ++ [x].

(** [for (let x of xs) s.add(x)] *)
Definition add_all (s : list A) (xs : list A) : list A :=
  foldl add s xs.

(** [new Set(xs)] *)
Definition of_list (xs : list A) : list A := add_all [] xs.
End keyed.
End JsSet.

(** Sets of strings compare their elements by value. *)
Abbreviation str_has := (JsSet.has (@id string)).
Abbreviation str_add := (JsSet.add (@id string)).
Abbreviation str_add_all := (JsSet.add_all (@id string)).
Abbreviation str_of_list := (JsSet.of_list (@id string)).

(** ** The host document *)

(** A source location: the [start] and [end] positions of [node.source]. *)
Record source_loc := { src_start : option nat; src_end : option nat }.

(** [node.type] *)
Inductive node_type := ty_atrule | ty_rule | ty_decl | ty_comment.

(** [node.raws.tailwind] *)
Record tailwind_raws := { parentLayer : option string }.

(** A node of the host tree. [nid] is the identity of the JavaScript
    object; [name] and [params] are those of an at-rule. *)
#[warnings="-register-all"]
Inductive node := mkNode {
  nid : nat;
  type : node_type;
  name : string;
  params : string;
  source : option source_loc;
  raws_tailwind : option tailwind_raws;
  nodes : list node
}.

Record root := { root_nodes : list node; root_source : source_loc }.

(** [node.raws.tailwind?.parentLayer] *)
Definition node_parentLayer (n : node) : option string :=
  match raws_tailwind n with
  | Some r => parentLayer r
  | None => None
  end.

(** Sets of nodes compare their elements by identity. *)
Abbreviation node_add := (JsSet.add nid).

#[global] Instance node_type_eq_dec : EqDecision node_type.
Proof. solve_decision. Defined.

(** The descendants of a node in document order, as [walk] visits them. *)
Fixpoint walk (n : node) : list node :=
  match n with
  | mkNode _ _ _ _ _ _ cs => flat_map (λ c, c :: walk c) cs
  end.

Definition walk_list (l : list node) : list node :=
  flat_map (λ c, c :: walk c) l.

(** The at-rules that [root.walkAtRules] hands to its callback. *)
Definition walkAtRules (r : root) : list node :=
  filter (λ n, type n = ty_atrule) (walk_list (root_nodes r)).

(** [target.before(new)] for the node whose identity is [target]: the new
    nodes come before it among the children of its parent. Identities are
    unique in a document, so one node is matched at most; a target that is
    not in the document, as a marker below a removed marker, changes
    nothing. *)
Fixpoint before_in (target : nat) (new : list node) (n : node) : node :=
  match n with
  | mkNode i ty nm ps s rw cs =>
      mkNode i ty nm ps s rw
        (flat_map (λ c, if Nat.eqb (nid c) target then new ++ [c]
                        else [before_in target new c]) cs)
  end.

Definition before_list (target : nat) (new : list node) (l : list node) : list node :=
  flat_map (λ c, if Nat.eqb (nid c) target then new ++ [c]
                 else [before_in target new c]) l.

Definition before (target : node) (new : list node) (r : root) : root :=
  {| root_nodes := before_list (nid target) new (root_nodes r);
     root_source := root_source r |}.

(** Removal of every node that satisfies [p], at any depth. *)
Fixpoint prune_in (p : node → bool) (n : node) : node :=
  match n with
  | mkNode i ty nm ps s rw cs =>
      mkNode i ty nm ps s rw
        (flat_map (λ c, if p c then [] else [prune_in p c]) cs)
  end.

Definition prune_list (p : node → bool) (l : list node) : list node :=
  flat_map (λ c, if p c then [] else [prune_in p c]) l.

(** [target.remove()] *)
Definition remove (target : node) (r : root) : root :=
  {| root_nodes := prune_list (λ c, Nat.eqb (nid c) (nid target)) (root_nodes r);
     root_source := root_source r |}.

(** [root.append(new)] *)
Definition append (new : list node) (r : root) : root :=
  {| root_nodes := root_nodes r ++ new; root_source := root_source r |}.

(** ** Layer markers *)

Module LayerNodes.
(** [layerNodes]: the directive found for every layer name, or [null]. *)
Record t := mk {
  base : option node;
  components : option node;
  utilities : option node;
  variants : option node
}.

Definition empty : t := mk None None None None.

(** [Object.keys(layerNodes)] *)
Definition keys : list string :=
  ["base"; "components"; "utilities"; "variants"].

(** [layerNodes[k]]; [None] also stands for a key that is not there. *)
Definition get (ln : t) (k : string) : option node :=
  if String.eqb k "base" then base ln
  else if String.eqb k "components" then components ln
  else if String.eqb k "utilities" then utilities ln
  else if String.eqb k "variants" then variants ln
  else None.

(** [layerNodes[k] = n] for [k] among the keys. *)
Definition set (ln : t) (k : string) (n : node) : t :=
  if String.eqb k "base" then mk (Some n) (components ln) (utilities ln) (variants ln)
  else if String.eqb k "components" then mk (base ln) (Some n) (utilities ln) (variants ln)
  else if String.eqb k "utilities" then mk (base ln) (components ln) (Some n) (variants ln)
  else if String.eqb k "variants" then mk (base ln) (components ln) (utilities ln) (Some n)
  else ln.

(** [Object.values(layerNodes).every((n) => n === null)] *)
Definition all_null (ln : t) : bool :=
  match base ln, components ln, utilities ln, variants ln with
  | None, None, None, None => true
  | _, _, _, _ => false
  end.
End LayerNodes.

(** [Object.keys(layerNodes).includes(s)] *)
Definition is_layer_key (s : string) : bool :=
  bool_decide (s ∈ LayerNodes.keys).

(** A [@tailwind] directive that names one of the four layers. *)
Definition is_directive (rule : node) : bool :=
  String.eqb (name rule) "tailwind" && is_layer_key (params rule).

(** The callback of the first [walkAtRules]. *)
Definition discover_step (ln : LayerNodes.t) (rule : node) : LayerNodes.t :=
  if String.eqb (name rule) "tailwind" then
    if is_layer_key (params rule) then LayerNodes.set ln (params rule) rule
    else ln
  else ln.

Definition discover (r : root) : LayerNodes.t :=
  foldl discover_step LayerNodes.empty (walkAtRules r).

(** ** Extractors and transformers *)

(** A transformer, by identity: the two built-in ones and the functions of
    the configuration. *)
Inductive transformer :=
  | BuiltInDefault
  | BuiltInSvelte
  | ConfiguredTransformer (fn : nat).

(** An extractor, by identity: a function of the configuration ([marked]
    tells whether its [DEFAULT_EXTRACTOR] property is [true]), the imported
    [defaultExtractor] itself, or the [k]-th function that
    [defaultExtractor(context)] returned, which [getExtractor] marks. *)
Inductive extractor :=
  | ConfiguredExtractor (fn : nat) (marked : bool)
  | DefaultExtractorFactory
  | DefaultExtractorInstance (k : nat).

#[global] Instance transformer_eq_dec : EqDecision transformer.
Proof. solve_decision. Defined.

#[global] Instance extractor_eq_dec : EqDecision extractor.
Proof. solve_decision. Defined.

#[global] Instance extractor_countable : Countable extractor.
Proof.
  refine (inj_countable'
    (λ e, match e with
          | ConfiguredExtractor fn m => inl (fn, m)
          | DefaultExtractorFactory => inr None
          | DefaultExtractorInstance k => inr (Some k)
          end)
    (λ x, match x with
          | inl (fn, m) => ConfiguredExtractor fn m
          | inr None => DefaultExtractorFactory
          | inr (Some k) => DefaultExtractorInstance k
          end) _).
  by intros [].
Defined.

(** [extractor?.DEFAULT_EXTRACTOR === true] *)
Definition DEFAULT_EXTRACTOR (e : extractor) : bool :=
  match e with
  | ConfiguredExtractor _ marked => marked
  | DefaultExtractorFactory => false
  | DefaultExtractorInstance _ => true
  end.

(** [tailwindConfig]: the two tables of [content]; everything else is read
    through [flagEnabled] only. *)
Record config := {
  content_extract : gmap string extractor;
  content_transform : gmap string transformer;
  config_flags : gmap string bool
}.

(** [builtInExtractors[k]] *)
Definition builtInExtractors (k : string) : option extractor :=
  if String.eqb k "DEFAULT" then Some DefaultExtractorFactory else None.

(** [builtInTransformers[k]] *)
Definition builtInTransformers (k : string) : option transformer :=
  if String.eqb k "DEFAULT" then Some BuiltInDefault
  else if String.eqb k "svelte" then Some BuiltInSvelte
  else None.

(** [a || b] on a looked-up function. *)
Definition or_else {A} (a : option A) (b : option A) : option A :=
  match a with Some _ => a | None => b end.

(** [getExtractor(context, fileExtension)]. [fresh] counts the functions
    that [defaultExtractor(context)] has returned so far. *)
Definition getExtractor (cfg : config) (fileExtension : string) (fresh : nat)
  : extractor * nat :=
  let extractors := content_extract cfg in
  match or_else (extractors !! fileExtension)
          (or_else (extractors !! "DEFAULT") (builtInExtractors fileExtension)) with
  | Some e => (e, fresh)
  | None => (DefaultExtractorInstance fresh, S fresh)
  end.

(** [getTransformer(tailwindConfig, fileExtension)] *)
Definition getTransformer (cfg : config) (fileExtension : string) : transformer :=
  let transformers := content_transform cfg in
  match or_else (transformers !! fileExtension)
          (or_else (transformers !! "DEFAULT") (builtInTransformers fileExtension)) with
  | Some t => t
  | None => BuiltInDefault
  end.

(** [content.replace(/(?:^|\s)class:/g, ' ')]: [at_start] holds at index 0
    only, [skip] counts the characters of a match still to be dropped. *)
Fixpoint svelte_replace (at_start : bool) (skip : nat) (s : string) : string :=
  match s with
  | EmptyString => EmptyString
  | String c r =>
      match skip with
      | S k => svelte_replace false k r
      | O =>
          if at_start && JsString.starts_with "class:" s
          then String " " (svelte_replace false 5 r)
          else if JsString.is_space c && JsString.starts_with "class:" r
          then String " " (svelte_replace false 6 r)
          else String c (svelte_replace false 0 r)
      end
  end.

(** ** The bounded line cache ([@alloc/quick-lru]) *)

Module LRU.
(** Two generations of entries; [_size] counts the insertions into the
    young one. *)
Record t := mk {
  maxSize : N;
  cache : gmap string (list string);
  oldCache : gmap string (list string);
  _size : N
}.

(** [new LRU({ maxSize })] *)
Definition new (maxSize : N) : t := mk maxSize ∅ ∅ 0.

Definition _set (key : string) (value : list string) (c : t) : t :=
  let young := <[key := value]> (cache c) in
  if N.leb (maxSize c) (N.succ (_size c))
  then mk (maxSize c) ∅ young 0
  else mk (maxSize c) young (oldCache c) (N.succ (_size c)).

Definition has (key : string) (c : t) : bool :=
  bool_decide (is_Some (cache c !! key)) || bool_decide (is_Some (oldCache c !! key)).

(** [get] promotes an entry of the old generation. *)
Definition get (key : string) (c : t) : option (list string) * t :=
  match cache c !! key with
  | Some v => (Some v, c)
  | None =>
      match oldCache c !! key with
      | Some v =>
          (Some v,
           _set key v (mk (maxSize c) (cache c) (delete key (oldCache c)) (_size c)))
      | None => (None, c)
      end
  end.

Definition set (key : string) (value : list string) (c : t) : t :=
  match cache c !! key with
  | Some _ => mk (maxSize c) (<[key := value]> (cache c)) (oldCache c) (_size c)
  | None => _set key value c
  end.

(** The entry that [get] reads, without the promotion. *)
Definition peek (key : string) (c : t) : option (list string) :=
  match cache c !! key with
  | Some v => Some v
  | None => oldCache c !! key
  end.
End LRU.

(** ** Content items, the rule cache and the build context *)

(** A pending content item [{ file?, content?, extension }]. *)
Record item := {
  file : option string;
  content : string;
  extension : string
}.

Module RuleOffset.
(** The ordering key of a generated rule; only [layer] is read here. *)
Record t := mk { layer : string; index : nat }.
End RuleOffset.

Module Stylesheet.
(** The value [buildStylesheet] returns: five sets of nodes. *)
Record t := mk {
  base : list node;
  defaults : list node;
  components : list node;
  utilities : list node;
  variants : list node
}.

Definition empty : t := mk [] [] [] [] [].

(** The names of the five sets. *)
Definition keys : list string :=
  ["base"; "defaults"; "components"; "utilities"; "variants"].

(** [returnValue[tag]]; a tag that names no set gives no node. *)
Definition get (s : t) (tag : string) : list node :=
  if String.eqb tag "base" then base s
  else if String.eqb tag "defaults" then defaults s
  else if String.eqb tag "components" then components s
  else if String.eqb tag "utilities" then utilities s
  else if String.eqb tag "variants" then variants s
  else [].

(** The same sets with another [defaults] set. *)
Definition with_defaults (s : t) (d : list node) : t :=
  mk (base s) d (components s) (utilities s) (variants s).
End Stylesheet.

Record context := {
  tailwindConfig : config;
  candidates : option (list string);
  changedContent : list item;
  classCache : gmap string (list (RuleOffset.t * node));
  ruleCache : list (RuleOffset.t * node);
  stylesheetCache : option Stylesheet.t
}.

(** What the regex path keeps for an item: [{ transformer, extractor }]. *)
Record meta := { meta_transformer : transformer; meta_extractor : extractor }.

(** ** Collaborators *)

(** Modelled from the spec: the collaborators that the engine calls and
    that are defined elsewhere. [generateRules] only adds to the caches of
    the context: it returns the entries it puts into the Class Cache, for
    candidates that were not resolved before, and the pairs it appends to
    the Rule Cache. [read_order] gives the order in which the file reads of
    one batch complete. *)
Record externals := {
  flagEnabled : config → string → bool;
  NOT_ON_DEMAND : string;
  run_transformer : nat → string → string;
  run_extractor : extractor → string → list string;
  parseCandidateStrings : list item → list string;
  readFile : string → string;
  read_order : list (item * meta) → list (item * meta);
  generateRules : list string → context →
                  list (string * list (RuleOffset.t * node))
                  * list (RuleOffset.t * node);
  offsets_sort : list (RuleOffset.t * node) → list (RuleOffset.t * node);
  cloneNodes : list node → option source_loc → string → list node
}.

(** A call to a collaborator. *)
Inductive event :=
  | CallParseCandidateStrings (items : list item)
  | CallReadFile (path : string)
  | CallTransformer (t : transformer) (text : string)
  | CallExtractor (e : extractor) (line : string)
  | CallGenerateRules (sortedCandidates : list string)
  | CallOffsetsSort (rules : list (RuleOffset.t * node))
  | LogWarn (key : string) (messages : list string).

(** The state that one scan threads through its calls: the module-level
    [extractorCache], the [candidates] and [seen] sets of the pass, and the
    trace. *)
Record scan_state := {
  extractorCache : gmap extractor LRU.t;
  scan_candidates : list string;
  scan_seen : list string;
  scan_trace : list event
}.

Section Engine.
Context (E : externals).

(** [transformer(content)] *)
Definition apply_transformer (t : transformer) (text : string) : string :=
  match t with
  | BuiltInDefault => text
  | BuiltInSvelte => svelte_replace true 0 text
  | ConfiguredTransformer fn => run_transformer E fn text
  end.

(** The cache of [extractor], created on first use. *)
Definition cache_of (ec : gmap extractor LRU.t) (e : extractor) : LRU.t :=
  default (LRU.new 25000%N) (ec !! e).

(** One iteration of the loop of [getClassCandidates]. *)
Definition getClassCandidates_line (e : extractor) (st : scan_state) (raw : string)
  : scan_state :=
  let line := JsString.trim raw in
  if str_has line (scan_seen st) then st
  else
    let seen := str_add (scan_seen st) line in
    let lru := cache_of (extractorCache st) e in
    if LRU.has line lru then
      let '(hit, lru') := LRU.get line lru in
      {| extractorCache := <[e := lru']> (extractorCache st);
         scan_candidates := str_add_all (scan_candidates st) (default [] hit);
         scan_seen := seen;
         scan_trace := scan_trace st |}
    else
      let extractorMatches :=
        filter (λ s, s ≠ "!*") (run_extractor E e line) in
      let lineMatchesSet := str_of_list extractorMatches in
      {| extractorCache := <[e := LRU.set line lineMatchesSet lru]> (extractorCache st);
         scan_candidates := str_add_all (scan_candidates st) lineMatchesSet;
         scan_seen := seen;
         scan_trace := scan_trace st ++ [CallExtractor e line] |}.

(** [getClassCandidates(content, extractor, candidates, seen)] *)
Definition getClassCandidates (text : string) (e : extractor) (st : scan_state)
  : scan_state :=
  let st0 :=
    {| extractorCache := <[e := cache_of (extractorCache st) e]> (extractorCache st);
       scan_candidates := scan_candidates st;
       scan_seen := scan_seen st;
       scan_trace := scan_trace st |} in
  foldl (getClassCandidates_line e) st0 (JsString.split_newline text).

(** *** Scan router *)

(** The test that sends an item to the native scanner. *)
Definition uses_oxide (cfg : config) (t : transformer) (e : extractor) : bool :=
  flagEnabled E cfg "oxideParser"
  && bool_decide (t = BuiltInDefault)
  && DEFAULT_EXTRACTOR e.

(** The queues [rustParserContent] and [regexParserContent], and the
    count of default extractor functions made so far. *)
Record routing := {
  rustParserContent : list item;
  regexParserContent : list (item * meta);
  route_fresh : nat
}.

(** The body of the loop over [context.changedContent]. *)
Definition route_step (cfg : config) (acc : routing) (it : item) : routing :=
  let transformer := getTransformer cfg (extension it) in
  let '(extractor, fresh) := getExtractor cfg (extension it) (route_fresh acc) in
  if uses_oxide cfg transformer extractor then
    {| rustParserContent := rustParserContent acc ++ [it];
       regexParserContent := regexParserContent acc;
       route_fresh := fresh |}
  else
    {| rustParserContent := rustParserContent acc;
       regexParserContent :=
         regexParserContent acc
         ++ [(it, {| meta_transformer := transformer; meta_extractor := extractor |})];
       route_fresh := fresh |}.

(** The test of the loop for one item; the count of default extractor
    functions has no part in it. *)
Definition routes_fast (cfg : config) (it : item) : bool :=
  uses_oxide cfg (getTransformer cfg (extension it))
    (getExtractor cfg (extension it) 0).1.

Definition route (cfg : config) (items : list item) (fresh : nat) : routing :=
  foldl (route_step cfg)
    {| rustParserContent := []; regexParserContent := []; route_fresh := fresh |}
    items.

(** *** Candidate collector *)

Definition log (ev : event) (st : scan_state) : scan_state :=
  {| extractorCache := extractorCache st;
     scan_candidates := scan_candidates st;
     scan_seen := scan_seen st;
     scan_trace := scan_trace st ++ [ev] |}.

(** The native path: taken only for a non-empty queue. *)
Definition scan_rust (rust : list item) (st : scan_state) : scan_state :=
  match rust with
  | [] => st
  | _ :: _ =>
      let st' := log (CallParseCandidateStrings rust) st in
      {| extractorCache := extractorCache st';
         scan_candidates :=
           str_add_all (scan_candidates st') (parseCandidateStrings E rust);
         scan_seen := scan_seen st';
         scan_trace := scan_trace st' |}
  end.

(** [file ? ... : ...]: a path that is there and not empty. *)
Definition reads_file (it : item) : option string :=
  match file it with
  | Some path => if JsString.is_empty path then None else Some path
  | None => None
  end.

(** [getClassCandidates(transformer(content), extractor, candidates, seen)] *)
Definition scan_text (text : string) (m : meta) (st : scan_state) : scan_state :=
  getClassCandidates
    (apply_transformer (meta_transformer m) text) (meta_extractor m)
    (log (CallTransformer (meta_transformer m) text) st).

(** The part of a callback of [batch.map] that runs before its first
    [await]: an inline item is scanned at once, a file read is started. *)
Definition batch_start (st : scan_state) (entry : item * meta) : scan_state :=
  match reads_file entry.1 with
  | Some path => log (CallReadFile path) st
  | None => scan_text (content entry.1) entry.2 st
  end.

(** The rest of the callback, run when the read completes. *)
Definition batch_resume (st : scan_state) (entry : item * meta) : scan_state :=
  match reads_file entry.1 with
  | Some path => scan_text (readFile E path) entry.2 st
  | None => st
  end.

Definition is_read (entry : item * meta) : bool :=
  bool_decide (is_Some (reads_file entry.1)).

(** [await Promise.all(batch.map(...))] *)
Definition scan_batch (st : scan_state) (batch : list (item * meta)) : scan_state :=
  foldl batch_resume (foldl batch_start st batch)
        (read_order E (filter (λ en, is_read en = true) batch)).

Definition BATCH_SIZE : nat := 500.

(** The slices [regexParserContent.slice(i, i + BATCH_SIZE)]. *)
Fixpoint batches_of (fuel : nat) (l : list (item * meta)) : list (list (item * meta)) :=
  match fuel, l with
  | S fuel', _ :: _ => take BATCH_SIZE l :: batches_of fuel' (drop BATCH_SIZE l)
  | _, _ => []
  end.

Definition scan_regex (regex : list (item * meta)) (st : scan_state) : scan_state :=
  foldl scan_batch st (batches_of (length regex) regex).

(** [new Set([...(context.candidates ?? []), sharedState.NOT_ON_DEMAND])] *)
Definition initial_candidates (ctx : context) : list string :=
  str_of_list (default [] (candidates ctx) ++ [NOT_ON_DEMAND E]).

(** The comparator handed to [sort]. *)
Definition compare_candidates (a z : string) : Z :=
  if String.eqb a z then 0%Z
  else if JsString.lt a z then (-1)%Z
  else 1%Z.

(** [a] may stay before [z]. *)
Definition candidate_le (a z : string) : Prop :=
  (compare_candidates a z <= 0)%Z.

#[global] Instance candidate_le_dec a z : Decision (candidate_le a z).
Proof. unfold candidate_le. apply _. Defined.

(** [new Set([...candidates].sort(compare))], with merge sort for
    [Array.prototype.sort]. *)
Definition sortedCandidates (cands : list string) : list string :=
  str_of_list (merge_sort candidate_le cands).

(** *** Stylesheet assembler *)

(** [returnValue[sort.layer].add(rule)]; [None] is the [TypeError] of a
    layer tag that names none of the five sets. *)
Definition bucket (rv : Stylesheet.t) (entry : RuleOffset.t * node)
  : option Stylesheet.t :=
  let '(sort, rule) := entry in
  let tag := RuleOffset.layer sort in
  let '(Stylesheet.mk b d c u v) := rv in
  if String.eqb tag "base" then Some (Stylesheet.mk (node_add b rule) d c u v)
  else if String.eqb tag "defaults" then Some (Stylesheet.mk b (node_add d rule) c u v)
  else if String.eqb tag "components" then Some (Stylesheet.mk b d (node_add c rule) u v)
  else if String.eqb tag "utilities" then Some (Stylesheet.mk b d c (node_add u rule) v)
  else if String.eqb tag "variants" then Some (Stylesheet.mk b d c u (node_add v rule))
  else None.

Fixpoint bucket_all (rv : Stylesheet.t) (sortedRules : list (RuleOffset.t * node))
  : option Stylesheet.t :=
  match sortedRules with
  | [] => Some rv
  | entry :: rest =>
      match bucket rv entry with
      | Some rv' => bucket_all rv' rest
      | None => None
      end
  end.

(** [buildStylesheet(rules, context)] *)
Definition buildStylesheet (rules : list (RuleOffset.t * node)) : option Stylesheet.t :=
  let sortedRules := offsets_sort E rules in
  bucket_all Stylesheet.empty sortedRules.

(** The test of the rebuild. *)
Definition must_rebuild (ctx : context) (classCacheCount : nat) : bool :=
  bool_decide (stylesheetCache ctx = None)
  || negb (Nat.eqb (size (classCache ctx)) classCacheCount).

(** *** Splice engine *)

(** [if (marker) { marker.before(cloneNodes([...layer], marker.source,
    { layer: tag })); marker.remove() }] *)
Definition splice_layer (marker : option node) (layer : list node) (tag : string)
    (r : root) : root :=
  match marker with
  | Some m => remove m (before m (cloneNodes E layer (source m) tag) r)
  | None => r
  end.

(** The predicate of the post-filter of the variants. *)
Definition keeps_variant (layerNodes : LayerNodes.t) (n : node) : bool :=
  match node_parentLayer n with
  | Some parent =>
      if String.eqb parent "components"
      then bool_decide (LayerNodes.components layerNodes ≠ None)
      else if String.eqb parent "utilities"
      then bool_decide (LayerNodes.utilities layerNodes ≠ None)
      else true
  | None => true
  end.

(** [Array.from(screenNodes).filter(...)] *)
Definition variantNodes (layerNodes : LayerNodes.t) (screenNodes : list node)
  : list node :=
  filter (λ n, keeps_variant layerNodes n = true) screenNodes.

(** [n.source = src] wherever [n.source] is missing, on [n] and below. *)
Fixpoint fill_source (src : option source_loc) (n : node) : node :=
  match n with
  | mkNode i ty nm ps s rw cs =>
      mkNode i ty nm ps (match s with Some _ => s | None => src end) rw
        (map (fill_source src) cs)
  end.

(** Only containers have [walk]. *)
Definition is_container (n : node) : bool :=
  match type n with
  | ty_atrule | ty_rule => true
  | ty_decl | ty_comment => false
  end.

Definition has_source (n : node) : bool :=
  match source n with Some _ => true | None => false end.

(** The callback of [cloned.forEach]: the descendants without a source
    take the one of [layerNodes[parentLayer]]. [None] is the [TypeError]
    of a node without [walk], or of a missing marker whose [source] is
    read. *)
Definition backfill (layerNodes : LayerNodes.t) (n : node) : option node :=
  if is_container n then
    match node_parentLayer n ≫= LayerNodes.get layerNodes with
    | Some m =>
        Some (mkNode (nid n) (type n) (name n) (params n) (source n)
                (raws_tailwind n) (map (fill_source (source m)) (nodes n)))
    | None => if forallb has_source (walk n) then Some n else None
    end
  else None.

(** The last splice: before the [variants] marker, or at the end of the
    document when there is none. *)
Definition splice_variants (layerNodes : LayerNodes.t) (variantNodes : list node)
    (r : root) : option root :=
  match LayerNodes.variants layerNodes with
  | Some m => Some (remove m (before m (cloneNodes E variantNodes (source m) "variants") r))
  | None =>
      match variantNodes with
      | [] => Some r
      | _ :: _ =>
          cloned ← mapM (backfill layerNodes) (cloneNodes E variantNodes None "variants");
          Some (append cloned r)
      end
  end.

(** The three splices that come first. *)
Definition splice_markers (layerNodes : LayerNodes.t) (sheet : Stylesheet.t)
    (r : root) : root :=
  let r1 := splice_layer (LayerNodes.base layerNodes)
              (Stylesheet.base sheet ++ Stylesheet.defaults sheet) "base" r in
  let r2 := splice_layer (LayerNodes.components layerNodes)
              (Stylesheet.components sheet) "components" r1 in
  splice_layer (LayerNodes.utilities layerNodes)
    (Stylesheet.utilities sheet) "utilities" r2.

(** [root.source.end = root.source.end ?? root.source.start] *)
Definition close_source (r : root) : root :=
  {| root_nodes := root_nodes r;
     root_source :=
       {| src_start := src_start (root_source r);
          src_end := match src_end (root_source r) with
                     | Some e => Some e
                     | None => src_start (root_source r)
                     end |} |}.

Definition hasUtilityVariants (variantNodes : list node) : bool :=
  existsb (λ n, bool_decide (node_parentLayer n = Some "utilities")) variantNodes.

Definition content_problems : event :=
  LogWarn "content-problems"
    ["No utility classes were detected in your source files. If this is unexpected, double-check the `content` option in your Tailwind CSS configuration.";
     "https://tailwindcss.com/docs/content-configuration"].

(** The warning about a [utilities] layer that stayed empty. *)
Definition diagnose (layerNodes : LayerNodes.t) (utilityNodes variantNodes : list node)
  : list event :=
  if bool_decide (LayerNodes.utilities layerNodes ≠ None)
     && Nat.eqb (length utilityNodes) 0
     && negb (hasUtilityVariants variantNodes)
  then [content_problems]
  else [].

(** The last [walkAtRules]: leftover [@layer] at-rules are removed. *)
Definition is_layer_atrule (n : node) : bool :=
  bool_decide (type n = ty_atrule) && String.eqb (name n) "layer"
  && is_layer_key (params n).

Definition cleanup (r : root) : root :=
  {| root_nodes := prune_list is_layer_atrule (root_nodes r);
     root_source := root_source r |}.

(** *** The build pass *)

(** What lives in the module between passes. *)
Record module_state := {
  module_extractorCache : gmap extractor LRU.t;
  module_fresh : nat
}.

Inductive completion := Returned | Threw.

#[global] Instance completion_eq_dec : EqDecision completion.
Proof. solve_decision. Defined.

Record outcome := {
  out_completion : completion;
  out_root : root;
  out_context : context;
  out_module : module_state;
  out_trace : list event
}.

(** The scan: both queues are read into the candidate set. *)
Definition scan (ctx : context) (ms : module_state) : scan_state * routing :=
  let routed := route (tailwindConfig ctx) (changedContent ctx) (module_fresh ms) in
  let st0 := {| extractorCache := module_extractorCache ms;
                scan_candidates := initial_candidates ctx;
                scan_seen := [];
                scan_trace := [] |} in
  (scan_regex (regexParserContent routed) (scan_rust (rustParserContent routed) st0),
   routed).

Definition with_caches (ctx : context)
    (caches : gmap string (list (RuleOffset.t * node)) * list (RuleOffset.t * node))
  : context :=
  {| tailwindConfig := tailwindConfig ctx;
     candidates := candidates ctx;
     changedContent := changedContent ctx;
     classCache := caches.1;
     ruleCache := caches.2;
     stylesheetCache := stylesheetCache ctx |}.

Definition with_stylesheet (ctx : context) (sheet : Stylesheet.t) : context :=
  {| tailwindConfig := tailwindConfig ctx;
     candidates := candidates ctx;
     changedContent := changedContent ctx;
     classCache := classCache ctx;
     ruleCache := ruleCache ctx;
     stylesheetCache := Some sheet |}.

Definition clear_changedContent (ctx : context) : context :=
  {| tailwindConfig := tailwindConfig ctx;
     candidates := candidates ctx;
     changedContent := [];
     classCache := classCache ctx;
     ruleCache := ruleCache ctx;
     stylesheetCache := stylesheetCache ctx |}.

(** The stylesheet that the splice reads, with the calls its making
    took; [None] when [buildStylesheet] throws. *)
Definition assemble (ctx : context) (classCacheCount : nat)
  : option Stylesheet.t * list event :=
  if must_rebuild ctx classCacheCount
  then (buildStylesheet (ruleCache ctx), [CallOffsetsSort (ruleCache ctx)])
  else (stylesheetCache ctx, []).

(** The four splices in their order. *)
Definition splice (layerNodes : LayerNodes.t) (sheet : Stylesheet.t) (r : root)
  : option root :=
  splice_variants layerNodes
    (variantNodes layerNodes (Stylesheet.variants sheet))
    (splice_markers layerNodes sheet r).

(** The context that [generateRules] leaves, with the sequence it got. *)
Definition pass_sorted (ctx : context) (ms : module_state) : list string :=
  sortedCandidates (scan_candidates (scan ctx ms).1).

(** [context.classCache.set(candidate, matches)] for a candidate that is
    not in the Class Cache yet. *)
Definition remember (m : gmap string (list (RuleOffset.t * node)))
    (entry : string * list (RuleOffset.t * node))
  : gmap string (list (RuleOffset.t * node)) :=
  match m !! entry.1 with
  | Some _ => m
  | None => <[entry.1 := entry.2]> m
  end.

Definition pass_generated (ctx : context) (ms : module_state) : context :=
  let made := generateRules E (pass_sorted ctx ms) ctx in
  with_caches ctx (foldl remember (classCache ctx) made.1, ruleCache ctx ++ made.2).

(** [expandTailwindAtRules(context)(root)] *)
Definition expandTailwindAtRules (ctx : context) (ms : module_state) (r : root)
  : outcome :=
  let layerNodes := discover r in
  if LayerNodes.all_null layerNodes then
    {| out_completion := Returned; out_root := r; out_context := ctx;
       out_module := ms; out_trace := [] |}
  else
    let st := (scan ctx ms).1 in
    let ms' := {| module_extractorCache := extractorCache st;
                  module_fresh := route_fresh (scan ctx ms).2 |} in
    let classCacheCount := size (classCache ctx) in
    let ctx1 := pass_generated ctx ms in
    let trace1 := scan_trace st ++ [CallGenerateRules (pass_sorted ctx ms)] in
    let built := assemble ctx1 classCacheCount in
    let trace2 := trace1 ++ built.2 in
    match built.1 with
    | None =>
        {| out_completion := Threw; out_root := r; out_context := ctx1;
           out_module := ms'; out_trace := trace2 |}
    | Some sheet =>
        let ctx2 := with_stylesheet ctx1 sheet in
        match splice layerNodes sheet r with
        | None =>
            {| out_completion := Threw;
               out_root := splice_markers layerNodes sheet r;
               out_context := ctx2;
               out_module := ms'; out_trace := trace2 |}
        | Some r4 =>
            {| out_completion := Returned;
               out_root := cleanup (close_source r4);
               out_context := clear_changedContent ctx2;
               out_module := ms';
               out_trace :=
                 trace2
                 ++ diagnose layerNodes (Stylesheet.utilities sheet)
                      (variantNodes layerNodes (Stylesheet.variants sheet)) |}
        end
    end.

(** The stylesheet of the pass, and the document it leaves. *)
Definition pass_sheet (ctx : context) (ms : module_state) : option Stylesheet.t :=
  (assemble (pass_generated ctx ms) (size (classCache ctx))).1.

Definition pass_root (layerNodes : LayerNodes.t) (sheet : Stylesheet.t) (r : root)
  : root :=
  match splice layerNodes sheet r with
  | Some r4 => cleanup (close_source r4)
  | None => splice_markers layerNodes sheet r
  end.

Definition is_scan_event (ev : event) : bool :=
  match ev with
  | CallParseCandidateStrings _ | CallReadFile _
  | CallTransformer _ _ | CallExtractor _ _ => true
  | _ => false
  end.

(** What each scan path finds, apart from what was there before. *)
Definition discovered_by_rust (rust : list item) : list string :=
  match rust with
  | [] => []
  | _ :: _ => parseCandidateStrings E rust
  end.

Definition discovered_by_regex (ec : gmap extractor LRU.t)
    (regex : list (item * meta)) : list string :=
  scan_candidates
    (scan_regex regex
       {| extractorCache := ec; scan_candidates := []; scan_seen := [];
          scan_trace := [] |}).

(** The lines that the extractors were called on, in the order of the calls. *)
Definition extracted_lines (trace : list event) : list string :=
  flat_map (λ ev, match ev with CallExtractor _ line => [line] | _ => [] end) trace.

(** The trimmed lines of the text that an inline item hands to its
    extractor. *)
Definition lines_of (it : item) (m : meta) : list string :=
  JsString.trim <$> JsString.split_newline
                      (apply_transformer (meta_transformer m) (content it)).

(** What a [seen] set of its own for every call of [getClassCandidates]
    would give: every token that the extractor of an inline item finds
    on a line of that item is a candidate of the pass. *)
Definition every_item_line_extracted (ctx : context) (ms : module_state) : Prop :=
  ∀ it m line c,
    (it, m) ∈ regexParserContent (scan ctx ms).2 →
    reads_file it = None →
    line ∈ lines_of it m →
    c ∈ run_extractor E (meta_extractor m) line →
    c ≠ "!*" →
    c ∈ scan_candidates (scan ctx ms).1.

(** The directives that name [layer], in document order. *)
Definition directives_named (layer : string) (r : root) : list node :=
  filter (λ n, is_directive n = true ∧ params n = layer) (walkAtRules r).

Definition is_warn (ev : event) : bool :=
  match ev with LogWarn _ _ => true | _ => false end.

Definition is_rebuild (ev : event) : bool :=
  match ev with CallOffsetsSort _ => true | _ => false end.

End Engine.

(** ** A concrete set of collaborators *)

Module Demo.

(** The tokens of a line: its maximal runs without a space. *)
Fixpoint words_aux (cur : string) (s : string) : list string :=
  match s with
  | EmptyString => if JsString.is_empty cur then [] else [cur]
  | String c r =>
      if JsString.is_space c
      then (if JsString.is_empty cur then [] else [cur]) ++ words_aux EmptyString r
      else words_aux (cur +:+ String c EmptyString) r
  end.

Definition words (s : string) : list string := words_aux EmptyString s.

(** The configured extractor [0] splits at spaces; any other configured
    extractor returns the whole line behind a prefix. *)
Definition extract (e : extractor) (line : string) : list string :=
  match e with
  | ConfiguredExtractor (S _) _ => ["x-" +:+ line]
  | _ => words line
  end.

(** Every candidate is resolved to no rule. *)
Definition generate (sorted : list string) (ctx : context)
  : list (string * list (RuleOffset.t * node)) * list (RuleOffset.t * node) :=
  (map (λ c, (c, [])) sorted, []).

Definition offset_le (a z : RuleOffset.t * node) : Prop :=
  (RuleOffset.index a.1 ≤ RuleOffset.index z.1)%nat.

#[global] Instance offset_le_dec a z : Decision (offset_le a z).
Proof. unfold offset_le. apply _. Defined.

(** Modelled from the spec: [cloneNodes] copies every node, the copy
    inherits the given source location at every depth, and it is a new
    object (its identity is moved by [clone_base]). *)
Definition clone_base : nat := 1000.

Fixpoint clone (src : option source_loc) (n : node) : node :=
  match n with
  | mkNode i ty nm ps s rw cs =>
      mkNode (clone_base + i) ty nm ps
        (match src with Some _ => src | None => s end) rw
        (map (clone src) cs)
  end.

Definition clone_all (l : list node) (src : option source_loc) (tag : string)
  : list node :=
  map (clone src) l.

Definition E : externals :=
  {| flagEnabled := λ cfg flag, default false (config_flags cfg !! flag);
     NOT_ON_DEMAND := "*";
     run_transformer := λ _ text, text;
     run_extractor := extract;
     parseCandidateStrings := λ items, flat_map (λ it, words (content it)) items;
     readFile := λ _, EmptyString;
     read_order := λ l, l;
     generateRules := generate;
     offsets_sort := merge_sort offset_le;
     cloneNodes := clone_all |}.

(** A configuration without any customisation. *)
Definition plain_config (oxide : bool) : config :=
  {| content_extract := ∅; content_transform := ∅;
     config_flags := {[ "oxideParser" := oxide ]} |}.

Definition fresh_module : module_state :=
  {| module_extractorCache := ∅; module_fresh := 0 |}.

Definition loc (n : nat) : source_loc := {| src_start := Some n; src_end := Some n |}.

(** [@tailwind <layer>;] with identity [i]. *)
Definition directive (i : nat) (layer : string) : node :=
  mkNode i ty_atrule "tailwind" layer (Some (loc i)) None [].

(** A generated rule with identity [i]. *)
Definition generated (i : nat) (parent : option string) : node :=
  mkNode i ty_rule "" "" None (Some {| parentLayer := parent |}) [].

Definition doc (l : list node) : root :=
  {| root_nodes := l; root_source := {| src_start := Some 0; src_end := None |} |}.

Definition offset (tag : string) (i : nat) : RuleOffset.t := RuleOffset.mk tag i.

Definition inline (text ext : string) : item :=
  {| file := None; content := text; extension := ext |}.

Definition empty_context (cfg : config) : context :=
  {| tailwindConfig := cfg; candidates := None; changedContent := [];
     classCache := ∅; ruleCache := []; stylesheetCache := None |}.

End Demo.

(** ** Notions used in the statements *)

(** The rules entered under [tag], by identity. *)
Definition tagged (l : list (RuleOffset.t * node)) (tag : string) (i : nat) : Prop :=
  ∃ p, p ∈ l ∧ RuleOffset.layer p.1 = tag ∧ nid p.2 = i.

(** [a < z] as a proposition. *)
Definition candidate_lt (a z : string) : Prop := JsString.lt a z = true.

(** ** Sample inputs *)

Definition sample_plain_document : root :=
  Demo.doc [mkNode 1 ty_atrule "media" "print" None None
              [mkNode 2 ty_atrule "tailwind" "screens" None None []];
            mkNode 3 ty_rule "" "" None None []].

Definition sample_pending_context : context :=
  {| tailwindConfig := Demo.plain_config false;
     candidates := Some ["p-4"];
     changedContent := [Demo.inline "text-3xl" "html"];
     classCache := ∅;
     ruleCache := [(Demo.offset "base" 0, Demo.generated 10 None)];
     stylesheetCache := None |}.

Definition sample_twice_base_document : root :=
  Demo.doc [Demo.directive 1 "base"; Demo.directive 2 "base"].

Definition sample_base_context : context :=
  {| tailwindConfig := Demo.plain_config false;
     candidates := None;
     changedContent := [];
     classCache := ∅;
     ruleCache := [(Demo.offset "base" 0, Demo.generated 10 None)];
     stylesheetCache := None |}.

Definition sample_variants_document : root :=
  Demo.doc [Demo.directive 1 "utilities"; Demo.directive 2 "variants"].

Definition sample_variants_context : context :=
  {| tailwindConfig := Demo.plain_config false;
     candidates := None;
     changedContent := [];
     classCache := ∅;
     ruleCache := [(Demo.offset "variants" 0, Demo.generated 10 (Some "components"));
                   (Demo.offset "variants" 1, Demo.generated 11 (Some "utilities"));
                   (Demo.offset "variants" 2, Demo.generated 12 None);
                   (Demo.offset "variants" 3, Demo.generated 13 (Some "base"))];
     stylesheetCache := None |}.

Definition sample_variants_sheet : Stylesheet.t :=
  Stylesheet.mk [] [] [] []
    [Demo.generated 10 (Some "components"); Demo.generated 11 (Some "utilities");
     Demo.generated 12 None; Demo.generated 13 (Some "base")].

Definition sample_layers_document : root :=
  Demo.doc [Demo.directive 1 "base"; Demo.directive 2 "utilities"].

Definition sample_layers_context : context :=
  {| tailwindConfig := Demo.plain_config false;
     candidates := None;
     changedContent := [];
     classCache := ∅;
     ruleCache := [(Demo.offset "defaults" 0, Demo.generated 10 None);
                   (Demo.offset "base" 1, Demo.generated 11 None);
                   (Demo.offset "utilities" 2, Demo.generated 12 None)];
     stylesheetCache := None |}.

Definition sample_layers_sheet : Stylesheet.t :=
  Stylesheet.mk [Demo.generated 11 None] [Demo.generated 10 None] []
    [Demo.generated 12 None] [].

Definition sample_rules : list (RuleOffset.t * node) :=
  [(Demo.offset "utilities" 3, Demo.generated 12 None);
   (Demo.offset "base" 1, Demo.generated 10 None);
   (Demo.offset "variants" 4, Demo.generated 13 (Some "utilities"));
   (Demo.offset "defaults" 0, Demo.generated 11 None);
   (Demo.offset "base" 2, Demo.generated 10 None)].

Definition sample_utilities_document : root := Demo.doc [Demo.directive 1 "utilities"].

Definition sample_cached_sheet : Stylesheet.t :=
  Stylesheet.mk [] [] [] [Demo.generated 20 None] [].

(** A context whose Class Cache knows the sentinel already. *)
Definition sample_cached_context : context :=
  {| tailwindConfig := Demo.plain_config false;
     candidates := None;
     changedContent := [];
     classCache := {[ "*" := [] ]};
     ruleCache := [(Demo.offset "utilities" 0, Demo.generated 21 None)];
     stylesheetCache := Some sample_cached_sheet |}.

Definition sample_base_document : root := Demo.doc [Demo.directive 1 "base"].

(** Candidates and content in no particular order; the second item goes
    through the native scanner. *)
Definition sample_unsorted_context : context :=
  {| tailwindConfig :=
       {| content_extract := {[ "html" := ConfiguredExtractor 0 false ]};
          content_transform := ∅;
          config_flags := {[ "oxideParser" := true ]} |};
     candidates := Some ["b"; "a"; "b"];
     changedContent := [Demo.inline "text-3xl p-4" "html"; Demo.inline "font-bold p-4" "js"];
     classCache := ∅; ruleCache := []; stylesheetCache := None |}.

Definition sample_two_extractors_config : config :=
  {| content_extract := {[ "html" := ConfiguredExtractor 0 false;
                           "vue" := ConfiguredExtractor 1 false ]};
     content_transform := ∅;
     config_flags := ∅ |}.

Definition sample_two_items_context : context :=
  {| tailwindConfig := sample_two_extractors_config;
     candidates := None;
     changedContent := [Demo.inline "p-4" "html"; Demo.inline " p-4 " "vue"];
     classCache := ∅; ruleCache := []; stylesheetCache := None |}.

(** ** More notions used in the statements *)

(** The paths of the file reads that were started, in the order of the calls. *)
Definition read_paths (trace : list event) : list string :=
  omap (λ ev, match ev with CallReadFile path => Some path | _ => None end) trace.

(** The events of the native scanner. *)
Definition is_native_scan (ev : event) : bool :=
  match ev with CallParseCandidateStrings _ => true | _ => false end.

(** The events of the regex path. *)
Definition is_regex_event (ev : event) : bool :=
  match ev with
  | CallReadFile _ | CallTransformer _ _ | CallExtractor _ _ => true
  | _ => false
  end.

(** What a miss stores for a line: the set of what the extractor returns,
    without ["!*"]. *)
Definition line_tokens (E : externals) (e : extractor) (line : string) : list string :=
  str_of_list (filter (λ s, s ≠ "!*") (run_extractor E e line)).

(** Every entry of the line caches is what its extractor returns for the
    line. *)
Definition coherent (E : externals) (ec : gmap extractor LRU.t) : Prop :=
  ∀ e lru line v,
    ec !! e = Some lru → LRU.peek line lru = Some v → v = line_tokens E e line.

(** No entry of the line caches holds ["!*"]. *)
Definition bang_free (ec : gmap extractor LRU.t) : Prop :=
  ∀ e lru line v, ec !! e = Some lru → LRU.peek line lru = Some v → "!*" ∉ v.

(** The text that the regex path scans for an item: the file when the
    item names one, the inline content otherwise. *)
Definition item_text (E : externals) (it : item) : string :=
  match reads_file it with
  | Some path => readFile E path
  | None => content it
  end.

(** The transformer calls of a trace, with their arguments. *)
Definition transformer_calls (trace : list event) : list (transformer * string) :=
  omap (λ ev, match ev with CallTransformer t text => Some (t, text) | _ => None end)
       trace.

(** What a batch does before the extractors run: the calls of the first
    halves of the callbacks, then those of the second halves in the order
    in which the reads complete. *)
Definition start_events (en : item * meta) : list event :=
  match reads_file en.1 with
  | Some path => [CallReadFile path]
  | None => [CallTransformer (meta_transformer en.2) (content en.1)]
  end.

Definition resume_events (E : externals) (en : item * meta) : list event :=
  match reads_file en.1 with
  | Some path => [CallTransformer (meta_transformer en.2) (readFile E path)]
  | None => []
  end.

Definition batch_events (E : externals) (batch : list (item * meta)) : list event :=
  flat_map start_events batch
  ++ flat_map (resume_events E) (read_order E (filter (λ en, is_read en = true) batch)).

Definition native_events (rust : list item) : list event :=
  match rust with
  | [] => []
  | _ :: _ => [CallParseCandidateStrings rust]
  end.

(** No extractor is configured for the extension, or as [DEFAULT], and
    none is built in: [getExtractor] makes a default extractor. *)
Definition falls_back (cfg : config) (fileExtension : string) : Prop :=
  or_else (content_extract cfg !! fileExtension)
    (or_else (content_extract cfg !! "DEFAULT") (builtInExtractors fileExtension))
  = None.

(** No node of [l], at any depth, is the object with identity [target]. *)
Definition absent (target : nat) (l : list node) : Prop :=
  Forall (λ n, nid n ≠ target) (walk_list l).

(** [s.includes(p)] *)
Fixpoint includes (p s : string) : bool :=
  JsString.starts_with p s
  || match s with
     | EmptyString => false
     | String _ r => includes p r
     end.

(** ** The PostCSS plugin ([plugin.js]) *)

Module Plugin.

(** What the plugin reads of the node it is handed: its [type] and, for a
    document, its children. [css_id] is the identity of the object. *)
#[warnings="-register-all"]
Inductive css := mkCss {
  css_id : nat;
  css_type : string;
  css_nodes : list css
}.

Section plugin.
Context {C : Type}.

(** The collaborators of the plugin function, which live outside this
    file. Each of them may throw: [findAtConfigPath] gives [None] then,
    and [Some None] when it returns [null]; the other two tell whether
    they return. *)
Record collaborators := {
  findAtConfigPath : css → option (option C);
  setupTrackingContext_returns : C → bool;
  processTailwindFeatures_returns : C → css → bool
}.

Inductive call :=
  | CallFindAtConfigPath (root : nat)
  | CallSetupTrackingContext (configOrPath : C)
  | CallProcessTailwindFeatures (configOrPath : C) (root : nat).

Context (K : collaborators).

(** The loop over the roots of a document, with its test in the body. *)
Fixpoint process_roots (configOrPath : C) (roots : list css) : list call * completion :=
  match roots with
  | [] => ([], Returned)
  | root :: rest =>
      if String.eqb (css_type root) "root" then
        if processTailwindFeatures_returns K configOrPath root then
          let '(trace, c) := process_roots configOrPath rest in
          (CallProcessTailwindFeatures configOrPath (css_id root) :: trace, c)
        else ([CallProcessTailwindFeatures configOrPath (css_id root)], Threw)
      else process_roots configOrPath rest
  end.

(** The result of one call of the plugin function: the value that the
    variable [configOrPath] of the enclosing [tailwindcss(configOrPath)]
    holds afterwards, the calls made, and how the function ended. *)
Record ran := {
  ran_configOrPath : C;
  ran_trace : list call;
  ran_completion : completion
}.

(** [async function (root, result) { ... }] *)
Definition main (configOrPath : C) (root : css) : ran :=
  match findAtConfigPath K root with
  | None =>
      {| ran_configOrPath := configOrPath;
         ran_trace := [CallFindAtConfigPath (css_id root)];
         ran_completion := Threw |}
  | Some found =>
      let configOrPath := default configOrPath found in
      if setupTrackingContext_returns K configOrPath then
        if String.eqb (css_type root) "document" then
          let roots := filter (λ node, css_type node = "root") (css_nodes root) in
          let '(trace, c) := process_roots configOrPath roots in
          {| ran_configOrPath := configOrPath;
             ran_trace := CallFindAtConfigPath (css_id root)
                          :: CallSetupTrackingContext configOrPath :: trace;
             ran_completion := c |}
        else if processTailwindFeatures_returns K configOrPath root then
          {| ran_configOrPath := configOrPath;
             ran_trace := [CallFindAtConfigPath (css_id root);
                           CallSetupTrackingContext configOrPath;
                           CallProcessTailwindFeatures configOrPath (css_id root)];
             ran_completion := Returned |}
        else
          {| ran_configOrPath := configOrPath;
             ran_trace := [CallFindAtConfigPath (css_id root);
                           CallSetupTrackingContext configOrPath;
                           CallProcessTailwindFeatures configOrPath (css_id root)];
             ran_completion := Threw |}
      else
        {| ran_configOrPath := configOrPath;
           ran_trace := [CallFindAtConfigPath (css_id root);
                         CallSetupTrackingContext configOrPath];
           ran_completion := Threw |}
  end.

(** The files that one plugin instance is run on, one after the other. *)
Definition main_all (configOrPath : C) (roots : list css) : C :=
  foldl (λ c root, ran_configOrPath (main c root)) configOrPath roots.

(** The paths that the [@config] directives of the files gave. *)
Definition found_paths (roots : list css) : list C :=
  omap (λ root, mjoin (findAtConfigPath K root)) roots.

(** The configuration that a run hands on. *)
Definition config_of (ev : call) : option C :=
  match ev with
  | CallFindAtConfigPath _ => None
  | CallSetupTrackingContext c => Some c
  | CallProcessTailwindFeatures c _ => Some c
  end.

Definition processed (trace : list call) : list nat :=
  omap (λ ev, match ev with
              | CallProcessTailwindFeatures _ root => Some root
              | _ => None
              end) trace.

End plugin.

(** *** The error of the formatting stage *)

(** [l.slice(start, end)] *)
Definition slice {A} (l : list A) (start end_ : Z) : list A :=
  let len := Z.of_nat (length l) in
  let k := if (start <? 0)%Z then Z.max (len + start) 0 else Z.min start len in
  let final := if (end_ <? 0)%Z then Z.max (len + end_) 0 else Z.min end_ len in
  take (Z.to_nat (final - k)) (drop (Z.to_nat k) l).

(** [' '.repeat(count)]; [None] is the [RangeError] of a negative count. *)
Definition repeat_space (count : Z) : option string :=
  if (count <? 0)%Z then None
  else Some (string_of_list_ascii (replicate (Z.to_nat count) " "%char)).

(** What the handler reads of the error that was caught. *)
Record lightning_error := {
  err_source : option string;
  err_line : Z;
  err_column : Z;
  err_toString : string
}.

(** What the handler throws. *)
Inductive thrown :=
  | Original
  | Formatted (message : list string)
  | RangeError.

(** The [catch] block of [lightningCssPlugin]; [jest] stands for
    [typeof process !== 'undefined' && process.env.JEST_WORKER_ID], and the
    lines of the message are joined with line feeds. *)
Definition rethrow (jest : bool) (err : lightning_error) : thrown :=
  match err_source err with
  | Some source =>
      if negb (JsString.is_empty source) && jest then
        let lines := JsString.split_newline source in
        match repeat_space (err_column err - 1) with
        | Some indent =>
            Formatted
              (["Error formatting using Lightning CSS:"; ""; "```css"]
               ++ slice lines (Z.max (err_line err - 3) 0) (err_line err)
               ++ [indent +:+ "^-- " +:+ err_toString err]
               ++ slice lines (err_line err) (err_line err + 2)
               ++ ["```"])
        | None => RangeError
        end
      else Original
  | None => Original
  end.

End Plugin.

(** ** More sample inputs *)

(** A rule under a layer tag that names none of the five sets. *)
Definition sample_user_rules : list (RuleOffset.t * node) :=
  [(Demo.offset "base" 0, Demo.generated 10 None);
   (Demo.offset "user" 1, Demo.generated 11 None)].

Definition sample_sorted_sheet : Stylesheet.t :=
  Stylesheet.mk [Demo.generated 10 None] [Demo.generated 11 None] []
    [Demo.generated 12 None] [Demo.generated 13 (Some "utilities")].

(** A line on which the extractor returns ["!*"]. *)
Definition sample_bang_context : context :=
  {| tailwindConfig := sample_two_extractors_config;
     candidates := None;
     changedContent := [Demo.inline "!* p-4" "html"];
     classCache := ∅; ruleCache := []; stylesheetCache := None |}.

(** The module after a first scan of [sample_two_items_context]. *)
Definition sample_warm_module : module_state :=
  {| module_extractorCache :=
       extractorCache (scan Demo.E sample_two_items_context Demo.fresh_module).1;
     module_fresh := 0 |}.

(** A variant rule with a declaration, both without source. *)
Definition sample_variant_rule : node :=
  mkNode 11 ty_rule "" "" None (Some {| parentLayer := Some "utilities" |})
    [mkNode 12 ty_decl "" "" None None []].

(** An error on the third of four lines. *)
Definition sample_error : Plugin.lightning_error :=
  {| Plugin.err_source :=
       Some ("a {" +:+ String "010" ("  b: c;" +:+ String "010"
               ("  d e;" +:+ String "010" "}")));
     Plugin.err_line := 3;
     Plugin.err_column := 5;
     Plugin.err_toString := "SyntaxError" |}.

(** The three directives around a rule of the author, the utilities
    first. *)
Definition sample_canonical_document : root :=
  Demo.doc [Demo.directive 3 "utilities";
            mkNode 4 ty_rule "" "" (Some (Demo.loc 4)) None [];
            Demo.directive 1 "base";
            Demo.directive 2 "components"].

(** A variant rule without parent layer, with a declaration, both without
    source; and a context whose Rule Cache holds it alone. *)
Definition sample_orphan_rule : node :=
  mkNode 30 ty_rule "" "" None (Some {| parentLayer := None |})
    [mkNode 31 ty_decl "" "" None None []].

Definition sample_orphan_context : context :=
  {| tailwindConfig := Demo.plain_config false; candidates := None;
     changedContent := []; classCache := ∅;
     ruleCache := [(Demo.offset "variants" 0, sample_orphan_rule)];
     stylesheetCache := None |}.


(** * Properties *)

(** ** The model at work *)

Example trim_strips_both_ends : JsString.trim "  p-4  " = "p-4".
Proof. reflexivity. Qed.

Example split_keeps_empty_lines :
  JsString.split_newline ("a" +:+ String "010" (String "010" "b")) = ["a"; ""; "b"].
Proof. reflexivity. Qed.

Example svelte_drops_class_directives :
  svelte_replace true 0 "class:foo x class:bar yclass:z" = " foo x bar yclass:z".
Proof. reflexivity. Qed.

Example candidates_sort_by_code_unit :
  sortedCandidates ["b"; "a"; "*"; "ab"; "B"; "a"] = ["*"; "B"; "a"; "ab"; "b"].
Proof. vm_compute. reflexivity. Qed.

Example default_extractor_is_made_per_item :
  regexParserContent
    (route Demo.E (Demo.plain_config false)
       [Demo.inline "a" "html"; Demo.inline "b" "html"] 0)
  = [(Demo.inline "a" "html",
      {| meta_transformer := BuiltInDefault;
         meta_extractor := DefaultExtractorInstance 0 |});
     (Demo.inline "b" "html",
      {| meta_transformer := BuiltInDefault;
         meta_extractor := DefaultExtractorInstance 1 |})].
Proof. vm_compute. reflexivity. Qed.

(** The append of the variants reads the source of [layerNodes[null]] when
    a copy without parent layer has a descendant without source. *)
Example backfill_can_throw :
  let orphan :=
    mkNode 30 ty_rule "" "" None (Some {| parentLayer := None |})
      [mkNode 31 ty_decl "" "" None None []] in
  let ctx :=
    {| tailwindConfig := Demo.plain_config false; candidates := None;
       changedContent := []; classCache := ∅;
       ruleCache := [(Demo.offset "variants" 0, orphan)];
       stylesheetCache := None |} in
  let out := expandTailwindAtRules Demo.E ctx Demo.fresh_module
               (Demo.doc [Demo.directive 1 "utilities"]) in
  out_completion out = Threw ∧ root_nodes (out_root out) = []
  ∧ changedContent (out_context out) = changedContent ctx.
Proof. vm_compute. done. Qed.

(** ** Facts about sets *)

Module JsSetFacts.
Section keyed.
Context {A K : Type} `{EqDecision K} (key : A → K).

Lemma has_spec x s : JsSet.has key x s = true ↔ key x ∈ key <$> s.
Proof. unfold JsSet.has. by rewrite bool_decide_eq_true. Qed.

Lemma keys_add s x k :
  k ∈ key <$> JsSet.add key s x ↔ k ∈ key <$> s ∨ k = key x.
Proof.
  unfold JsSet.add. destruct (JsSet.has key x s) eqn:Hh.
  - apply has_spec in Hh. split; [by left|]. by intros [?| ->].
  - rewrite fmap_app, elem_of_app. simpl. by rewrite list_elem_of_singleton.
Qed.

Lemma elem_of_add s x y : y ∈ JsSet.add key s x → y ∈ s ∨ y = x.
Proof.
  unfold JsSet.add. destruct (JsSet.has key x s); [by left|].
  rewrite elem_of_app, list_elem_of_singleton. tauto.
Qed.

Lemma add_keeps s x y : y ∈ s → y ∈ JsSet.add key s x.
Proof.
  unfold JsSet.add. destruct (JsSet.has key x s); [done|].
  rewrite elem_of_app. by left.
Qed.

Lemma NoDup_add s x : NoDup (key <$> s) → NoDup (key <$> JsSet.add key s x).
Proof.
  intros Hs. unfold JsSet.add. destruct (JsSet.has key x s) eqn:Hh; [done|].
  rewrite fmap_app. apply NoDup_app. split_and!; [done| |apply NoDup_singleton].
  intros k Hk. simpl. rewrite list_elem_of_singleton. intros ->.
  apply has_spec in Hk. congruence.
Qed.

Lemma keys_add_all xs : ∀ s k,
  k ∈ key <$> JsSet.add_all key s xs ↔ k ∈ key <$> s ∨ k ∈ key <$> xs.
Proof.
  unfold JsSet.add_all.
  induction xs as [|x xs IH]; intros s k; simpl.
  - rewrite elem_of_nil. tauto.
  - rewrite IH, keys_add, elem_of_cons. tauto.
Qed.

Lemma elem_of_add_all xs : ∀ s y,
  y ∈ JsSet.add_all key s xs → y ∈ s ∨ y ∈ xs.
Proof.
  unfold JsSet.add_all.
  induction xs as [|x xs IH]; intros s y; simpl; [by left|].
  intros [Hy|Hy]%IH; [|right; by right].
  apply elem_of_add in Hy as [?| ->]; [by left|right; by left].
Qed.

Lemma add_all_keeps xs : ∀ s y, y ∈ s → y ∈ JsSet.add_all key s xs.
Proof.
  unfold JsSet.add_all.
  induction xs as [|x xs IH]; intros s y Hy; simpl; [done|].
  by apply IH, add_keeps.
Qed.

Lemma NoDup_add_all xs : ∀ s,
  NoDup (key <$> s) → NoDup (key <$> JsSet.add_all key s xs).
Proof.
  unfold JsSet.add_all.
  induction xs as [|x xs IH]; intros s Hs; simpl; [done|].
  by apply IH, NoDup_add.
Qed.

Lemma add_all_fresh xs : ∀ s,
  NoDup (key <$> (s ++ xs)) → JsSet.add_all key s xs = s ++ xs.
Proof.
  unfold JsSet.add_all.
  induction xs as [|x xs IH]; intros s Hs; simpl.
  - by rewrite app_nil_r.
  - assert (JsSet.has key x s = false) as Hx.
    { apply not_true_is_false. rewrite has_spec. intros Hin.
      rewrite fmap_app in Hs. apply NoDup_app in Hs as (_ & Hd & _).
      apply (Hd _ Hin). simpl. by left. }
    unfold JsSet.add at 2. rewrite Hx.
    rewrite IH; rewrite <- app_assoc; done.
Qed.

Lemma NoDup_of_list xs : NoDup (key <$> JsSet.of_list key xs).
Proof. apply NoDup_add_all. simpl. apply NoDup_nil_2. Qed.

Lemma keys_of_list xs k : k ∈ key <$> JsSet.of_list key xs ↔ k ∈ key <$> xs.
Proof.
  unfold JsSet.of_list. rewrite keys_add_all. simpl. rewrite elem_of_nil. tauto.
Qed.

Lemma of_list_fresh xs : NoDup (key <$> xs) → JsSet.of_list key xs = xs.
Proof. intros Hxs. unfold JsSet.of_list. by rewrite add_all_fresh. Qed.
End keyed.

(** Sets of strings. *)
Lemma str_elem_of_add_all (s xs : list string) c :
  c ∈ str_add_all s xs ↔ c ∈ s ∨ c ∈ xs.
Proof.
  pose proof (keys_add_all (@id string) xs s c) as Hk.
  by rewrite !list_fmap_id in Hk.
Qed.

Lemma str_elem_of_add (s : list string) x c : c ∈ str_add s x ↔ c ∈ s ∨ c = x.
Proof.
  pose proof (keys_add (@id string) s x c) as Hk.
  by rewrite !list_fmap_id in Hk.
Qed.

Lemma str_elem_of_of_list (xs : list string) c : c ∈ str_of_list xs ↔ c ∈ xs.
Proof.
  pose proof (keys_of_list (@id string) xs c) as Hk.
  by rewrite !list_fmap_id in Hk.
Qed.

Lemma str_NoDup_add_all (s xs : list string) : NoDup s → NoDup (str_add_all s xs).
Proof.
  intros Hs. pose proof (NoDup_add_all (@id string) xs s) as Hk.
  rewrite !list_fmap_id in Hk. by apply Hk.
Qed.

Lemma str_NoDup_add (s : list string) x : NoDup s → NoDup (str_add s x).
Proof.
  intros Hs. pose proof (NoDup_add (@id string) s x) as Hk.
  rewrite !list_fmap_id in Hk. by apply Hk.
Qed.

Lemma str_NoDup_of_list (xs : list string) : NoDup (str_of_list xs).
Proof.
  pose proof (NoDup_of_list (@id string) xs) as Hk. by rewrite list_fmap_id in Hk.
Qed.

Lemma str_of_list_fresh (xs : list string) : NoDup xs → str_of_list xs = xs.
Proof. intros Hxs. apply of_list_fresh. by rewrite list_fmap_id. Qed.
End JsSetFacts.

(** ** Discovery of the layer markers *)

Section Discovery.

Lemma discover_step_other ln n :
  is_directive n = false → discover_step ln n = ln.
Proof.
  unfold is_directive, discover_step.
  destruct (String.eqb (name n) "tailwind"); [|done].
  simpl. by intros ->.
Qed.

Lemma discover_step_directive ln n :
  is_directive n = true → discover_step ln n = LayerNodes.set ln (params n) n.
Proof.
  unfold is_directive, discover_step.
  destruct (String.eqb (name n) "tailwind"); [|done].
  simpl. by intros ->.
Qed.

Lemma foldl_discover_other l : ∀ ln,
  Forall (λ n, is_directive n = false) l → foldl discover_step ln l = ln.
Proof.
  induction l as [|n l IH]; intros ln Hl; [done|].
  inv Hl. simpl. rewrite discover_step_other by done. by apply IH.
Qed.

Lemma discover_no_directive r :
  (∀ n, n ∈ walkAtRules r → is_directive n = false) →
  discover r = LayerNodes.empty.
Proof.
  intros Hr. unfold discover. apply foldl_discover_other.
  by apply Forall_forall.
Qed.

Lemma layer_key_cases k :
  k ∈ LayerNodes.keys →
  k = "base" ∨ k = "components" ∨ k = "utilities" ∨ k = "variants".
Proof.
  unfold LayerNodes.keys. rewrite !elem_of_cons, elem_of_nil. tauto.
Qed.

Lemma is_layer_key_spec k : is_layer_key k = true ↔ k ∈ LayerNodes.keys.
Proof. unfold is_layer_key. by rewrite bool_decide_eq_true. Qed.

Lemma get_set ln k n k' :
  k ∈ LayerNodes.keys →
  LayerNodes.get (LayerNodes.set ln k n) k'
  = if decide (k = k') then Some n else LayerNodes.get ln k'.
Proof.
  intros Hk. apply layer_key_cases in Hk.
  unfold LayerNodes.get, LayerNodes.set.
  destruct Hk as [ -> | [ -> | [ -> | -> ] ] ]; simpl;
    destruct (String.eqb_spec k' "base"); subst; simpl; try done;
    destruct (String.eqb_spec k' "components"); subst; simpl; try done;
    destruct (String.eqb_spec k' "utilities"); subst; simpl; try done;
    destruct (String.eqb_spec k' "variants"); subst; simpl; try done;
    case_decide; congruence.
Qed.

Lemma get_empty k : LayerNodes.get LayerNodes.empty k = None.
Proof.
  unfold LayerNodes.get. simpl.
  by repeat (match goal with |- context [String.eqb ?a ?b] =>
               destruct (String.eqb a b) end).
Qed.

(** The marker of a layer is the last directive that names it. *)
Lemma discover_get_last r k :
  LayerNodes.get (discover r) k = last (directives_named k r).
Proof.
  unfold discover, directives_named.
  induction (walkAtRules r) as [|n l IH] using rev_ind.
  - simpl. apply get_empty.
  - rewrite foldl_snoc, filter_app.
    destruct (is_directive n) eqn:Hd.
    + rewrite discover_step_directive by done.
      assert (params n ∈ LayerNodes.keys) as Hk.
      { apply is_layer_key_spec. unfold is_directive in Hd.
        by apply andb_true_iff in Hd as [_ ?]. }
      rewrite get_set by done.
      rewrite filter_cons, filter_nil. case_decide as Hp.
      * rewrite decide_True by (by rewrite Hd). by rewrite last_snoc.
      * rewrite decide_False by (intros [_ ?]; done).
        by rewrite app_nil_r.
    + rewrite discover_step_other by done.
      rewrite filter_cons, filter_nil.
      rewrite decide_False by (intros [? _]; congruence).
      by rewrite app_nil_r.
Qed.

Lemma all_null_empty : LayerNodes.all_null LayerNodes.empty = true.
Proof. done. Qed.

End Discovery.

(** ** The early exit *)

(** C10. A document without a [@tailwind] directive for one of the four
    layers is returned as it is: the pass calls no collaborator and
    leaves the context and the module state untouched, the pending
    content items included. *)
Theorem C10_no_directive_is_noop (E : externals) ctx ms r :
  (∀ n, n ∈ walkAtRules r → is_directive n = false) →
  expandTailwindAtRules E ctx ms r
  = {| out_completion := Returned; out_root := r; out_context := ctx;
       out_module := ms; out_trace := [] |}.
Proof.
  intros Hr. unfold expandTailwindAtRules.
  by rewrite (discover_no_directive r Hr), all_null_empty.
Qed.

Lemma C10_no_directive_is_noop_witness :
  (∀ n, n ∈ walkAtRules sample_plain_document → is_directive n = false)
  ∧ changedContent
      (out_context (expandTailwindAtRules Demo.E sample_pending_context
                      Demo.fresh_module sample_plain_document))
    = [Demo.inline "text-3xl" "html"].
Proof.
  assert (∀ n, n ∈ walkAtRules sample_plain_document → is_directive n = false) as Hr.
  { intros n Hn. vm_compute in Hn.
    apply elem_of_cons in Hn as [->|Hn]; [done|].
    apply elem_of_cons in Hn as [->|Hn]; [done|].
    by apply elem_of_nil in Hn. }
  split; [exact Hr|].
  by rewrite (C10_no_directive_is_noop Demo.E sample_pending_context
                Demo.fresh_module sample_plain_document Hr).
Defined.

(** ** Duplicated directives *)

(** C8, as the code has it. The marker of a layer is the last
    [@tailwind] directive of that name in document order; that node is
    the one the splice inserts before and removes. *)
Theorem C8_last_directive_is_marker (E : externals) r layer :
  layer ∈ LayerNodes.keys →
  LayerNodes.get (discover r) layer = last (directives_named layer r)
  ∧ ∀ m generated tag r',
      LayerNodes.get (discover r) layer = Some m →
      splice_layer E (LayerNodes.get (discover r) layer) generated tag r'
      = remove m (before m (cloneNodes E generated (source m) tag) r').
Proof.
  intros _. split; [apply discover_get_last|].
  intros m generated tag r' ->. done.
Qed.

Lemma C8_last_directive_is_marker_witness :
  "base" ∈ LayerNodes.keys
  ∧ LayerNodes.get (discover sample_twice_base_document) "base"
    = Some (Demo.directive 2 "base")
  ∧ splice_layer Demo.E (LayerNodes.get (discover sample_twice_base_document) "base")
      [Demo.generated 10 None] "base" sample_twice_base_document
    = Demo.doc [Demo.directive 1 "base";
                Demo.clone (Some (Demo.loc 2)) (Demo.generated 10 None)].
Proof.
  assert ("base" ∈ LayerNodes.keys) as Hk by (by left).
  destruct (C8_last_directive_is_marker Demo.E sample_twice_base_document "base" Hk)
    as [Hlast Hsplice].
  split; [exact Hk|]. split.
  - rewrite Hlast. vm_compute. reflexivity.
  - rewrite (Hsplice (Demo.directive 2 "base")).
    + vm_compute. reflexivity.
    + rewrite Hlast. vm_compute. reflexivity.
Defined.

(** C8, as stated, fails: of two [@tailwind base] directives the first
    is not the marker; it stays in the document and the generated rules
    take the place of the second. *)
Lemma C8_first_wins_counterexample :
  head (directives_named "base" sample_twice_base_document) = Some (Demo.directive 1 "base")
  ∧ LayerNodes.base (discover sample_twice_base_document)
    ≠ head (directives_named "base" sample_twice_base_document)
  ∧ root_nodes
      (out_root (expandTailwindAtRules Demo.E sample_base_context
                   Demo.fresh_module sample_twice_base_document))
    = [Demo.directive 1 "base";
       Demo.clone (Some (Demo.loc 2)) (Demo.generated 10 None)].
Proof. split_and!; [by vm_compute|by vm_compute|by vm_compute]. Qed.

(** ** The trace of a scan *)

Lemma foldl_invariant {A B} (I : A → Prop) (f : A → B → A) (l : list B) :
  (∀ a b, I a → I (f a b)) → ∀ a, I a → I (foldl f a l).
Proof.
  intros Hf. induction l as [|b l IH]; intros a Ha; simpl; [done|].
  by apply IH, Hf.
Qed.

Section ScanTrace.
Context (E : externals) (Q : event → Prop).
Hypothesis Q_scan : ∀ ev, is_scan_event ev = true → Q ev.

Local Abbreviation ok st := (Forall Q (scan_trace st)).

Lemma log_ok ev st : is_scan_event ev = true → ok st → ok (log ev st).
Proof.
  intros Hev Hst. simpl. apply Forall_app. split; [done|].
  apply Forall_singleton. by apply Q_scan.
Qed.

Lemma getClassCandidates_line_ok e st raw :
  ok st → ok (getClassCandidates_line E e st raw).
Proof.
  intros Hst. unfold getClassCandidates_line.
  destruct (str_has _ _); [done|].
  destruct (LRU.has _ _).
  - by destruct (LRU.get _ _).
  - simpl. apply Forall_app. split; [done|].
    apply Forall_singleton. by apply Q_scan.
Qed.

Lemma getClassCandidates_ok text e st :
  ok st → ok (getClassCandidates E text e st).
Proof.
  intros Hst. unfold getClassCandidates.
  apply (foldl_invariant (λ st, ok st)); [|done].
  intros. by apply getClassCandidates_line_ok.
Qed.

Lemma scan_text_ok text m st : ok st → ok (scan_text E text m st).
Proof.
  intros Hst. unfold scan_text. apply getClassCandidates_ok. by apply log_ok.
Qed.

Lemma scan_batch_ok st batch : ok st → ok (scan_batch E st batch).
Proof.
  intros Hst. unfold scan_batch.
  apply (foldl_invariant (λ st, ok st)).
  - intros a b Ha. unfold batch_resume.
    destruct (reads_file b.1); [by apply scan_text_ok|done].
  - apply (foldl_invariant (λ st, ok st)); [|done].
    intros a b Ha. unfold batch_start.
    destruct (reads_file b.1); [by apply log_ok|by apply scan_text_ok].
Qed.

Lemma scan_regex_ok regex st : ok st → ok (scan_regex E regex st).
Proof.
  intros Hst. unfold scan_regex.
  apply (foldl_invariant (λ st, ok st)); [|done].
  intros. by apply scan_batch_ok.
Qed.

Lemma scan_rust_ok rust st : ok st → ok (scan_rust E rust st).
Proof.
  intros Hst. unfold scan_rust. destruct rust; [done|].
  simpl. apply Forall_app. split; [done|].
  apply Forall_singleton. by apply Q_scan.
Qed.

Lemma scan_ok ctx ms : ok (scan E ctx ms).1.
Proof.
  unfold scan. simpl. apply scan_regex_ok, scan_rust_ok. simpl. constructor.
Qed.
End ScanTrace.

Lemma filter_none {A} (P : A → Prop) `{∀ x, Decision (P x)} (l : list A) :
  Forall (λ x, ¬ P x) l → filter P l = [].
Proof.
  induction 1 as [|x l Hx _ IH]; [done|].
  by rewrite filter_cons, decide_False.
Qed.

Lemma scan_trace_no_warn E ctx ms :
  filter (λ ev, is_warn ev = true) (scan_trace (scan E ctx ms).1) = [].
Proof.
  apply filter_none, scan_ok. by intros [].
Qed.

Lemma scan_trace_no_rebuild E ctx ms :
  filter (λ ev, is_rebuild ev = true) (scan_trace (scan E ctx ms).1) = [].
Proof.
  apply filter_none, scan_ok. by intros [].
Qed.

(** ** The shape of a pass *)

Section Pass.
Context (E : externals).

Lemma expand_early ctx ms r :
  LayerNodes.all_null (discover r) = true →
  expandTailwindAtRules E ctx ms r
  = {| out_completion := Returned; out_root := r; out_context := ctx;
       out_module := ms; out_trace := [] |}.
Proof. intros Hn. unfold expandTailwindAtRules. by rewrite Hn. Qed.

Lemma expand_threw_build ctx ms r :
  LayerNodes.all_null (discover r) = false →
  pass_sheet E ctx ms = None →
  let out := expandTailwindAtRules E ctx ms r in
  out_completion out = Threw
  ∧ out_root out = r
  ∧ out_context out = pass_generated E ctx ms
  ∧ out_trace out
    = scan_trace (scan E ctx ms).1 ++ [CallGenerateRules (pass_sorted E ctx ms)]
      ++ (assemble E (pass_generated E ctx ms) (size (classCache ctx))).2.
Proof.
  intros Hn Hs. unfold expandTailwindAtRules. rewrite Hn.
  unfold pass_sheet in Hs. cbv zeta. rewrite Hs.
  cbn [out_completion out_root out_context out_trace].
  by rewrite <- app_assoc.
Qed.

Lemma expand_built ctx ms r sheet :
  LayerNodes.all_null (discover r) = false →
  pass_sheet E ctx ms = Some sheet →
  let out := expandTailwindAtRules E ctx ms r in
  let ln := discover r in
  let vn := variantNodes ln (Stylesheet.variants sheet) in
  let before_diagnosis :=
    scan_trace (scan E ctx ms).1 ++ [CallGenerateRules (pass_sorted E ctx ms)]
    ++ (assemble E (pass_generated E ctx ms) (size (classCache ctx))).2 in
  out_root out = pass_root E ln sheet r
  ∧ (out_completion out = Returned ↔ is_Some (splice E ln sheet r))
  ∧ stylesheetCache (out_context out) = Some sheet
  ∧ classCache (out_context out) = classCache (pass_generated E ctx ms)
  ∧ ruleCache (out_context out) = ruleCache (pass_generated E ctx ms)
  ∧ out_trace out
    = before_diagnosis
      ++ (if bool_decide (out_completion out = Returned)
          then diagnose ln (Stylesheet.utilities sheet) vn else []).
Proof.
  intros Hn Hs. unfold expandTailwindAtRules, pass_root. rewrite Hn.
  unfold pass_sheet in Hs. cbv zeta. rewrite Hs.
  destruct (splice E (discover r) sheet r) as [r4|] eqn:Hsp;
    cbn [out_completion out_root out_context out_trace
         clear_changedContent with_stylesheet stylesheetCache classCache ruleCache].
  - rewrite bool_decide_eq_true_2 by done.
    split_and!; try done; try (by split; eauto); by rewrite <- !app_assoc.
  - rewrite bool_decide_eq_false_2 by done.
    split_and!; try done; try (split; [done|by intros [? ?]]);
      by rewrite app_nil_r, <- !app_assoc.
Qed.

(** The stylesheet of a pass is there when the cached one is reused, and
    when the rebuild meets only tags that name a set. *)
Lemma pass_sheet_reused ctx ms :
  must_rebuild (pass_generated E ctx ms) (size (classCache ctx)) = false →
  pass_sheet E ctx ms = stylesheetCache ctx ∧ is_Some (stylesheetCache ctx).
Proof.
  intros Hm. unfold pass_sheet, assemble. rewrite Hm. split; [done|].
  unfold must_rebuild in Hm. apply orb_false_iff in Hm as [Hnull _].
  apply bool_decide_eq_false in Hnull.
  cbn [pass_generated with_caches stylesheetCache] in Hnull.
  by destruct (stylesheetCache ctx); [eauto|].
Qed.

Lemma pass_sheet_rebuilt ctx ms :
  must_rebuild (pass_generated E ctx ms) (size (classCache ctx)) = true →
  pass_sheet E ctx ms = buildStylesheet E (ruleCache (pass_generated E ctx ms)).
Proof. intros Hm. unfold pass_sheet, assemble. by rewrite Hm. Qed.

(** A pass whose stylesheet is there returns when the document has a
    [variants] marker, when no variant node survives, and when every copy
    of a surviving variant node can take its missing sources. *)
Lemma pass_returns ctx ms r sheet :
  LayerNodes.all_null (discover r) = false →
  pass_sheet E ctx ms = Some sheet →
  let ln := discover r in
  let vn := variantNodes ln (Stylesheet.variants sheet) in
  LayerNodes.variants ln ≠ None
  ∨ vn = []
  ∨ is_Some (mapM (backfill ln) (cloneNodes E vn None "variants")) →
  out_completion (expandTailwindAtRules E ctx ms r) = Returned.
Proof.
  intros Hn Hs ln vn Hok.
  destruct (expand_built ctx ms r sheet Hn Hs) as (_ & Hret & _).
  apply Hret. unfold splice, splice_variants. fold ln vn.
  destruct (LayerNodes.variants ln) as [m|]; [eauto|].
  destruct Hok as [?|[Hvn|[cloned Hcl]]]; [done|by rewrite Hvn; eauto|].
  destruct vn; [eauto|]. rewrite Hcl. simpl. eauto.
Qed.

(** With variant nodes whose recorded parent layer is [components] or
    [utilities], and copies that are containers with the parent layer of
    their originals, the back-fill of the sources never throws. *)
Lemma pass_returns_on_contract ctx ms r sheet :
  LayerNodes.all_null (discover r) = false →
  pass_sheet E ctx ms = Some sheet →
  let ln := discover r in
  let vn := variantNodes ln (Stylesheet.variants sheet) in
  Forall (λ n, node_parentLayer n = Some "components"
               ∨ node_parentLayer n = Some "utilities") vn →
  Forall2 (λ n c, node_parentLayer c = node_parentLayer n ∧ is_container c = true)
    vn (cloneNodes E vn None "variants") →
  out_completion (expandTailwindAtRules E ctx ms r) = Returned.
Proof.
  intros Hn Hs ln vn Hparent Hclone.
  apply (pass_returns ctx ms r sheet Hn Hs). right. right. fold ln vn.
  apply mapM_is_Some, Forall_forall. intros c Hc.
  apply list_elem_of_lookup in Hc as [i Hi].
  destruct (Forall2_lookup_r _ _ _ _ _ Hclone Hi) as (n & Hni & Hpl & Hcont).
  assert (n ∈ vn) as Hin by (by apply list_elem_of_lookup; eauto).
  rewrite Forall_forall in Hparent. specialize (Hparent n Hin).
  unfold vn, variantNodes in Hin. apply list_elem_of_filter in Hin as [Hkeep _].
  unfold keeps_variant in Hkeep. simpl. unfold backfill. rewrite Hcont, Hpl.
  destruct Hparent as [Hp|Hp]; rewrite Hp in Hkeep |- *; simpl in Hkeep |- *;
    apply bool_decide_eq_true in Hkeep.
  - unfold LayerNodes.get. simpl. fold ln.
    destruct (LayerNodes.components ln); [eauto|done].
  - unfold LayerNodes.get. simpl. fold ln.
    destruct (LayerNodes.utilities ln); [eauto|done].
Qed.

End Pass.

(** ** The variants layer *)

Lemma keeps_variant_spec ln n :
  keeps_variant ln n = true ↔
  (node_parentLayer n = Some "components" → LayerNodes.components ln ≠ None)
  ∧ (node_parentLayer n = Some "utilities" → LayerNodes.utilities ln ≠ None).
Proof.
  unfold keeps_variant. destruct (node_parentLayer n) as [p|]; [|by split].
  destruct (String.eqb_spec p "components") as [->|Hc].
  - rewrite bool_decide_eq_true. split; [by intros ?; split|]. intros [H _]. by apply H.
  - destruct (String.eqb_spec p "utilities") as [->|Hu].
    + rewrite bool_decide_eq_true. split; [by intros ?; split|]. intros [_ H]. by apply H.
    + split; [|done]. intros _. split; intros [= ->]; congruence.
Qed.

Lemma elem_of_variantNodes ln screenNodes n :
  n ∈ variantNodes ln screenNodes ↔ keeps_variant ln n = true ∧ n ∈ screenNodes.
Proof. unfold variantNodes. by rewrite list_elem_of_filter. Qed.



(** ** The base layer and the defaults *)

Lemma splice_markers_without_base (E : externals) ln sheet d r :
  LayerNodes.base ln = None →
  splice_markers E ln (Stylesheet.with_defaults sheet d) r = splice_markers E ln sheet r.
Proof. intros Hb. unfold splice_markers. by rewrite Hb. Qed.

Lemma pass_root_without_base (E : externals) ln sheet d r :
  LayerNodes.base ln = None →
  splice E ln (Stylesheet.with_defaults sheet d) r = splice E ln sheet r
  ∧ pass_root E ln (Stylesheet.with_defaults sheet d) r = pass_root E ln sheet r.
Proof.
  intros Hb. unfold pass_root, splice.
  by rewrite !splice_markers_without_base.
Qed.



(** ** Induction on the host tree *)

Lemma node_tree_ind (P : node → Prop) :
  (∀ i ty nm ps s rw cs, Forall P cs → P (mkNode i ty nm ps s rw cs)) →
  ∀ n, P n.
Proof.
  intros H. fix IH 1. intros [i ty nm ps s rw cs]. apply H.
  induction cs as [|c cs IHcs]; constructor; [apply IH|apply IHcs].
Qed.

Lemma elem_of_walk_list l n :
  n ∈ walk_list l ↔ ∃ c, c ∈ l ∧ (n = c ∨ n ∈ walk c).
Proof.
  unfold walk_list. rewrite list_elem_of_In, in_flat_map. split.
  - intros (c & Hc & Hn). exists c. apply list_elem_of_In in Hc, Hn.
    split; [done|]. apply elem_of_cons in Hn as [->|Hn]; auto.
  - intros (c & Hc & Hn). exists c. split; [by apply list_elem_of_In|].
    apply list_elem_of_In. apply elem_of_cons. destruct Hn as [->|Hn]; auto.
Qed.

Lemma walk_nodes n : walk n = walk_list (nodes n).
Proof. by destruct n. Qed.

(** ** A marker among the top-level nodes *)

Lemma absent_cons target c l :
  absent target (c :: l) ↔
  nid c ≠ target ∧ absent target (nodes c) ∧ absent target l.
Proof.
  unfold absent, walk_list. cbn [flat_map]. rewrite Forall_app, Forall_cons.
  rewrite walk_nodes. unfold walk_list. tauto.
Qed.

Lemma absent_app target l1 l2 :
  absent target (l1 ++ l2) ↔ absent target l1 ∧ absent target l2.
Proof. unfold absent, walk_list. by rewrite flat_map_app, Forall_app. Qed.

Lemma before_absent target new : ∀ l,
  absent target l → before_list target new l = l.
Proof.
  assert (∀ n, absent target (nodes n) → before_in target new n = n) as Hnode.
  { induction n as [i ty nm ps s rw cs IH] using node_tree_ind.
    cbn [nodes before_in]. intros Habs. f_equal.
    induction IH as [|c cs Hc _ IHcs]; [done|].
    apply absent_cons in Habs as (Hid & Hin & Hrest). cbn [flat_map].
    apply Nat.eqb_neq in Hid. rewrite Hid, Hc by done. simpl. f_equal. by apply IHcs. }
  induction l as [|c l IH]; [done|].
  intros (Hid & Hin & Hrest)%absent_cons. unfold before_list in *. cbn [flat_map].
  apply Nat.eqb_neq in Hid. rewrite Hid, Hnode by done. simpl. f_equal. by apply IH.
Qed.

Lemma prune_absent target : ∀ l,
  absent target l → prune_list (λ c, Nat.eqb (nid c) target) l = l.
Proof.
  assert (∀ n, absent target (nodes n)
               → prune_in (λ c, Nat.eqb (nid c) target) n = n) as Hnode.
  { induction n as [i ty nm ps s rw cs IH] using node_tree_ind.
    cbn [nodes prune_in]. intros Habs. f_equal.
    induction IH as [|c cs Hc _ IHcs]; [done|].
    apply absent_cons in Habs as (Hid & Hin & Hrest). cbn [flat_map].
    apply Nat.eqb_neq in Hid. rewrite Hid, Hc by done. simpl. f_equal. by apply IHcs. }
  induction l as [|c l IH]; [done|].
  intros (Hid & Hin & Hrest)%absent_cons. unfold prune_list in *. cbn [flat_map].
  apply Nat.eqb_neq in Hid. rewrite Hid, Hnode by done. simpl. f_equal. by apply IH.
Qed.

Lemma replaced_at_top (m : node) new r :
  (∀ n, n ∈ root_nodes r → nid n ≠ nid m → absent (nid m) [n]) →
  absent (nid m) new →
  root_nodes (remove m (before m new r))
  = flat_map (λ n, if Nat.eqb (nid n) (nid m) then new else [n]) (root_nodes r).
Proof.
  intros Hdoc Hnew. unfold remove, before. cbn [root_nodes].
  induction (root_nodes r) as [|n l IH]; [done|].
  unfold before_list. cbn [flat_map]. fold (before_list (nid m) new l).
  unfold prune_list. rewrite flat_map_app.
  fold (prune_list (λ c, Nat.eqb (nid c) (nid m)) (before_list (nid m) new l)).
  rewrite IH by (intros n' Hn'; apply Hdoc; by right). f_equal.
  destruct (Nat.eqb (nid n) (nid m)) eqn:Hid.
  - rewrite flat_map_app. cbn [flat_map]. rewrite Hid, !app_nil_r.
    by apply (prune_absent (nid m)).
  - apply Nat.eqb_neq in Hid.
    assert (absent (nid m) [n]) as Hn by (apply Hdoc; [by left|done]).
    pose proof (before_absent (nid m) new [n] Hn) as Hb.
    unfold before_list in Hb. cbn [flat_map] in Hb.
    apply Nat.eqb_neq in Hid. rewrite Hid, app_nil_r in Hb.
    injection Hb as ->. by apply (prune_absent (nid m) [n]).
Qed.

(** ** The diagnostic of an empty utilities layer *)

Lemma diagnose_spec ln utilityNodes vn :
  let empty := utilityNodes = [] ∧ ∀ n, n ∈ vn → node_parentLayer n ≠ Some "utilities" in
  (LayerNodes.utilities ln ≠ None ∧ empty → diagnose ln utilityNodes vn = [content_problems])
  ∧ (¬ (LayerNodes.utilities ln ≠ None ∧ empty) → diagnose ln utilityNodes vn = []).
Proof.
  unfold diagnose, hasUtilityVariants. split.
  - intros (Hu & -> & Hv). rewrite bool_decide_eq_true_2 by done. simpl.
    destruct (existsb _ vn) eqn:Hex; [|done].
    apply existsb_exists in Hex as (n & Hin & Hp).
    apply bool_decide_eq_true in Hp. apply list_elem_of_In in Hin.
    by destruct (Hv n Hin).
  - intros Hno.
    destruct (bool_decide (LayerNodes.utilities ln ≠ None)) eqn:Hu; [|done].
    apply bool_decide_eq_true in Hu.
    destruct utilityNodes as [|u us]; [|done]. simpl.
    destruct (existsb _ vn) eqn:Hex; [done|].
    destruct Hno. split; [done|]. split; [done|].
    intros n Hin Hp. apply not_true_iff_false in Hex. apply Hex.
    apply existsb_exists. exists n. split; [by apply list_elem_of_In|].
    by apply bool_decide_eq_true.
Qed.

Lemma filter_warn_diagnose ln utilityNodes vn :
  filter (λ ev, is_warn ev = true) (diagnose ln utilityNodes vn)
  = diagnose ln utilityNodes vn.
Proof. unfold diagnose. by destruct (_ && _). Qed.

Lemma assemble_no_warn (E : externals) ctx n :
  filter (λ ev, is_warn ev = true) (assemble E ctx n).2 = [].
Proof. unfold assemble. by destruct (must_rebuild _ _). Qed.

Lemma pass_warnings (E : externals) ctx ms r sheet :
  LayerNodes.all_null (discover r) = false →
  pass_sheet E ctx ms = Some sheet →
  let out := expandTailwindAtRules E ctx ms r in
  filter (λ ev, is_warn ev = true) (out_trace out)
  = if bool_decide (out_completion out = Returned)
    then diagnose (discover r) (Stylesheet.utilities sheet)
           (variantNodes (discover r) (Stylesheet.variants sheet))
    else [].
Proof.
  intros Hn Hs out.
  destruct (expand_built E ctx ms r sheet Hn Hs) as (_ & _ & _ & _ & _ & Htr).
  fold out in Htr. rewrite Htr.
  rewrite !filter_app, scan_trace_no_warn, assemble_no_warn.
  rewrite filter_cons, decide_False by done. rewrite filter_nil. simpl.
  destruct (bool_decide _); [apply filter_warn_diagnose|done].
Qed.

Lemma diagnose_warns ln utilityNodes vn :
  diagnose ln utilityNodes vn = [content_problems]
  ↔ LayerNodes.utilities ln ≠ None ∧ utilityNodes = []
    ∧ ∀ n, n ∈ vn → node_parentLayer n ≠ Some "utilities".
Proof.
  destruct (diagnose_spec ln utilityNodes vn) as [Hyes Hnot]. split.
  - unfold diagnose, hasUtilityVariants.
    destruct (bool_decide (LayerNodes.utilities ln ≠ None)) eqn:Hu; [|done].
    apply bool_decide_eq_true in Hu.
    destruct utilityNodes as [|u us]; [|done]. simpl.
    destruct (existsb _ vn) eqn:Hex; [done|]. intros _.
    split; [done|]. split; [done|].
    intros n Hin Hp. apply not_true_iff_false in Hex. apply Hex.
    apply existsb_exists. exists n. split; [by apply list_elem_of_In|].
    by apply bool_decide_eq_true.
  - intros (Hu & Hempty & Hv). by apply Hyes.
Qed.

Lemma diagnose_cases ln utilityNodes vn :
  diagnose ln utilityNodes vn = [content_problems] ∨ diagnose ln utilityNodes vn = [].
Proof. unfold diagnose. destruct (_ && _); [by left|by right]. Qed.





(** ** The partition into layers *)

Section Partition.
Context (E : externals).

Lemma stylesheet_key_cases tag :
  tag ∈ Stylesheet.keys →
  tag = "base" ∨ tag = "defaults" ∨ tag = "components" ∨ tag = "utilities"
  ∨ tag = "variants".
Proof. unfold Stylesheet.keys. rewrite !elem_of_cons, elem_of_nil. tauto. Qed.

Lemma get_unknown sheet tag : tag ∉ Stylesheet.keys → Stylesheet.get sheet tag = [].
Proof.
  unfold Stylesheet.keys, Stylesheet.get. rewrite !not_elem_of_cons.
  intros (? & ? & ? & ? & ? & _).
  by repeat (match goal with |- context [String.eqb ?a ?b] =>
               destruct (String.eqb_spec a b); [congruence|] end).
Qed.

(** One [add] changes the set that the tag names and no other. *)
Lemma bucket_valid rv sort rule :
  RuleOffset.layer sort ∈ Stylesheet.keys →
  ∃ rv', bucket rv (sort, rule) = Some rv'
    ∧ ∀ tag, Stylesheet.get rv' tag
             = if decide (tag = RuleOffset.layer sort)
               then node_add (Stylesheet.get rv tag) rule
               else Stylesheet.get rv tag.
Proof.
  intros Hk. apply stylesheet_key_cases in Hk. destruct rv as [b d c u v].
  unfold bucket.
  destruct Hk as [ -> | [ -> | [ -> | [ -> | -> ] ] ] ]; simpl;
    (eexists; split; [reflexivity|]); intros tag; unfold Stylesheet.get; simpl;
    destruct (String.eqb_spec tag "base"); subst; simpl; try done;
    destruct (String.eqb_spec tag "defaults"); subst; simpl; try done;
    destruct (String.eqb_spec tag "components"); subst; simpl; try done;
    destruct (String.eqb_spec tag "utilities"); subst; simpl; try done;
    destruct (String.eqb_spec tag "variants"); subst; simpl; try done;
    case_decide; congruence.
Qed.

Lemma bucket_invalid rv sort rule :
  RuleOffset.layer sort ∉ Stylesheet.keys → bucket rv (sort, rule) = None.
Proof.
  unfold Stylesheet.keys. rewrite !not_elem_of_cons.
  intros (? & ? & ? & ? & ? & _). unfold bucket. destruct rv.
  by repeat (match goal with |- context [String.eqb ?a ?b] =>
               destruct (String.eqb_spec a b); [congruence|] end).
Qed.


Lemma bucket_all_spec l : ∀ rv,
  Forall (λ p, RuleOffset.layer p.1 ∈ Stylesheet.keys) l →
  ∃ rv', bucket_all rv l = Some rv'
    ∧ (∀ tag i, i ∈ nid <$> Stylesheet.get rv' tag
                ↔ i ∈ nid <$> Stylesheet.get rv tag ∨ tagged l tag i)
    ∧ (∀ tag n, n ∈ Stylesheet.get rv' tag →
                n ∈ Stylesheet.get rv tag
                ∨ ∃ sort, (sort, n) ∈ l ∧ RuleOffset.layer sort = tag)
    ∧ (∀ tag, NoDup (nid <$> Stylesheet.get rv tag) →
              NoDup (nid <$> Stylesheet.get rv' tag)).
Proof.
  induction l as [|[sort rule] l IH]; intros rv Hl.
  - exists rv. split; [done|]. split_and!; [|by left|done].
    intros tag i. split; [by left|]. intros [?|(p & Hp & _)]; [done|].
    by apply elem_of_nil in Hp.
  - inv Hl. cbn [bucket_all fst] in *.
    destruct (bucket_valid rv sort rule) as (rv1 & Hb & Hget); [done|].
    destruct (IH rv1) as (rv' & Hall & Hkeys & Hin & Hnd); [done|].
    exists rv'. rewrite Hb. split; [done|]. split_and!.
    + intros tag i. rewrite Hkeys, Hget. unfold tagged. case_decide as Ht.
      * rewrite JsSetFacts.keys_add. split.
        -- intros [[?| ->]|(p & Hp & Hpt & Hpi)]; [by left| |].
           ++ right. exists (sort, rule). split; [by left|by subst].
           ++ right. exists p. split; [by right|done].
        -- intros [?|(p & Hp & Hpt & Hpi)]; [by left; left|].
           apply elem_of_cons in Hp as [->|Hp]; [left; right; by subst|].
           right. by exists p.
      * split.
        -- intros [?|(p & Hp & Hpt & Hpi)]; [by left|].
           right. exists p. split; [by right|done].
        -- intros [?|(p & Hp & Hpt & Hpi)]; [by left|].
           apply elem_of_cons in Hp as [->|Hp]; [simpl in *; congruence|].
           right. by exists p.
    + intros tag n Hn. apply Hin in Hn as [Hn|(s & Hs & Hst)].
      * rewrite Hget in Hn. case_decide as Ht; [|by left].
        apply JsSetFacts.elem_of_add in Hn as [?| ->]; [by left|].
        right. exists sort. split; [by left|by subst].
      * right. exists s. split; [by right|done].
    + intros tag Hrv. apply Hnd. rewrite Hget. case_decide; [|done].
      by apply JsSetFacts.NoDup_add.
Qed.

Lemma get_empty_sheet tag : Stylesheet.get Stylesheet.empty tag = [].
Proof.
  unfold Stylesheet.get. simpl.
  by repeat (match goal with |- context [String.eqb ?a ?b] =>
               destruct (String.eqb a b) end).
Qed.

(** C2, as the code has it. For rule entries whose layer tags name the
    five sets, [buildStylesheet] returns sets that hold, by identity,
    the rules of the input and nothing else: the set of a tag holds the
    rules entered under that tag, every rule is in the set of its tag,
    and no set holds a rule twice. The sets are pairwise disjoint when
    no rule is entered under two tags. *)
Theorem C2_layer_partition (rules : list (RuleOffset.t * node)) :
  offsets_sort E rules ≡ₚ rules →
  Forall (λ p, RuleOffset.layer p.1 ∈ Stylesheet.keys) rules →
  ∃ sheet, buildStylesheet E rules = Some sheet
    ∧ (∀ tag i, i ∈ nid <$> Stylesheet.get sheet tag ↔ tagged rules tag i)
    ∧ (∀ i, i ∈ nid <$> rules.*2
            ↔ ∃ tag, tag ∈ Stylesheet.keys ∧ i ∈ nid <$> Stylesheet.get sheet tag)
    ∧ (∀ tag n, n ∈ Stylesheet.get sheet tag →
                ∃ sort, (sort, n) ∈ rules ∧ RuleOffset.layer sort = tag)
    ∧ (∀ tag, NoDup (nid <$> Stylesheet.get sheet tag))
    ∧ ((∀ p q, p ∈ rules → q ∈ rules → nid p.2 = nid q.2 →
               RuleOffset.layer p.1 = RuleOffset.layer q.1) →
       ∀ tag1 tag2 i, i ∈ nid <$> Stylesheet.get sheet tag1 →
                      i ∈ nid <$> Stylesheet.get sheet tag2 → tag1 = tag2).
Proof.
  intros Hperm Hvalid. unfold buildStylesheet.
  assert (Forall (λ p, RuleOffset.layer p.1 ∈ Stylesheet.keys) (offsets_sort E rules))
    as Hvalid' by (by rewrite Hperm).
  destruct (bucket_all_spec _ Stylesheet.empty Hvalid')
    as (sheet & Hall & Hkeys & Hin & Hnd).
  assert (∀ tag i, i ∈ nid <$> Stylesheet.get sheet tag ↔ tagged rules tag i) as Htag.
  { intros tag i. rewrite Hkeys, get_empty_sheet. simpl. rewrite elem_of_nil.
    unfold tagged. split.
    - intros [[]|(p & Hp & ?)]. exists p. by rewrite <- Hperm.
    - intros (p & Hp & ?). right. exists p. by rewrite Hperm. }
  exists sheet. split; [done|]. split_and!; [done| | |..].
  - intros i. split.
    + intros Hi. apply list_elem_of_fmap in Hi as (n & -> & Hn).
      apply list_elem_of_fmap in Hn as ([sort n'] & -> & Hp).
      exists (RuleOffset.layer sort). split.
      * eapply Forall_forall in Hvalid; [|done]. done.
      * apply Htag. by exists (sort, n').
    + intros (tag & _ & Hi). apply Htag in Hi as (p & Hp & _ & <-).
      apply list_elem_of_fmap_2. by apply list_elem_of_fmap_2.
  - intros tag n Hn. apply Hin in Hn as [Hn|(s & Hs & Hst)].
    + rewrite get_empty_sheet in Hn. by apply elem_of_nil in Hn.
    + exists s. by rewrite <- Hperm.
  - intros tag. apply Hnd. rewrite get_empty_sheet. apply NoDup_nil_2.
  - intros Hfun tag1 tag2 i H1 H2.
    apply Htag in H1 as (p & Hp & <- & Hpi). apply Htag in H2 as (q & Hq & <- & Hqi).
    apply Hfun; [done|done|congruence].
Qed.

(** A tag that names none of the five sets makes [buildStylesheet] throw. *)
Lemma buildStylesheet_throws rules :
  offsets_sort E rules ≡ₚ rules →
  Exists (λ p, RuleOffset.layer p.1 ∉ Stylesheet.keys) rules →
  buildStylesheet E rules = None.
Proof.
  intros Hperm Hex. rewrite <- Hperm in Hex. unfold buildStylesheet.
  clear Hperm. generalize Stylesheet.empty.
  induction Hex as [[s n] l Hbad|[s n] l _ IH]; intros rv.
  - cbn [bucket_all]. by rewrite bucket_invalid.
  - cbn [bucket_all]. destruct (bucket rv (s, n)); [apply IH|done].
Qed.
End Partition.

Lemma C2_layer_partition_witness :
  offsets_sort Demo.E sample_rules ≡ₚ sample_rules
  ∧ Forall (λ p, RuleOffset.layer p.1 ∈ Stylesheet.keys) sample_rules
  ∧ ∃ sheet, buildStylesheet Demo.E sample_rules = Some sheet
      ∧ ∀ tag, NoDup (nid <$> Stylesheet.get sheet tag).
Proof.
  assert (offsets_sort Demo.E sample_rules ≡ₚ sample_rules) as Hperm
    by apply merge_sort_Permutation.
  assert (Forall (λ p, RuleOffset.layer p.1 ∈ Stylesheet.keys) sample_rules) as Hvalid.
  { unfold sample_rules, Stylesheet.keys. repeat constructor; simpl; set_solver. }
  split; [exact Hperm|]. split; [exact Hvalid|].
  destruct (C2_layer_partition Demo.E sample_rules Hperm Hvalid)
    as (sheet & Hb & _ & _ & _ & Hnd & _).
  exists sheet. split; [exact Hb|exact Hnd].
Defined.

(** C2, as stated, fails: a rule entered under two layer tags is placed in
    two layer sets. *)
Lemma C2_rule_in_two_layers_counterexample :
  let rule := Demo.generated 10 None in
  let rules := [(Demo.offset "base" 0, rule); (Demo.offset "utilities" 1, rule)] in
  Forall (λ p, RuleOffset.layer p.1 ∈ Stylesheet.keys) rules
  ∧ buildStylesheet Demo.E rules = Some (Stylesheet.mk [rule] [] [] [rule] [])
  ∧ ¬ (∀ sheet, buildStylesheet Demo.E rules = Some sheet →
         ∀ n, n ∈ Stylesheet.base sheet → n ∉ Stylesheet.utilities sheet).
Proof.
  intros rule rules.
  assert (buildStylesheet Demo.E rules = Some (Stylesheet.mk [rule] [] [] [rule] []))
    as Hb by (vm_compute; reflexivity).
  split_and!; [|exact Hb|].
  - unfold rules, Stylesheet.keys. repeat constructor; simpl; set_solver.
  - intros Hdisj. apply (Hdisj _ Hb rule); simpl; by left.
Qed.

(** ** The scan router *)

Section Router.
Context (E : externals).

Lemma getExtractor_marker cfg ext fresh fresh' :
  DEFAULT_EXTRACTOR (getExtractor cfg ext fresh).1
  = DEFAULT_EXTRACTOR (getExtractor cfg ext fresh').1.
Proof. unfold getExtractor. by destruct (or_else _ _). Qed.

Lemma routes_fast_spec cfg it :
  routes_fast E cfg it = true ↔
  flagEnabled E cfg "oxideParser" = true
  ∧ getTransformer cfg (extension it) = BuiltInDefault
  ∧ ∀ fresh, DEFAULT_EXTRACTOR (getExtractor cfg (extension it) fresh).1 = true.
Proof.
  unfold routes_fast, uses_oxide.
  rewrite !andb_true_iff, bool_decide_eq_true. split.
  - intros [[Hf Ht] He]. split_and!; [done..|].
    intros fresh. by rewrite (getExtractor_marker _ _ fresh 0).
  - intros (Hf & Ht & He). by rewrite Hf, Ht, He.
Qed.

Lemma route_step_spec cfg acc it :
  let acc' := route_step E cfg acc it in
  let m := {| meta_transformer := getTransformer cfg (extension it);
              meta_extractor := (getExtractor cfg (extension it) (route_fresh acc)).1 |} in
  (routes_fast E cfg it = true →
     rustParserContent acc' = rustParserContent acc ++ [it]
     ∧ regexParserContent acc' = regexParserContent acc)
  ∧ (routes_fast E cfg it = false →
     rustParserContent acc' = rustParserContent acc
     ∧ regexParserContent acc' = regexParserContent acc ++ [(it, m)]).
Proof.
  unfold route_step, routes_fast, uses_oxide.
  rewrite (getExtractor_marker cfg (extension it) 0 (route_fresh acc)).
  destruct (getExtractor cfg (extension it) (route_fresh acc)) as [e k]. simpl.
  destruct (_ && _ && _); simpl; split; intros; try done.
Qed.

Lemma foldl_route_spec cfg items : ∀ acc,
  let routed := foldl (route_step E cfg) acc items in
  rustParserContent routed
  = rustParserContent acc ++ filter (λ it, routes_fast E cfg it = true) items
  ∧ (regexParserContent routed).*1
    = (regexParserContent acc).*1 ++ filter (λ it, routes_fast E cfg it = false) items
  ∧ (Forall (λ en, meta_transformer en.2 = getTransformer cfg (extension en.1)
                   ∧ ∃ fresh, meta_extractor en.2
                              = (getExtractor cfg (extension en.1) fresh).1)
       (regexParserContent acc) →
     Forall (λ en, meta_transformer en.2 = getTransformer cfg (extension en.1)
                   ∧ ∃ fresh, meta_extractor en.2
                              = (getExtractor cfg (extension en.1) fresh).1)
       (regexParserContent routed)).
Proof.
  induction items as [|it items IH]; intros acc; simpl.
  - rewrite !app_nil_r. by split_and!.
  - destruct (IH (route_step E cfg acc it)) as (Hr & Hx & Hm).
    destruct (route_step_spec cfg acc it) as [Hfast Hslow].
    rewrite Hr, Hx, !filter_cons.
    destruct (routes_fast E cfg it) eqn:Hrf.
    + destruct Hfast as [-> ->]; [done|].
      rewrite decide_True, decide_False by done. rewrite <- app_assoc.
      split_and!; [done..|]. intros Hacc. apply Hm.
      destruct (route_step_spec cfg acc it) as [[_ ->] _]; done.
    + destruct Hslow as [-> ->]; [done|].
      rewrite decide_False, decide_True by done.
      rewrite fmap_app, <- app_assoc. split_and!; [done..|].
      intros Hacc. apply Hm.
      destruct (route_step_spec cfg acc it) as [_ [_ ->]]; [done|].
      apply Forall_app. split; [done|]. apply Forall_singleton. simpl. eauto.
Qed.

(** C3. An item goes to the native queue exactly when the [oxideParser]
    flag is on, its transformer is the built-in default one and its
    extractor carries the default-extractor mark; every other item goes
    to the regex queue, with the transformer and the extractor that were
    resolved for it. Both queues keep the order of the pending items. *)
Theorem C3_scan_routing ctx ms :
  let cfg := tailwindConfig ctx in
  let routed := (scan E ctx ms).2 in
  (∀ it, routes_fast E cfg it = true ↔
         flagEnabled E cfg "oxideParser" = true
         ∧ getTransformer cfg (extension it) = BuiltInDefault
         ∧ ∀ fresh, DEFAULT_EXTRACTOR (getExtractor cfg (extension it) fresh).1 = true)
  ∧ rustParserContent routed
    = filter (λ it, routes_fast E cfg it = true) (changedContent ctx)
  ∧ (regexParserContent routed).*1
    = filter (λ it, routes_fast E cfg it = false) (changedContent ctx)
  ∧ (∀ it, it ∈ changedContent ctx →
       (it ∈ rustParserContent routed ↔ routes_fast E cfg it = true)
       ∧ (it ∈ (regexParserContent routed).*1 ↔ routes_fast E cfg it ≠ true))
  ∧ Forall (λ en, meta_transformer en.2 = getTransformer cfg (extension en.1)
                  ∧ ∃ fresh, meta_extractor en.2
                             = (getExtractor cfg (extension en.1) fresh).1)
      (regexParserContent routed).
Proof.
  intros cfg routed. unfold routed, scan, route. cbn [snd].
  fold cfg.
  destruct (foldl_route_spec cfg (changedContent ctx)
              {| rustParserContent := []; regexParserContent := [];
                 route_fresh := module_fresh ms |}) as (Hr & Hx & Hm).
  cbn [rustParserContent regexParserContent] in Hr, Hx, Hm. simpl in Hr, Hx.
  split_and!.
  - apply routes_fast_spec.
  - exact Hr.
  - exact Hx.
  - intros it Hin. rewrite Hr, Hx, !list_elem_of_filter.
    split; [tauto|]. rewrite not_true_iff_false. tauto.
  - apply Hm. constructor.
Qed.

(** The transformer of [svelte] files is not the default one: without any
    configuration such a file goes to the regex queue, flag or no flag. *)
Lemma svelte_routes_to_regex cfg it :
  extension it = "svelte" →
  content_transform cfg !! "svelte" = None →
  content_transform cfg !! "DEFAULT" = None →
  routes_fast E cfg it = false.
Proof.
  intros Hext Hs Hd. unfold routes_fast, uses_oxide, getTransformer.
  rewrite Hext, Hs, Hd. simpl. by rewrite andb_false_r.
Qed.

(** A configured extractor without the mark sends its files to the regex
    queue. *)
Lemma custom_extractor_routes_to_regex cfg it fn :
  content_extract cfg !! extension it = Some (ConfiguredExtractor fn false) →
  routes_fast E cfg it = false.
Proof.
  intros He. unfold routes_fast, uses_oxide, getExtractor.
  rewrite He. simpl. by rewrite andb_false_r.
Qed.

Lemma flag_off_routes_to_regex cfg it :
  flagEnabled E cfg "oxideParser" = false → routes_fast E cfg it = false.
Proof. intros Hf. unfold routes_fast, uses_oxide. by rewrite Hf. Qed.
End Router.

(** ** The rebuild of the stylesheet *)

Section Rebuild.
Context (E : externals).

Lemma elem_of_filter_nil {A} (P : A → Prop) `{∀ x, Decision (P x)} (l : list A) x :
  filter P l = [] → x ∈ l → ¬ P x.
Proof.
  intros Hf Hx HP.
  assert (x ∈ filter P l) as Hin by (by apply list_elem_of_filter).
  rewrite Hf in Hin. by apply elem_of_nil in Hin.
Qed.

Lemma pass_trace_rebuilds ctx ms r :
  LayerNodes.all_null (discover r) = false →
  let out := expandTailwindAtRules E ctx ms r in
  ∀ rules, CallOffsetsSort rules ∈ out_trace out ↔
           CallOffsetsSort rules
           ∈ (assemble E (pass_generated E ctx ms) (size (classCache ctx))).2.
Proof.
  intros Hn out rules. subst out.
  assert (∃ tail, out_trace (expandTailwindAtRules E ctx ms r)
            = scan_trace (scan E ctx ms).1
              ++ [CallGenerateRules (pass_sorted E ctx ms)]
              ++ (assemble E (pass_generated E ctx ms) (size (classCache ctx))).2
              ++ tail
            ∧ filter (λ ev, is_rebuild ev = true) tail = []) as (tail & Htr & Htail).
  { destruct (pass_sheet E ctx ms) as [sheet|] eqn:Hs.
    - destruct (expand_built E ctx ms r sheet Hn Hs) as (_ & _ & _ & _ & _ & Htr).
      eexists. rewrite Htr. rewrite <- !app_assoc. split; [done|].
      destruct (bool_decide _); [|done]. unfold diagnose. by destruct (_ && _).
    - destruct (expand_threw_build E ctx ms r Hn Hs) as (_ & _ & _ & Htr).
      exists []. by rewrite app_nil_r. }
  rewrite Htr, !elem_of_app. split; [|tauto].
  intros [Hin|[Hin|[Hin|Hin]]]; [| |done|].
  - by destruct (elem_of_filter_nil _ _ _ (scan_trace_no_rebuild E ctx ms) Hin).
  - apply list_elem_of_singleton in Hin. done.
  - by destruct (elem_of_filter_nil _ _ _ Htail Hin).
Qed.

Lemma pass_caches ctx ms r :
  LayerNodes.all_null (discover r) = false →
  classCache (out_context (expandTailwindAtRules E ctx ms r))
  = classCache (pass_generated E ctx ms)
  ∧ ruleCache (out_context (expandTailwindAtRules E ctx ms r))
    = ruleCache (pass_generated E ctx ms).
Proof.
  intros Hn. destruct (pass_sheet E ctx ms) as [sheet|] eqn:Hs.
  - destruct (expand_built E ctx ms r sheet Hn Hs) as (_ & _ & _ & -> & -> & _).
    done.
  - by destruct (expand_threw_build E ctx ms r Hn Hs) as (_ & _ & -> & _).
Qed.

(** The Class Cache never shrinks. *)
Lemma remember_size made : ∀ m, (size m ≤ size (foldl remember m made))%nat.
Proof.
  induction made as [|entry made IH]; intros m; simpl; [done|].
  etrans; [|apply IH]. unfold remember.
  destruct (m !! entry.1) eqn:Hm; [done|].
  rewrite map_size_insert_None by done. lia.
Qed.

Lemma pass_generated_size ctx ms :
  (size (classCache ctx) ≤ size (classCache (pass_generated E ctx ms)))%nat.
Proof. unfold pass_generated. cbn [with_caches classCache fst]. apply remember_size. Qed.

End Rebuild.



(** ** The order of the candidates *)

Module JsStringFacts.
Import JsString.

Lemma code_inj c d : code c = code d → c = d.
Proof.
  unfold code. intros Hcd.
  rewrite <- (ascii_nat_embedding c), <- (ascii_nat_embedding d). by rewrite Hcd.
Qed.

Ltac compare_codes :=
  repeat match goal with
  | |- context [Nat.ltb ?x ?y] => destruct (Nat.ltb_spec x y)
  | |- context [Nat.eqb ?x ?y] => destruct (Nat.eqb_spec x y)
  | H : context [Nat.ltb ?x ?y] |- _ => destruct (Nat.ltb_spec x y)
  | H : context [Nat.eqb ?x ?y] |- _ => destruct (Nat.eqb_spec x y)
  end.

Lemma lt_irrefl a : lt a a = false.
Proof. induction a as [|c a IH]; simpl; [done|]. compare_codes; [lia|done|done]. Qed.

Lemma lt_trans a : ∀ b c, lt a b = true → lt b c = true → lt a c = true.
Proof.
  induction a as [|x a IH]; intros [|y b] [|z c]; simpl; try done.
  intros Hab Hbc. compare_codes; try done; try lia.
  by apply (IH b).
Qed.

Lemma lt_total a : ∀ z, a ≠ z → lt a z = true ∨ lt z a = true.
Proof.
  induction a as [|x a IH]; intros [|y z] Hne; simpl; try done; auto.
  compare_codes; auto; try lia.
  apply IH. intros ->. apply Hne. f_equal. by apply code_inj.
Qed.

Lemma lt_asym a z : lt a z = true → lt z a = true → False.
Proof.
  intros H1 H2. pose proof (lt_trans _ _ _ H1 H2) as H3.
  by rewrite lt_irrefl in H3.
Qed.
End JsStringFacts.

Section CandidateOrder.

Lemma candidate_le_spec a z : candidate_le a z ↔ a = z ∨ JsString.lt a z = true.
Proof.
  unfold candidate_le, compare_candidates.
  destruct (String.eqb_spec a z) as [->|Hne].
  - split; [by left|lia].
  - destruct (JsString.lt a z); split; try lia; auto.
    by intros [?|?].
Qed.

#[local] Instance candidate_le_total : Total candidate_le.
Proof.
  intros a z. rewrite !candidate_le_spec.
  destruct (decide (a = z)) as [->|Hne]; [by left; left|].
  destruct (JsStringFacts.lt_total a z Hne); [left|right]; by right.
Qed.

#[local] Instance candidate_le_trans : Transitive candidate_le.
Proof.
  intros a b c. rewrite !candidate_le_spec.
  intros [->|Hab] [->|Hbc]; auto.
  right. by apply (JsStringFacts.lt_trans a b c).
Qed.

#[local] Instance candidate_le_antisymm : AntiSymm (=) candidate_le.
Proof.
  intros a z Haz Hza.
  apply candidate_le_spec in Haz as [->|Haz]; [done|].
  apply candidate_le_spec in Hza as [->|Hza]; [done|].
  by destruct (JsStringFacts.lt_asym a z).
Qed.


Lemma ascending_NoDup l : StronglySorted candidate_lt l → NoDup l.
Proof.
  induction 1 as [|x l _ IH Hx]; constructor; [|done].
  intros Hin. rewrite Forall_forall in Hx. specialize (Hx x Hin).
  unfold candidate_lt in Hx. by rewrite JsStringFacts.lt_irrefl in Hx.
Qed.

(** A strictly ascending sequence is determined by its elements. *)
Lemma ascending_unique l1 l2 :
  StronglySorted candidate_lt l1 → StronglySorted candidate_lt l2 →
  (∀ c, c ∈ l1 ↔ c ∈ l2) → l1 = l2.
Proof.
  intros H1 H2 Heq. apply (StronglySorted_unique_strong candidate_lt); [|done..|].
  - intros x1 x2 _ _ Ha Hb. by destruct (JsStringFacts.lt_asym x1 x2).
  - apply NoDup_Permutation; [by apply ascending_NoDup..|done].
Qed.

(** Building a set from a sorted array drops the repetitions and keeps
    the order. *)
Lemma add_all_ascending xs : ∀ s,
  StronglySorted candidate_lt s →
  StronglySorted candidate_le xs →
  (∀ a x, a ∈ s → x ∈ xs → candidate_le a x) →
  StronglySorted candidate_lt (str_add_all s xs).
Proof.
  unfold JsSet.add_all.
  induction xs as [|x xs IH]; intros s Hs Hxs Hsx; simpl; [done|].
  apply StronglySorted_cons in Hxs as [Hx Hxs]. rewrite Forall_forall in Hx.
  apply IH; [|done|].
  - unfold JsSet.add. destruct (str_has x s) eqn:Hh; [done|].
    apply StronglySorted_app. split_and!; [|done|repeat constructor].
    intros a x' Ha Hx'. apply list_elem_of_singleton in Hx'. subst x'.
    assert (a ≠ x) as Hne.
    { intros ->. apply not_true_iff_false in Hh. apply Hh.
      apply JsSetFacts.has_spec. by rewrite list_fmap_id. }
    destruct (proj1 (candidate_le_spec a x)) as [?|?]; [|done|done].
    apply Hsx; [done|by left].
  - intros a x' Ha Hx'. apply JsSetFacts.str_elem_of_add in Ha as [Ha| ->].
    + apply Hsx; [done|by right].
    + by apply Hx.
Qed.

Lemma sortedCandidates_ascending l : StronglySorted candidate_lt (sortedCandidates l).
Proof.
  unfold sortedCandidates, JsSet.of_list.
  apply add_all_ascending; [constructor| |].
  - apply StronglySorted_merge_sort; apply _.
  - intros a x Ha. by apply elem_of_nil in Ha.
Qed.

Lemma elem_of_sortedCandidates l c : c ∈ sortedCandidates l ↔ c ∈ l.
Proof.
  unfold sortedCandidates.
  by rewrite JsSetFacts.str_elem_of_of_list, merge_sort_Permutation.
Qed.

(** The sequence depends on the elements of the set only. *)
Lemma sortedCandidates_set l1 l2 :
  (∀ c, c ∈ l1 ↔ c ∈ l2) → sortedCandidates l1 = sortedCandidates l2.
Proof.
  intros Heq. apply ascending_unique; [apply sortedCandidates_ascending..|].
  intros c. by rewrite !elem_of_sortedCandidates.
Qed.

Lemma sortedCandidates_singleton c : sortedCandidates [c] = [c].
Proof. reflexivity. Qed.

End CandidateOrder.

(** ** The candidate collector *)

Lemma foldl_related {A B} (R : A → A → Prop) (f : A → B → A) (l : list B) :
  (∀ a a' b, R a a' → R (f a b) (f a' b)) →
  ∀ a a', R a a' → R (foldl f a l) (foldl f a' l).
Proof.
  intros Hf. induction l as [|b l IH]; intros a a' Ha; simpl; [done|].
  by apply IH, Hf.
Qed.

Section Collector.
Context (E : externals) (found : list string).

(** Two scans that differ in the candidates they started from, [found]
    being the difference, stay that way: the candidate set has no part
    in what a scan does. *)
Local Abbreviation sim st st' :=
  (extractorCache st = extractorCache st'
   ∧ scan_seen st = scan_seen st'
   ∧ ∀ c, c ∈ scan_candidates st ↔ c ∈ found ∨ c ∈ scan_candidates st').

Lemma sim_log ev st st' : sim st st' → sim (log ev st) (log ev st').
Proof. by intros (? & ? & ?). Qed.

Lemma sim_line e raw st st' :
  sim st st' →
  sim (getClassCandidates_line E e st raw) (getClassCandidates_line E e st' raw).
Proof.
  intros (Hec & Hseen & Hc). unfold getClassCandidates_line.
  rewrite Hec, Hseen. destruct (str_has _ _); [done|].
  destruct (LRU.has _ _).
  - destruct (LRU.get _ _) as [hit lru']. simpl. split_and!; [done..|].
    intros c. rewrite !JsSetFacts.str_elem_of_add_all, Hc. tauto.
  - simpl. split_and!; [done..|].
    intros c. rewrite !JsSetFacts.str_elem_of_add_all, Hc. tauto.
Qed.

Lemma sim_getClassCandidates text e st st' :
  sim st st' →
  sim (getClassCandidates E text e st) (getClassCandidates E text e st').
Proof.
  intros (Hec & Hseen & Hc). unfold getClassCandidates.
  apply (foldl_related (λ st st', sim st st')).
  - intros. by apply sim_line.
  - simpl. by rewrite Hec.
Qed.

Lemma sim_scan_text text m st st' :
  sim st st' → sim (scan_text E text m st) (scan_text E text m st').
Proof. intros H. unfold scan_text. by apply sim_getClassCandidates, sim_log. Qed.

Lemma sim_scan_batch batch st st' :
  sim st st' → sim (scan_batch E st batch) (scan_batch E st' batch).
Proof.
  intros H. unfold scan_batch.
  apply (foldl_related (λ st st', sim st st')).
  - intros a a' b Ha. unfold batch_resume.
    destruct (reads_file b.1); [by apply sim_scan_text|done].
  - apply (foldl_related (λ st st', sim st st')); [|done].
    intros a a' b Ha. unfold batch_start.
    destruct (reads_file b.1); [by apply sim_log|by apply sim_scan_text].
Qed.

Lemma sim_scan_regex regex st st' :
  sim st st' → sim (scan_regex E regex st) (scan_regex E regex st').
Proof.
  intros H. unfold scan_regex.
  apply (foldl_related (λ st st', sim st st')); [|done].
  intros. by apply sim_scan_batch.
Qed.
End Collector.

Section Collected.
Context (E : externals).

Lemma elem_of_initial_candidates ctx c :
  c ∈ initial_candidates E ctx ↔ c ∈ default [] (candidates ctx) ∨ c = NOT_ON_DEMAND E.
Proof.
  unfold initial_candidates.
  by rewrite JsSetFacts.str_elem_of_of_list, elem_of_app, list_elem_of_singleton.
Qed.

Lemma scan_rust_spec rust st :
  let st' := scan_rust E rust st in
  extractorCache st' = extractorCache st
  ∧ scan_seen st' = scan_seen st
  ∧ ∀ c, c ∈ scan_candidates st' ↔
         c ∈ scan_candidates st ∨ c ∈ discovered_by_rust E rust.
Proof.
  unfold scan_rust, discovered_by_rust. destruct rust as [|it rust]; simpl.
  - split_and!; [done..|]. intros c. rewrite elem_of_nil. tauto.
  - split_and!; [done..|]. intros c. by rewrite JsSetFacts.str_elem_of_add_all.
Qed.

(** The candidates of a pass: those of the context, the sentinel, and
    what the two scan paths find. *)
Lemma elem_of_collected ctx ms c :
  let routed := (scan E ctx ms).2 in
  c ∈ scan_candidates (scan E ctx ms).1 ↔
  c ∈ default [] (candidates ctx)
  ∨ c = NOT_ON_DEMAND E
  ∨ c ∈ discovered_by_rust E (rustParserContent routed)
  ∨ c ∈ discovered_by_regex E (module_extractorCache ms) (regexParserContent routed).
Proof.
  unfold scan. cbn [fst snd]. unfold discovered_by_regex.
  set (routed := route E (tailwindConfig ctx) (changedContent ctx) (module_fresh ms)).
  set (st0 := {| extractorCache := module_extractorCache ms;
                 scan_candidates := initial_candidates E ctx;
                 scan_seen := []; scan_trace := [] |}).
  destruct (scan_rust_spec (rustParserContent routed) st0) as (Hec & Hseen & Hc).
  destruct (sim_scan_regex E (scan_candidates (scan_rust E (rustParserContent routed) st0))
              (regexParserContent routed)
              (scan_rust E (rustParserContent routed) st0)
              {| extractorCache := module_extractorCache ms; scan_candidates := [];
                 scan_seen := []; scan_trace := [] |}) as (_ & _ & Hsim).
  { split_and!; [done..|]. intros c'. simpl. rewrite elem_of_nil. tauto. }
  rewrite Hsim, Hc. simpl. rewrite elem_of_initial_candidates. tauto.
Qed.

Lemma scan_without_content ctx ms :
  changedContent ctx = [] →
  scan_candidates (scan E ctx ms).1 = initial_candidates E ctx
  ∧ scan_trace (scan E ctx ms).1 = [].
Proof. intros Hc. unfold scan. rewrite Hc. done. Qed.

Lemma pass_generates ctx ms r :
  LayerNodes.all_null (discover r) = false →
  ∀ cs, CallGenerateRules cs ∈ out_trace (expandTailwindAtRules E ctx ms r)
        ↔ cs = pass_sorted E ctx ms.
Proof.
  intros Hn cs.
  assert (∃ tail, out_trace (expandTailwindAtRules E ctx ms r)
            = scan_trace (scan E ctx ms).1
              ++ [CallGenerateRules (pass_sorted E ctx ms)] ++ tail
            ∧ Forall (λ ev, ∀ l, ev ≠ CallGenerateRules l) tail) as (tail & -> & Htail).
  { assert (Forall (λ ev, ∀ l, ev ≠ CallGenerateRules l)
              (assemble E (pass_generated E ctx ms) (size (classCache ctx))).2) as Ha.
    { unfold assemble. destruct (must_rebuild _ _); simpl; repeat constructor; done. }
    destruct (pass_sheet E ctx ms) as [sheet|] eqn:Hs.
    - destruct (expand_built E ctx ms r sheet Hn Hs) as (_ & _ & _ & _ & _ & Htr).
      eexists. rewrite Htr. rewrite <- !app_assoc. split; [done|].
      apply Forall_app. split; [done|].
      destruct (bool_decide _); [|constructor]. unfold diagnose.
      destruct (_ && _); repeat constructor; done.
    - destruct (expand_threw_build E ctx ms r Hn Hs) as (_ & _ & _ & Htr).
      eexists. rewrite Htr. split; [done|]. done. }
  rewrite !elem_of_app, list_elem_of_singleton. split.
  - intros [Hin|[[= ->]|Hin]]; [|done|].
    + pose proof (scan_ok E (λ ev, ∀ l, ev ≠ CallGenerateRules l)
                    ltac:(by intros []) ctx ms) as Hsc.
      rewrite Forall_forall in Hsc. by destruct (Hsc _ Hin cs).
    + rewrite Forall_forall in Htail. by destruct (Htail _ Hin cs).
  - intros ->. right. by left.
Qed.

End Collected.


(** ** The line cache *)

Module LRUFacts.

Lemma has_peek key c : LRU.has key c = true ↔ is_Some (LRU.peek key c).
Proof.
  unfold LRU.has, LRU.peek. rewrite orb_true_iff, !bool_decide_eq_true.
  destruct (LRU.cache c !! key) as [v|].
  - split; [eauto|left; eauto].
  - split; [|by right]. intros [[? [=]]|?]. done.
Qed.

Lemma has_false_peek key c : LRU.has key c = false ↔ LRU.peek key c = None.
Proof.
  rewrite <- not_true_iff_false, has_peek, <- eq_None_not_Some. done.
Qed.

Lemma peek__set key value c : LRU.peek key (LRU._set key value c) = Some value.
Proof.
  unfold LRU._set, LRU.peek. destruct (N.leb _ _); simpl.
  - by rewrite lookup_empty, lookup_insert_eq.
  - by rewrite lookup_insert_eq.
Qed.

Lemma get_peek key c : (LRU.get key c).1 = LRU.peek key c.
Proof.
  unfold LRU.get, LRU.peek. destruct (LRU.cache c !! key); [done|].
  by destruct (LRU.oldCache c !! key).
Qed.

(** A hit leaves the entry readable. *)
Lemma peek_get key c : LRU.peek key (LRU.get key c).2 = LRU.peek key c.
Proof.
  unfold LRU.get. destruct (LRU.cache c !! key) as [v|] eqn:Hc; [done|].
  destruct (LRU.oldCache c !! key) as [v|] eqn:Ho; [|done].
  cbn [snd]. rewrite peek__set. unfold LRU.peek. by rewrite Hc, Ho.
Qed.

Lemma peek_set key value c : LRU.peek key (LRU.set key value c) = Some value.
Proof.
  unfold LRU.set. destruct (LRU.cache c !! key) as [v|] eqn:Hc.
  - unfold LRU.peek. simpl. by rewrite lookup_insert_eq.
  - apply peek__set.
Qed.
End LRUFacts.

(** ** Memoized extraction *)

Section Extraction.
Context (E : externals).

Lemma cache_of_insert ec e lru : cache_of (<[e := lru]> ec) e = lru.
Proof. unfold cache_of. by rewrite lookup_insert_eq. Qed.

Lemma str_has_spec line (seen : list string) : str_has line seen = true ↔ line ∈ seen.
Proof. rewrite JsSetFacts.has_spec. by rewrite list_fmap_id. Qed.

Lemma str_add_fresh (seen : list string) line :
  line ∉ seen → str_add seen line = seen ++ [line].
Proof.
  intros Hl. unfold JsSet.add.
  destruct (str_has line seen) eqn:Hh; [|done]. by apply str_has_spec in Hh.
Qed.

(** What one line does to the state of the scan. *)
Lemma getClassCandidates_line_spec e st raw :
  let line := JsString.trim raw in
  let lru := cache_of (extractorCache st) e in
  let st' := getClassCandidates_line E e st raw in
  (line ∈ scan_seen st → st' = st)
  ∧ (line ∉ scan_seen st →
     scan_seen st' = scan_seen st ++ [line]
     ∧ ∃ tokens,
         LRU.peek line (cache_of (extractorCache st') e) = Some tokens
         ∧ (∀ c, c ∈ scan_candidates st' ↔ c ∈ scan_candidates st ∨ c ∈ tokens)
         ∧ match LRU.peek line lru with
           | Some cached => tokens = cached ∧ scan_trace st' = scan_trace st
           | None =>
               tokens = str_of_list (filter (λ s, s ≠ "!*") (run_extractor E e line))
               ∧ scan_trace st' = scan_trace st ++ [CallExtractor e line]
           end).
Proof.
  intros line lru st'. unfold st', getClassCandidates_line. fold line lru.
  split.
  - intros Hseen. apply str_has_spec in Hseen. by rewrite Hseen.
  - intros Hnew.
    assert (str_has line (scan_seen st) = false) as ->
      by (by rewrite <- not_true_iff_false, str_has_spec).
    destruct (LRU.has line lru) eqn:Hhas.
    + apply LRUFacts.has_peek in Hhas as [cached Hcached].
      pose proof (LRUFacts.get_peek line lru) as Hget.
      pose proof (LRUFacts.peek_get line lru) as Hstay.
      destruct (LRU.get line lru) as [hit lru']. cbn [fst snd] in Hget, Hstay.
      cbn [scan_seen scan_candidates scan_trace extractorCache].
      split; [by apply str_add_fresh|].
      exists cached. rewrite cache_of_insert, Hstay, Hcached.
      split_and!; [done| |done..].
      intros c. rewrite JsSetFacts.str_elem_of_add_all, Hget, Hcached. done.
    + apply LRUFacts.has_false_peek in Hhas.
      cbn [scan_seen scan_candidates scan_trace extractorCache].
      split; [by apply str_add_fresh|].
      eexists. rewrite cache_of_insert, LRUFacts.peek_set, Hhas.
      split_and!; [done| |done..].
      intros c. by rewrite JsSetFacts.str_elem_of_add_all.
Qed.

Lemma extracted_lines_app t1 t2 :
  extracted_lines (t1 ++ t2) = extracted_lines t1 ++ extracted_lines t2.
Proof. unfold extracted_lines. apply flat_map_app. Qed.

(** Every line that was extracted is in [seen], and none was extracted
    twice. *)
Local Abbreviation once st :=
  (NoDup (extracted_lines (scan_trace st))
   ∧ ∀ line, line ∈ extracted_lines (scan_trace st) → line ∈ scan_seen st).

Lemma once_log ev st :
  (∀ e line, ev ≠ CallExtractor e line) → once st → once (log ev st).
Proof.
  intros Hev [Hnd Hin]. simpl. rewrite extracted_lines_app.
  assert (extracted_lines [ev] = []) as ->.
  { destruct ev; try done. by destruct (Hev e line). }
  by rewrite app_nil_r.
Qed.

Lemma once_line e raw st : once st → once (getClassCandidates_line E e st raw).
Proof.
  intros [Hnd Hin].
  destruct (getClassCandidates_line_spec e st raw) as [Hseen Hnew].
  destruct (decide (JsString.trim raw ∈ scan_seen st)) as [Hs|Hs].
  - by rewrite (Hseen Hs).
  - destruct (Hnew Hs) as (Hseen' & tokens & _ & _ & Htr).
    rewrite Hseen'.
    destruct (LRU.peek (JsString.trim raw) (cache_of (extractorCache st) e));
      destruct Htr as [_ ->].
    + split; [done|]. intros line Hl. apply elem_of_app. left. by apply Hin.
    + rewrite extracted_lines_app. simpl. split.
      * apply NoDup_app. split_and!; [done| |apply NoDup_singleton].
        intros line Hl ->%list_elem_of_singleton. by apply Hs, Hin.
      * intros line. rewrite !elem_of_app. intros [Hl|Hl]; [left; by apply Hin|by right].
Qed.

Lemma once_getClassCandidates text e st : once st → once (getClassCandidates E text e st).
Proof.
  intros H. unfold getClassCandidates.
  apply (foldl_invariant (λ st, once st)); [|done].
  intros. by apply once_line.
Qed.

Lemma once_scan_text text m st : once st → once (scan_text E text m st).
Proof.
  intros H. unfold scan_text. apply once_getClassCandidates. by apply once_log.
Qed.

Lemma once_scan_batch batch st : once st → once (scan_batch E st batch).
Proof.
  intros H. unfold scan_batch.
  apply (foldl_invariant (λ st, once st)).
  - intros a b Ha. unfold batch_resume.
    destruct (reads_file b.1); [by apply once_scan_text|done].
  - apply (foldl_invariant (λ st, once st)); [|done].
    intros a b Ha. unfold batch_start.
    destruct (reads_file b.1); [by apply once_log|by apply once_scan_text].
Qed.

Lemma once_scan ctx ms : once (scan E ctx ms).1.
Proof.
  unfold scan. cbn [fst]. unfold scan_regex.
  apply (foldl_invariant (λ st, once st)).
  - intros. by apply once_scan_batch.
  - unfold scan_rust. destruct (rustParserContent _); simpl.
    + split; [constructor|]. intros line Hl. by apply elem_of_nil in Hl.
    + split; [constructor|]. intros line Hl. by apply elem_of_nil in Hl.
Qed.

(** [seen] only grows, and holds every line of a text that was scanned. *)
Lemma seen_line_mono e raw st line :
  line ∈ scan_seen st → line ∈ scan_seen (getClassCandidates_line E e st raw).
Proof.
  intros Hl. destruct (getClassCandidates_line_spec e st raw) as [Hseen Hnew].
  destruct (decide (JsString.trim raw ∈ scan_seen st)) as [Hs|Hs].
  - by rewrite (Hseen Hs).
  - destruct (Hnew Hs) as (-> & _). apply elem_of_app. by left.
Qed.

Lemma seen_line_added e raw st :
  JsString.trim raw ∈ scan_seen (getClassCandidates_line E e st raw).
Proof.
  destruct (getClassCandidates_line_spec e st raw) as [Hseen Hnew].
  destruct (decide (JsString.trim raw ∈ scan_seen st)) as [Hs|Hs].
  - by rewrite (Hseen Hs).
  - destruct (Hnew Hs) as (-> & _). apply elem_of_app. right. by left.
Qed.

Lemma seen_foldl_mono e raws : ∀ st line,
  line ∈ scan_seen st →
  line ∈ scan_seen (foldl (getClassCandidates_line E e) st raws).
Proof.
  induction raws as [|raw raws IH]; intros st line Hl; simpl; [done|].
  by apply IH, seen_line_mono.
Qed.

Lemma seen_foldl_added e raws : ∀ st raw,
  raw ∈ raws →
  JsString.trim raw ∈ scan_seen (foldl (getClassCandidates_line E e) st raws).
Proof.
  induction raws as [|x raws IH]; intros st raw Hin; simpl.
  - by apply elem_of_nil in Hin.
  - apply elem_of_cons in Hin as [->|Hin]; [|by apply IH].
    apply seen_foldl_mono, seen_line_added.
Qed.

(** C5, as the code has it. [getClassCandidates] splits the text at the
    line feeds and handles the trimmed lines in turn: a line that is in
    [seen] changes nothing; another line is added to [seen], and its
    tokens are added to the candidates and are in the cache of the
    extractor afterwards, where the tokens are the cached ones on a hit
    and, on a miss, the set of what the extractor returns on the line
    without ["!*"]; the extractor is called on a miss only. The [seen]
    set is made once per pass, empty, and shared by all the calls of the
    pass: a call leaves in it the lines it was given and every line of its
    text, and in one pass no line is handed to an extractor twice,
    whatever the item it comes from. *)
Theorem C5_memoized_extraction ctx ms :
  (∀ text e st,
     getClassCandidates E text e st
     = foldl (getClassCandidates_line E e)
         {| extractorCache := <[e := cache_of (extractorCache st) e]> (extractorCache st);
            scan_candidates := scan_candidates st;
            scan_seen := scan_seen st;
            scan_trace := scan_trace st |}
         (JsString.split_newline text))
  ∧ (∀ e st raw,
       let line := JsString.trim raw in
       let lru := cache_of (extractorCache st) e in
       let st' := getClassCandidates_line E e st raw in
       (line ∈ scan_seen st → st' = st)
       ∧ (line ∉ scan_seen st →
          scan_seen st' = scan_seen st ++ [line]
          ∧ ∃ tokens,
              LRU.peek line (cache_of (extractorCache st') e) = Some tokens
              ∧ (∀ c, c ∈ scan_candidates st' ↔ c ∈ scan_candidates st ∨ c ∈ tokens)
              ∧ match LRU.peek line lru with
                | Some cached => tokens = cached ∧ scan_trace st' = scan_trace st
                | None =>
                    tokens = str_of_list
                               (filter (λ s, s ≠ "!*") (run_extractor E e line))
                    ∧ scan_trace st' = scan_trace st ++ [CallExtractor e line]
                end))
  ∧ (∀ text e st line,
       line ∈ scan_seen st → line ∈ scan_seen (getClassCandidates E text e st))
  ∧ (∀ text e st raw,
       raw ∈ JsString.split_newline text →
       JsString.trim raw ∈ scan_seen (getClassCandidates E text e st))
  ∧ NoDup (extracted_lines (scan_trace (scan E ctx ms).1))
  ∧ (∀ line, line ∈ extracted_lines (scan_trace (scan E ctx ms).1) →
             line ∈ scan_seen (scan E ctx ms).1).
Proof.
  split_and!.
  - done.
  - apply getClassCandidates_line_spec.
  - intros text e st line Hl. unfold getClassCandidates. by apply seen_foldl_mono.
  - intros text e st raw Hin. unfold getClassCandidates. by apply seen_foldl_added.
  - apply once_scan.
  - apply once_scan.
Qed.
End Extraction.

Lemma C5_memoized_extraction_witness :
("p-4" ∉ ([] : list string))
  ∧ scan_trace (getClassCandidates_line Demo.E (ConfiguredExtractor 1 false)
                  {| extractorCache := ∅; scan_candidates := ["*"]; scan_seen := [];
                     scan_trace := [] |} " p-4 ")
    = [CallExtractor (ConfiguredExtractor 1 false) "p-4"].
Proof.
  assert ("p-4" ∉ ([] : list string)) as Hnew by apply not_elem_of_nil.
  split; [exact Hnew|].
  destruct (proj1 (proj2 (C5_memoized_extraction Demo.E sample_two_items_context Demo.fresh_module))
              (ConfiguredExtractor 1 false)
              {| extractorCache := ∅; scan_candidates := ["*"]; scan_seen := [];
                 scan_trace := [] |} " p-4 ") as [_ Hfresh].
  destruct (Hfresh Hnew) as (_ & tokens & _ & _ & Hmiss).
  exact (proj2 Hmiss).
Defined.

(** C5, as stated, fails: [seen] outlives the call. The line [p-4] of the
    second item was seen in the first, so the extractor of the second item
    is never called on it and its token is no candidate. *)
Lemma C5_seen_is_shared_counterexample :
  let st := (scan Demo.E sample_two_items_context Demo.fresh_module).1 in
  scan_trace st
  = [CallTransformer BuiltInDefault "p-4";
     CallExtractor (ConfiguredExtractor 0 false) "p-4";
     CallTransformer BuiltInDefault " p-4 "]
  ∧ scan_candidates st = ["*"; "p-4"]
  ∧ run_extractor Demo.E (ConfiguredExtractor 1 false) "p-4" = ["x-p-4"]
  ∧ ¬ every_item_line_extracted Demo.E sample_two_items_context Demo.fresh_module.
Proof.
  intros st.
  assert (scan_candidates st = ["*"; "p-4"]) as Hc by (vm_compute; reflexivity).
  split_and!; [vm_compute; reflexivity|exact Hc|reflexivity|].
  intros Hall.
  specialize (Hall (Demo.inline " p-4 " "vue")
                {| meta_transformer := BuiltInDefault;
                   meta_extractor := ConfiguredExtractor 1 false |}
                "p-4" "x-p-4").
  fold st in Hall. rewrite Hc in Hall.
  assert ("x-p-4" ∈ ["*"; "p-4"]) as Hin.
  { apply Hall.
    - vm_compute. right. left.
    - reflexivity.
    - vm_compute. left.
    - vm_compute. left.
    - done. }
  apply elem_of_cons in Hin as [Hin|Hin]; [done|].
  apply elem_of_cons in Hin as [Hin|Hin]; [done|].
  by apply elem_of_nil in Hin.
Qed.

(** * More of the pass *)

(** ** When the pass does its work *)

Lemma directive_found r n :
  n ∈ walkAtRules r → is_directive n = true →
  LayerNodes.all_null (discover r) = false.
Proof.
  intros Hn Hd.
  assert (is_Some (LayerNodes.get (discover r) (params n))) as [m Hm].
  { rewrite discover_get_last. unfold directives_named.
    assert (n ∈ filter (λ n0, is_directive n0 = true ∧ params n0 = params n)
                  (walkAtRules r)) as Hin by (by apply list_elem_of_filter).
    destruct (last _) eqn:Hl; [eauto|].
    apply last_None in Hl. rewrite Hl in Hin. by apply elem_of_nil in Hin. }
  destruct (LayerNodes.all_null (discover r)) eqn:Hall; [|done].
  revert Hm. unfold LayerNodes.all_null in Hall. unfold LayerNodes.get.
  destruct (LayerNodes.base _), (LayerNodes.components _),
    (LayerNodes.utilities _), (LayerNodes.variants _); try done.
  by repeat (match goal with |- context [String.eqb ?a ?b] =>
               destruct (String.eqb a b) end).
Qed.

Lemma marker_is_directive r k m :
  LayerNodes.get (discover r) k = Some m →
  m ∈ walkAtRules r ∧ is_directive m = true ∧ params m = k.
Proof.
  rewrite discover_get_last. unfold directives_named. intros Hl.
  assert (m ∈ filter (λ n, is_directive n = true ∧ params n = k) (walkAtRules r))
    as Hin.
  { apply last_Some in Hl as [l' ->]. apply elem_of_app. right. by left. }
  apply list_elem_of_filter in Hin. tauto.
Qed.

Lemma all_null_iff r :
  LayerNodes.all_null (discover r) = true ↔
  ∀ n, n ∈ walkAtRules r → is_directive n = false.
Proof.
  split.
  - intros Hall n Hn. destruct (is_directive n) eqn:Hd; [|done].
    by rewrite (directive_found r n Hn Hd) in Hall.
  - intros Hno. by rewrite (discover_no_directive r Hno).
Qed.

Lemma some_marker ln :
  LayerNodes.all_null ln = false → ∃ k m, LayerNodes.get ln k = Some m.
Proof.
  unfold LayerNodes.all_null. intros Hall.
  destruct (LayerNodes.base ln) as [m|] eqn:Hb; [by exists "base", m; unfold LayerNodes.get; simpl|].
  destruct (LayerNodes.components ln) as [m|] eqn:Hc;
    [by exists "components", m; unfold LayerNodes.get; simpl|].
  destruct (LayerNodes.utilities ln) as [m|] eqn:Hu;
    [by exists "utilities", m; unfold LayerNodes.get; simpl|].
  destruct (LayerNodes.variants ln) as [m|] eqn:Hv;
    [by exists "variants", m; unfold LayerNodes.get; simpl|done].
Qed.

Lemma pass_trace_shape (E : externals) ctx ms r :
  LayerNodes.all_null (discover r) = false →
  ∃ tail, out_trace (expandTailwindAtRules E ctx ms r)
          = scan_trace (scan E ctx ms).1
            ++ CallGenerateRules (pass_sorted E ctx ms) :: tail
          ∧ Forall (λ ev, ∀ cs, ev ≠ CallGenerateRules cs) tail.
Proof.
  intros Hn.
  assert (Forall (λ ev, ∀ l, ev ≠ CallGenerateRules l)
            (assemble E (pass_generated E ctx ms) (size (classCache ctx))).2) as Ha.
  { unfold assemble. destruct (must_rebuild _ _); simpl; repeat constructor; done. }
  destruct (pass_sheet E ctx ms) as [sheet|] eqn:Hs.
  - destruct (expand_built E ctx ms r sheet Hn Hs) as (_ & _ & _ & _ & _ & Htr).
    eexists. rewrite Htr. rewrite <- ?app_assoc. split; [done|].
    apply Forall_app. split; [done|].
    destruct (bool_decide _); [|constructor]. unfold diagnose.
    destruct (_ && _); repeat constructor; done.
  - destruct (expand_threw_build E ctx ms r Hn Hs) as (_ & _ & _ & Htr).
    eexists. rewrite Htr. rewrite <- ?app_assoc. split; [done|]. done.
Qed.

(** X1. The rule generator is called only for a document that holds, at
    any depth, an at-rule [@tailwind] whose parameter is one of the four
    layer names. For such a document the pass does not leave early, and
    when the scan of the pending content returns it calls the generator:
    once, with the sorted candidates, after every call of the scan and
    before anything else. The collaborators of this model always return;
    in the source a read that is rejected, or a transformer, an extractor
    or the native scanner that throws, ends the pass during the scan,
    before the generator. *)
Theorem X1_work_iff_directive (E : externals) ctx ms r :
  let out := expandTailwindAtRules E ctx ms r in
  let directive :=
    ∃ n, n ∈ walkAtRules r ∧ name n = "tailwind" ∧ params n ∈ LayerNodes.keys in
  ((∃ cs, CallGenerateRules cs ∈ out_trace out) → directive)
  ∧ (directive →
     LayerNodes.all_null (discover r) = false
     ∧ ∃ tail,
         out_trace out
         = scan_trace (scan E ctx ms).1
           ++ CallGenerateRules (pass_sorted E ctx ms) :: tail
         ∧ Forall (λ ev, ∀ cs, ev ≠ CallGenerateRules cs) (scan_trace (scan E ctx ms).1)
         ∧ Forall (λ ev, ∀ cs, ev ≠ CallGenerateRules cs) tail).
Proof.
  intros out directive.
  assert (∀ n, is_directive n = true
               ↔ name n = "tailwind" ∧ params n ∈ LayerNodes.keys) as Hdir.
  { intros n. unfold is_directive.
    rewrite andb_true_iff, String.eqb_eq, is_layer_key_spec. done. }
  split.
  - intros (cs & Hcs).
    destruct (LayerNodes.all_null (discover r)) eqn:Hall.
    + unfold out in Hcs. rewrite (expand_early E ctx ms r Hall) in Hcs.
      by apply elem_of_nil in Hcs.
    + destruct (some_marker _ Hall) as (k & m & Hm).
      destruct (marker_is_directive r k m Hm) as (Hin & Hd & _).
      exists m. split; [done|]. by apply Hdir.
  - intros (n & Hn & Hd). apply Hdir in Hd.
    pose proof (directive_found r n Hn Hd) as Hall.
    split; [done|].
    destruct (pass_trace_shape E ctx ms r Hall) as (tail & Htr & Htail).
    exists tail. split; [done|]. split; [|done].
    apply (scan_ok E (λ ev, ∀ l, ev ≠ CallGenerateRules l)). by intros [].
Qed.

(** ** The four ways a pass ends *)

Section Outcome.
Context (E : externals).

Lemma expand_outcome ctx ms r :
  let out := expandTailwindAtRules E ctx ms r in
  let ln := discover r in
  let ms' := {| module_extractorCache := extractorCache (scan E ctx ms).1;
                module_fresh := route_fresh (scan E ctx ms).2 |} in
  (LayerNodes.all_null ln = true
   ∧ out = {| out_completion := Returned; out_root := r; out_context := ctx;
              out_module := ms; out_trace := [] |})
  ∨ (LayerNodes.all_null ln = false ∧ pass_sheet E ctx ms = None
     ∧ out_completion out = Threw ∧ out_root out = r
     ∧ out_context out = pass_generated E ctx ms ∧ out_module out = ms')
  ∨ (∃ sheet, LayerNodes.all_null ln = false ∧ pass_sheet E ctx ms = Some sheet
     ∧ splice E ln sheet r = None
     ∧ out_completion out = Threw ∧ out_root out = splice_markers E ln sheet r
     ∧ out_context out = with_stylesheet (pass_generated E ctx ms) sheet
     ∧ out_module out = ms')
  ∨ (∃ sheet r4, LayerNodes.all_null ln = false ∧ pass_sheet E ctx ms = Some sheet
     ∧ splice E ln sheet r = Some r4
     ∧ out_completion out = Returned ∧ out_root out = cleanup (close_source r4)
     ∧ out_context out
       = clear_changedContent (with_stylesheet (pass_generated E ctx ms) sheet)
     ∧ out_module out = ms').
Proof.
  intros out ln ms'. unfold out, expandTailwindAtRules. fold ln.
  destruct (LayerNodes.all_null ln) eqn:Hn; [by left|]. right.
  cbv zeta. fold (pass_sheet E ctx ms).
  destruct (pass_sheet E ctx ms) as [sheet|] eqn:Hs; [|by left]. right.
  destruct (splice E ln sheet r) as [r4|] eqn:Hsp.
  - right. by exists sheet, r4.
  - left. by exists sheet.
Qed.

(** X2. The pass never writes the configuration or the candidates of the
    context. It empties the pending content items when it returns after
    its work, and only then: a pass that throws leaves them pending, as
    does a pass that leaves early. *)
Theorem X2_context_frame ctx ms r :
  let out := expandTailwindAtRules E ctx ms r in
  tailwindConfig (out_context out) = tailwindConfig ctx
  ∧ candidates (out_context out) = candidates ctx
  ∧ (changedContent (out_context out) = []
     ∨ changedContent (out_context out) = changedContent ctx)
  ∧ (LayerNodes.all_null (discover r) = false → out_completion out = Returned →
     changedContent (out_context out) = [])
  ∧ (LayerNodes.all_null (discover r) = true ∨ out_completion out = Threw →
     changedContent (out_context out) = changedContent ctx).
Proof.
  intros out.
  destruct (expand_outcome ctx ms r)
    as [[Hn Ho]|[(Hn & _ & Hc & _ & Hx & _)|[(sheet & Hn & _ & _ & Hc & _ & Hx & _)
       |(sheet & r4 & Hn & _ & _ & Hc & _ & Hx & _)]]]; fold out in Hc || idtac.
  - fold out in Ho. rewrite Ho. simpl. split_and!; try done; [by right|].
    intros Hf. congruence.
  - fold out in Hx, Hc. rewrite Hx. simpl. split_and!; try done; [by right|].
    intros _ Hr. congruence.
  - fold out in Hx, Hc. rewrite Hx. simpl. split_and!; try done; [by right|].
    intros _ Hr. congruence.
  - fold out in Hx, Hc. rewrite Hx. simpl. split_and!; try done; [by left|].
    intros [Hf|Hf]; congruence.
Qed.

Lemma returned_context ctx ms r :
  LayerNodes.all_null (discover r) = false →
  out_completion (expandTailwindAtRules E ctx ms r) = Returned →
  candidates (out_context (expandTailwindAtRules E ctx ms r)) = candidates ctx
  ∧ changedContent (out_context (expandTailwindAtRules E ctx ms r)) = [].
Proof.
  intros Hn Hr.
  destruct (expand_outcome ctx ms r)
    as [[Hn' _]|[(_ & _ & Hc & _)|[(sheet & _ & _ & _ & Hc & _)
       |(sheet & r4 & _ & _ & _ & _ & _ & Hx & _)]]]; try congruence.
  by rewrite Hx.
Qed.

(** X3. After a pass that did its work and returned, the context has no
    pending content: the next pass, on whatever document and with whatever
    module state, calls no scanner, reader, transformer or extractor, and
    when it reaches the rule generator it hands it the candidates of the
    context and the sentinel only. *)
Theorem X3_next_pass_scans_nothing ctx ms r :
  LayerNodes.all_null (discover r) = false →
  out_completion (expandTailwindAtRules E ctx ms r) = Returned →
  let ctx' := out_context (expandTailwindAtRules E ctx ms r) in
  ∀ ms' r',
    let out' := expandTailwindAtRules E ctx' ms' r' in
    filter (λ ev, is_scan_event ev = true) (out_trace out') = []
    ∧ extractorCache (scan E ctx' ms').1 = module_extractorCache ms'
    ∧ (∀ cs, CallGenerateRules cs ∈ out_trace out' →
             ∀ c, c ∈ cs ↔ c ∈ default [] (candidates ctx) ∨ c = NOT_ON_DEMAND E).
Proof.
  intros Hn Hr ctx' ms' r' out'.
  destruct (returned_context ctx ms r Hn Hr) as [Hcand Hchanged].
  fold ctx' in Hcand, Hchanged.
  destruct (scan_without_content E ctx' ms' Hchanged) as [Hcol Htr].
  split_and!.
  - destruct (LayerNodes.all_null (discover r')) eqn:Hn'.
    + unfold out'. by rewrite (expand_early E ctx' ms' r' Hn').
    + destruct (pass_sheet E ctx' ms') as [sheet|] eqn:Hs.
      * destruct (expand_built E ctx' ms' r' sheet Hn' Hs) as (_ & _ & _ & _ & _ & Ht).
        fold out' in Ht. rewrite Ht, Htr. simpl.
        rewrite filter_cons, decide_False by done. rewrite filter_app.
        assert (filter (λ ev, is_scan_event ev = true)
                  (assemble E (pass_generated E ctx' ms') (size (classCache ctx'))).2
                = []) as -> by (unfold assemble; by destruct (must_rebuild _ _)).
        destruct (bool_decide _); [|done]. unfold diagnose. by destruct (_ && _).
      * destruct (expand_threw_build E ctx' ms' r' Hn' Hs) as (_ & _ & _ & Ht).
        fold out' in Ht. rewrite Ht, Htr. simpl.
        rewrite filter_cons, decide_False by done.
        unfold assemble. by destruct (must_rebuild _ _).
  - unfold scan. rewrite Hchanged. done.
  - intros cs Hcs c.
    destruct (LayerNodes.all_null (discover r')) eqn:Hn'.
    + unfold out' in Hcs. rewrite (expand_early E ctx' ms' r' Hn') in Hcs.
      by apply elem_of_nil in Hcs.
    + apply (pass_generates E ctx' ms' r' Hn') in Hcs. subst cs.
      unfold pass_sorted. rewrite elem_of_sortedCandidates, Hcol.
      rewrite elem_of_initial_candidates. by rewrite Hcand.
Qed.
End Outcome.


(** ** The leftover [@layer] at-rules *)

Lemma prune_in_fields p n :
  nid (prune_in p n) = nid n ∧ type (prune_in p n) = type n
  ∧ name (prune_in p n) = name n ∧ params (prune_in p n) = params n
  ∧ nodes (prune_in p n) = prune_list p (nodes n).
Proof. by destruct n. Qed.

Lemma elem_of_prune_list p l c' :
  c' ∈ prune_list p l ↔ ∃ c, c ∈ l ∧ p c = false ∧ c' = prune_in p c.
Proof.
  unfold prune_list. rewrite list_elem_of_In, in_flat_map. split.
  - intros (c & Hc & Hn). exists c. apply list_elem_of_In in Hc.
    destruct (p c); [done|]. destruct Hn as [<-|[]]. done.
  - intros (c & Hc & Hp & ->). exists c. rewrite Hp.
    split; [by apply list_elem_of_In|by left].
Qed.

Lemma prune_walk (p : node → bool) :
  (∀ c, p (prune_in p c) = p c) →
  ∀ l n, n ∈ walk_list (prune_list p l) → p n = false.
Proof.
  intros Hp.
  assert (∀ c, ∀ n, n ∈ walk (prune_in p c) → p n = false) as Hnode.
  { induction c as [i ty nm ps s rw cs IH] using node_tree_ind.
    intros n Hn.
    change (walk (prune_in p (mkNode i ty nm ps s rw cs)))
      with (walk_list (prune_list p cs)) in Hn.
    apply elem_of_walk_list in Hn as (c' & Hc' & Hn).
    apply elem_of_prune_list in Hc' as (c & Hc & Hpc & ->).
    destruct Hn as [->|Hn]; [by rewrite Hp|].
    rewrite Forall_forall in IH. by apply (IH c Hc). }
  intros l n Hn. apply elem_of_walk_list in Hn as (c' & Hc' & Hn).
  apply elem_of_prune_list in Hc' as (c & Hc & Hpc & ->).
  destruct Hn as [->|Hn]; [by rewrite Hp|by apply (Hnode c)].
Qed.

Lemma is_layer_atrule_prune p c : is_layer_atrule (prune_in p c) = is_layer_atrule c.
Proof. by destruct c. Qed.

Lemma prune_list_ids p l :
  nid <$> prune_list p l = nid <$> filter (λ c, p c = false) l.
Proof.
  induction l as [|c l IH]; [done|]. rewrite filter_cons.
  change (prune_list p (c :: l))
    with ((if p c then [] else [prune_in p c]) ++ prune_list p l).
  rewrite fmap_app, IH. destruct (p c) eqn:Hp.
  - by rewrite decide_False by done.
  - rewrite decide_True by done. rewrite fmap_cons.
    by destruct (prune_in_fields p c) as (-> & _).
Qed.

(** X4. When a pass has done its work and returned, no [@layer] at-rule
    for one of the four layers is left at any depth of the document. A pass
    that leaves early removes none. *)
Theorem X4_no_layer_atrule_left (E : externals) ctx ms r :
  let out := expandTailwindAtRules E ctx ms r in
  (LayerNodes.all_null (discover r) = false → out_completion out = Returned →
   ∀ n, n ∈ walkAtRules (out_root out) →
        ¬ (name n = "layer" ∧ params n ∈ LayerNodes.keys))
  ∧ (LayerNodes.all_null (discover r) = true → out_root out = r).
Proof.
  intros out. subst out. split.
  - intros Hn Hr n Hin [Hname Hparams].
    destruct (expand_outcome E ctx ms r)
      as [[Hn' _]|[(_ & _ & Hc & _)|[(sheet & _ & _ & _ & Hc & _)
         |(sheet & r4 & _ & _ & _ & _ & Hroot & _)]]]; try congruence.
    rewrite Hroot in Hin.
    unfold walkAtRules in Hin. apply list_elem_of_filter in Hin as [Hty Hin].
    unfold cleanup in Hin. cbn [root_nodes] in Hin.
    apply (prune_walk is_layer_atrule (is_layer_atrule_prune is_layer_atrule)) in Hin.
    unfold is_layer_atrule in Hin.
    rewrite bool_decide_eq_true_2 in Hin by done.
    apply is_layer_key_spec in Hparams.
    by rewrite Hname, Hparams in Hin.
  - intros Hn. by rewrite (expand_early E ctx ms r Hn).
Qed.

(** ** The source of the root *)

Section RootSource.
Context (E : externals).

Lemma splice_layer_source marker layer tag r :
  root_source (splice_layer E marker layer tag r) = root_source r.
Proof. by destruct marker. Qed.

Lemma splice_markers_source ln sheet r :
  root_source (splice_markers E ln sheet r) = root_source r.
Proof. unfold splice_markers. by rewrite !splice_layer_source. Qed.

Lemma splice_source ln sheet r r4 :
  splice E ln sheet r = Some r4 → root_source r4 = root_source r.
Proof.
  unfold splice, splice_variants. intros Hs.
  rewrite <- (splice_markers_source ln sheet r).
  destruct (LayerNodes.variants ln); [by injection Hs as <-|].
  destruct (variantNodes _ _); [by injection Hs as <-|].
  destruct (mapM _ _); [|done]. by injection Hs as <-.
Qed.

(** X5. The pass never moves the start of the source of the root. When it
    has done its work and returned, a missing end of that source is the
    start, and an end that was there is kept; a pass that leaves early or
    throws leaves the source of the root as it was. *)
Theorem X5_root_source ctx ms r :
  let out := expandTailwindAtRules E ctx ms r in
  src_start (root_source (out_root out)) = src_start (root_source r)
  ∧ (LayerNodes.all_null (discover r) = false → out_completion out = Returned →
     src_end (root_source (out_root out))
     = match src_end (root_source r) with
       | Some e => Some e
       | None => src_start (root_source r)
       end)
  ∧ (LayerNodes.all_null (discover r) = true ∨ out_completion out = Threw →
     root_source (out_root out) = root_source r).
Proof.
  intros out. subst out.
  destruct (expand_outcome E ctx ms r)
    as [[Hn ->]|[(Hn & _ & Hc & -> & _)|[(sheet & Hn & _ & _ & Hc & -> & _)
       |(sheet & r4 & Hn & _ & Hsp & Hc & -> & _)]]].
  - simpl. split_and!; [done| |done]. intros. congruence.
  - split_and!; [done| |done]. intros. congruence.
  - rewrite splice_markers_source. split_and!; [done| |done]. intros. congruence.
  - apply splice_source in Hsp. simpl. rewrite Hsp.
    split_and!; [done|done|]. intros [?|?]; congruence.
Qed.
End RootSource.

(** ** When the pass throws *)

Section Throws.
Context (E : externals).

Lemma backfill_throws ln n :
  backfill ln n = None ↔
  is_container n = false
  ∨ ((node_parentLayer n ≫= LayerNodes.get ln) = None
     ∧ ∃ d, d ∈ walk n ∧ source d = None).
Proof.
  unfold backfill. destruct (is_container n); [|by split; [left|]].
  destruct (node_parentLayer n ≫= LayerNodes.get ln) as [m|].
  - split; [done|]. by intros [?|[? _]].
  - destruct (forallb has_source (walk n)) eqn:Hall.
    + split; [done|]. intros [?|[_ (d & Hd & Hs)]]; [done|].
      rewrite forallb_forall in Hall. apply list_elem_of_In in Hd.
      specialize (Hall d Hd). unfold has_source in Hall. by rewrite Hs in Hall.
    + split; [|done]. intros _. right. split; [done|].
      apply not_true_iff_false in Hall.
      destruct (decide (Exists (λ d, source d = None) (walk n))) as [Hex|Hno].
      * apply Exists_exists in Hex as (d & Hd & Hs). eauto.
      * destruct Hall. apply forallb_forall. intros d Hd.
        apply list_elem_of_In in Hd. unfold has_source.
        destruct (source d) eqn:Hs; [done|]. destruct Hno.
        apply Exists_exists. eauto.
  Qed.

End Throws.

(** ** The sets of the stylesheet *)

Section Sets.
Context (E : externals).

Lemma bucket_Some rv sort rule rv' :
  bucket rv (sort, rule) = Some rv' → RuleOffset.layer sort ∈ Stylesheet.keys.
Proof.
  intros Hb. destruct (decide (RuleOffset.layer sort ∈ Stylesheet.keys)); [done|].
  by rewrite bucket_invalid in Hb.
Qed.

Lemma bucket_all_order l : ∀ rv rv',
  bucket_all rv l = Some rv' →
  ∀ tag, Stylesheet.get rv' tag
         = JsSet.add_all nid (Stylesheet.get rv tag)
             ((filter (λ p, RuleOffset.layer p.1 = tag) l).*2).
Proof.
  induction l as [|[sort rule] l IH]; intros rv rv' Hall tag.
  - by injection Hall as <-.
  - cbn [bucket_all] in Hall.
    destruct (bucket rv (sort, rule)) as [rv1|] eqn:Hb; [|done].
    pose proof (bucket_Some _ _ _ _ Hb) as Hk.
    destruct (bucket_valid rv sort rule Hk) as (rv1' & Hb' & Hget).
    assert (rv1' = rv1) as -> by congruence.
    rewrite (IH rv1 rv' Hall tag), Hget, filter_cons. cbn [fst].
    case_decide as Ht.
    + rewrite decide_True by done. done.
    + rewrite decide_False by (intros <-; done). done.
Qed.

(** X7. [buildStylesheet] throws exactly when a rule carries a layer tag
    that names none of the five sets, [user] for one. *)
Theorem X7_buildStylesheet_throws_iff (rules : list (RuleOffset.t * node)) :
  offsets_sort E rules ≡ₚ rules →
  buildStylesheet E rules = None
  ↔ ∃ sort rule, (sort, rule) ∈ rules ∧ RuleOffset.layer sort ∉ Stylesheet.keys.
Proof.
  intros Hperm. split.
  - intros Hnone.
    destruct (decide (Forall (λ p, RuleOffset.layer p.1 ∈ Stylesheet.keys)
                        (offsets_sort E rules))) as [Hall|Hex].
    + destruct (bucket_all_spec _ Stylesheet.empty Hall) as (sheet & Hs & _).
      unfold buildStylesheet in Hnone. congruence.
    + apply not_Forall_Exists in Hex; [|apply _].
      apply Exists_exists in Hex as ([sort rule] & Hin & Hbad).
      exists sort, rule. by rewrite <- Hperm.
  - intros (sort & rule & Hin & Hbad).
    apply (buildStylesheet_throws E rules Hperm).
    apply Exists_exists. by exists (sort, rule).
Qed.

(** X8. Every set of the stylesheet holds the rules of its layer in the
    order of [context.offsets.sort]: it is the set made of the sorted
    rules that carry the tag, so that a rule entered twice under one tag
    is kept once, at the place of its first entry. *)
Theorem X8_layer_sets_follow_the_sort (rules : list (RuleOffset.t * node)) sheet :
  buildStylesheet E rules = Some sheet →
  ∀ tag,
    Stylesheet.get sheet tag
    = JsSet.of_list nid
        ((filter (λ p, RuleOffset.layer p.1 = tag) (offsets_sort E rules)).*2).
Proof.
  intros Hb tag. unfold buildStylesheet in Hb.
  rewrite (bucket_all_order _ _ _ Hb tag). by rewrite get_empty_sheet.
Qed.
End Sets.

(** ** Where the entries of a line cache come from *)

Module LRUOrigin.

Lemma origin__set key value c k v :
  LRU.peek k (LRU._set key value c) = Some v →
  (k = key ∧ v = value) ∨ LRU.peek k c = Some v.
Proof.
  unfold LRU._set, LRU.peek. destruct (N.leb _ _); simpl.
  - rewrite lookup_empty. intros [[-> ->]|[_ Hk]]%lookup_insert_Some; [by left|].
    right. by rewrite Hk.
  - destruct (<[key:=value]> (LRU.cache c) !! k) as [w|] eqn:Hy.
    + intros [= ->]. apply lookup_insert_Some in Hy as [[-> ->]|[_ Hk]]; [by left|].
      right. by rewrite Hk.
    + apply lookup_insert_None in Hy as [Hk _]. rewrite Hk. by right.
Qed.

Lemma origin_set key value c k v :
  LRU.peek k (LRU.set key value c) = Some v →
  (k = key ∧ v = value) ∨ LRU.peek k c = Some v.
Proof.
  unfold LRU.set. destruct (LRU.cache c !! key) as [w|] eqn:Hc; [|apply origin__set].
  unfold LRU.peek. simpl.
  destruct (<[key:=value]> (LRU.cache c) !! k) as [w'|] eqn:Hy.
  - intros [= ->]. apply lookup_insert_Some in Hy as [[-> ->]|[_ Hk]]; [by left|].
    right. by rewrite Hk.
  - apply lookup_insert_None in Hy as [Hk _]. rewrite Hk. by right.
Qed.

Lemma origin_get key c k v :
  LRU.peek k (LRU.get key c).2 = Some v → LRU.peek k c = Some v.
Proof.
  unfold LRU.get. destruct (LRU.cache c !! key) as [w|] eqn:Hc; [done|].
  destruct (LRU.oldCache c !! key) as [w|] eqn:Ho; [|done].
  cbn [snd]. intros [[-> ->]|Hk]%origin__set.
  - unfold LRU.peek. by rewrite Hc, Ho.
  - revert Hk. unfold LRU.peek. simpl.
    destruct (LRU.cache c !! k); [done|]. by intros [_ ?]%lookup_delete_Some.
Qed.

Lemma peek_new k n : LRU.peek k (LRU.new n) = None.
Proof. unfold LRU.peek, LRU.new. simpl. by rewrite !lookup_empty. Qed.

Lemma peek_cache_of ec e k v :
  LRU.peek k (cache_of ec e) = Some v →
  ∃ lru, ec !! e = Some lru ∧ LRU.peek k lru = Some v.
Proof.
  unfold cache_of. destruct (ec !! e) as [lru|]; simpl; [eauto|].
  by rewrite peek_new.
Qed.

End LRUOrigin.

(** ** Invariants of the line caches *)

Section CacheInvariant.
Context (E : externals).
Context (P : list string → extractor → string → list string → Prop).
Context (Q : list string → Prop).
Hypothesis P_mono : ∀ seen line' e line v,
  P seen e line v → P (str_add seen line') e line v.
Hypothesis P_fresh : ∀ seen e line,
  P (str_add seen line) e line (line_tokens E e line).
Hypothesis Q_step : ∀ seen cands e line v,
  P seen e line v → Q cands → Q (str_add_all cands v).

Local Abbreviation inv st :=
  ((∀ e lru line v, extractorCache st !! e = Some lru →
                    LRU.peek line lru = Some v → P (scan_seen st) e line v)
   ∧ Q (scan_candidates st)).

Lemma inv_line e raw st : inv st → inv (getClassCandidates_line E e st raw).
Proof.
  intros [Hec Hq]. unfold getClassCandidates_line.
  destruct (str_has _ _); [done|].
  destruct (LRU.has _ _) eqn:Hhas.
  - apply LRUFacts.has_peek in Hhas as [cached Hcached].
    pose proof (LRUFacts.get_peek (JsString.trim raw)
                  (cache_of (extractorCache st) e)) as Hget.
    pose proof (LRUOrigin.origin_get (JsString.trim raw)
                  (cache_of (extractorCache st) e)) as Horigin.
    destruct (LRU.get _ _) as [hit lru']. cbn [fst snd] in Hget, Horigin.
    cbn [extractorCache scan_seen scan_candidates]. split.
    + intros e' lru'' line v [[<- <-]|[_ He]]%lookup_insert_Some Hpeek.
      * apply Horigin, LRUOrigin.peek_cache_of in Hpeek as (lru & He & Hpeek).
        eapply P_mono, Hec; eauto.
      * eapply P_mono, Hec; eauto.
    + rewrite Hget, Hcached. simpl.
      apply LRUOrigin.peek_cache_of in Hcached as (lru & He & Hpeek).
      eapply Q_step; [|done]. eapply Hec; eauto.
  - cbn [extractorCache scan_seen scan_candidates]. split.
    + intros e' lru'' line v [[<- <-]|[_ He]]%lookup_insert_Some Hpeek.
      * apply LRUOrigin.origin_set in Hpeek as [[-> ->]|Hpeek]; [apply P_fresh|].
        apply LRUOrigin.peek_cache_of in Hpeek as (lru & He & Hpeek).
        eapply P_mono, Hec; eauto.
      * eapply P_mono, Hec; eauto.
    + eapply Q_step; [|done]. apply (P_fresh (scan_seen st) e).
Qed.

Lemma inv_getClassCandidates text e st : inv st → inv (getClassCandidates E text e st).
Proof.
  intros [Hec Hq]. unfold getClassCandidates.
  apply (foldl_invariant (λ st, inv st)); [intros; by apply inv_line|].
  cbn [extractorCache scan_seen scan_candidates]. split; [|done].
  intros e' lru line v [[<- <-]|[_ He]]%lookup_insert_Some Hpeek; [|eauto].
  apply LRUOrigin.peek_cache_of in Hpeek as (lru & He & Hpeek). eauto.
Qed.

Lemma inv_scan_text text m st : inv st → inv (scan_text E text m st).
Proof. intros H. unfold scan_text. by apply inv_getClassCandidates. Qed.

Lemma inv_scan_batch batch st : inv st → inv (scan_batch E st batch).
Proof.
  intros H. unfold scan_batch.
  apply (foldl_invariant (λ st, inv st)).
  - intros a b Ha. unfold batch_resume.
    destruct (reads_file b.1); [by apply inv_scan_text|done].
  - apply (foldl_invariant (λ st, inv st)); [|done].
    intros a b Ha. unfold batch_start.
    destruct (reads_file b.1); [done|by apply inv_scan_text].
Qed.

Lemma inv_scan_regex regex st : inv st → inv (scan_regex E regex st).
Proof.
  intros H. unfold scan_regex.
  apply (foldl_invariant (λ st, inv st)); [|done].
  intros. by apply inv_scan_batch.
Qed.
End CacheInvariant.

Section Memo.
Context (E : externals).

Lemma bang_free_tokens e line : "!*" ∉ line_tokens E e line.
Proof.
  unfold line_tokens. rewrite JsSetFacts.str_elem_of_of_list, list_elem_of_filter.
  by intros [? _].
Qed.

Lemma bang_free_scan_regex regex st :
  bang_free (extractorCache st) → bang_free (extractorCache (scan_regex E regex st)).
Proof.
  intros Hst.
  refine (proj1 (inv_scan_regex E (λ _ _ _ v, "!*" ∉ v) (λ _, True) _ _ _ regex st _));
    try done.
  intros. apply bang_free_tokens.
Qed.

Lemma bang_free_found regex st :
  bang_free (extractorCache st) → "!*" ∉ scan_candidates st →
  "!*" ∉ scan_candidates (scan_regex E regex st).
Proof.
  intros Hst Hc.
  refine (proj2 (inv_scan_regex E (λ _ _ _ v, "!*" ∉ v) (λ cands, "!*" ∉ cands)
                   _ _ _ regex st _)); try done.
  - intros. apply bang_free_tokens.
  - intros seen cands e line v Hv Hcands.
    rewrite JsSetFacts.str_elem_of_add_all. tauto.
Qed.

(** X9. The filter on ["!*"] holds through the memo: when no entry of the
    line caches holds ["!*"], as in a module that was just loaded, the
    regex path finds no candidate ["!*"], whatever the extractors return,
    and no entry of the caches holds it afterwards. *)
Theorem X9_bang_star_is_never_found ctx ms :
  bang_free (module_extractorCache ms) →
  ("!*" ∉ discovered_by_regex E (module_extractorCache ms)
            (regexParserContent (scan E ctx ms).2))
  ∧ bang_free (extractorCache (scan E ctx ms).1)
  ∧ bang_free ∅.
Proof.
  intros Hms. split_and!.
  - unfold discovered_by_regex. apply bang_free_found; [exact Hms|].
    apply not_elem_of_nil.
  - unfold scan. cbn [fst]. apply bang_free_scan_regex.
    destruct (scan_rust_spec E
                (rustParserContent (route E (tailwindConfig ctx) (changedContent ctx)
                                      (module_fresh ms)))
                {| extractorCache := module_extractorCache ms;
                   scan_candidates := initial_candidates E ctx;
                   scan_seen := []; scan_trace := [] |}) as (-> & _ & _).
    exact Hms.
  - intros e lru line v He. by rewrite lookup_empty in He.
Qed.
End Memo.

(** ** The memo is transparent *)

Section Transparent.
Context (E : externals).

Local Abbreviation coh st := (coherent E (extractorCache st)).

Local Abbreviation same st st' :=
  (scan_candidates st = scan_candidates st' ∧ scan_seen st = scan_seen st'
   ∧ coh st ∧ coh st').

Lemma coherent_line e raw st : coh st → coh (getClassCandidates_line E e st raw).
Proof.
  intros Hst.
  refine (proj1 (inv_line E (λ _ e line v, v = line_tokens E e line) (λ _, True)
                   _ _ _ e raw st _)); done.
Qed.

Lemma coherent_getClassCandidates text e st :
  coh st → coh (getClassCandidates E text e st).
Proof.
  intros Hst.
  refine (proj1 (inv_getClassCandidates E (λ _ e line v, v = line_tokens E e line)
                   (λ _, True) _ _ _ text e st _)); done.
Qed.

Lemma coherent_scan_regex regex st : coh st → coh (scan_regex E regex st).
Proof.
  intros Hst.
  refine (proj1 (inv_scan_regex E (λ _ e line v, v = line_tokens E e line)
                   (λ _, True) _ _ _ regex st _)); done.
Qed.

(** With a coherent cache, what a line adds does not depend on the cache. *)
Lemma line_coherent e raw st :
  coh st →
  let line := JsString.trim raw in
  let st' := getClassCandidates_line E e st raw in
  scan_candidates st'
  = (if str_has line (scan_seen st) then scan_candidates st
     else str_add_all (scan_candidates st) (line_tokens E e line))
  ∧ scan_seen st'
    = (if str_has line (scan_seen st) then scan_seen st
       else str_add (scan_seen st) line).
Proof.
  intros Hst line st'. unfold st', getClassCandidates_line. fold line.
  destruct (str_has _ _); [done|].
  destruct (LRU.has _ _) eqn:Hhas; [|done].
  apply LRUFacts.has_peek in Hhas as [cached Hcached].
  pose proof (LRUFacts.get_peek line (cache_of (extractorCache st) e)) as Hget.
  destruct (LRU.get _ _) as [hit lru']. cbn [fst] in Hget.
  cbn [scan_candidates scan_seen]. split; [|done].
  rewrite Hget, Hcached. simpl.
  apply LRUOrigin.peek_cache_of in Hcached as (lru & He & Hpeek).
  by rewrite (Hst e lru line cached He Hpeek).
Qed.

Lemma same_line e raw st st' :
  same st st' →
  same (getClassCandidates_line E e st raw) (getClassCandidates_line E e st' raw).
Proof.
  intros (Hc & Hs & Hst & Hst').
  destruct (line_coherent e raw st Hst) as [-> ->].
  destruct (line_coherent e raw st' Hst') as [-> ->].
  rewrite Hc, Hs. split_and!; [done..| |]; by apply coherent_line.
Qed.

Lemma same_getClassCandidates text e st st' :
  same st st' →
  same (getClassCandidates E text e st) (getClassCandidates E text e st').
Proof.
  intros (Hc & Hs & Hst & Hst'). unfold getClassCandidates.
  apply (foldl_related (λ st st', same st st')).
  - intros. by apply same_line.
  - cbn [scan_candidates scan_seen extractorCache]. split_and!; [done..| |].
    + intros e' lru line v [[<- <-]|[_ He]]%lookup_insert_Some Hpeek; [|eauto].
      apply LRUOrigin.peek_cache_of in Hpeek as (lru & He & Hpeek). eauto.
    + intros e' lru line v [[<- <-]|[_ He]]%lookup_insert_Some Hpeek; [|eauto].
      apply LRUOrigin.peek_cache_of in Hpeek as (lru & He & Hpeek). eauto.
Qed.

Lemma same_scan_text text m st st' :
  same st st' → same (scan_text E text m st) (scan_text E text m st').
Proof. intros H. unfold scan_text. by apply same_getClassCandidates. Qed.

Lemma same_scan_batch batch st st' :
  same st st' → same (scan_batch E st batch) (scan_batch E st' batch).
Proof.
  intros H. unfold scan_batch.
  apply (foldl_related (λ st st', same st st')).
  - intros a a' b Ha. unfold batch_resume.
    destruct (reads_file b.1); [by apply same_scan_text|done].
  - apply (foldl_related (λ st st', same st st')); [|done].
    intros a a' b Ha. unfold batch_start.
    destruct (reads_file b.1); [done|by apply same_scan_text].
Qed.

Lemma same_scan_regex regex st st' :
  same st st' → same (scan_regex E regex st) (scan_regex E regex st').
Proof.
  intros H. unfold scan_regex.
  apply (foldl_related (λ st st', same st st')); [|done].
  intros. by apply same_scan_batch.
Qed.

(** X10. The memo of extracted lines is transparent. When every entry of
    the line caches is what its extractor returns for the line, which
    holds of a module that was just loaded and which a scan preserves, the
    pass collects the candidates it would collect without any cache, in
    the same order, and hands the same sequence to the rule generator. *)
Theorem X10_memo_is_transparent ctx ms :
  coherent E (module_extractorCache ms) →
  let cold := {| module_extractorCache := ∅; module_fresh := module_fresh ms |} in
  scan_candidates (scan E ctx ms).1 = scan_candidates (scan E ctx cold).1
  ∧ scan_seen (scan E ctx ms).1 = scan_seen (scan E ctx cold).1
  ∧ pass_sorted E ctx ms = pass_sorted E ctx cold
  ∧ coherent E (extractorCache (scan E ctx ms).1)
  ∧ coherent E ∅.
Proof.
  intros Hms cold.
  assert (coherent E ∅) as Hempty.
  { intros e lru line v He. by rewrite lookup_empty in He. }
  assert (same (scan E ctx ms).1 (scan E ctx cold).1) as (Hc & Hs & Hst & _).
  { unfold scan. cbn [fst module_fresh cold module_extractorCache].
    apply same_scan_regex.
    set (rust := rustParserContent _).
    unfold scan_rust. destruct rust; [done|]. done. }
  split_and!; [done|done| |done|done].
  unfold pass_sorted. by rewrite Hc.
Qed.
End Transparent.

(** ** The batches of the regex path *)

Section Batches.

Lemma batches_of_lookup (l : list (item * meta)) : ∀ fuel k b,
  (length l ≤ fuel)%nat →
  batches_of fuel l !! k = Some b
  ↔ (BATCH_SIZE * k < length l)%nat ∧ b = take BATCH_SIZE (drop (BATCH_SIZE * k) l).
Proof.
  intros fuel. revert l.
  induction fuel as [|fuel IH]; intros l k b Hlen.
  - destruct l; [|simpl in Hlen; lia]. simpl. split; [done|]. intros [? _]. lia.
  - destruct l as [|x l]; [simpl; split; [done|intros [? _]; lia]|].
    cbn [batches_of]. destruct k as [|k].
    + rewrite Nat.mul_0_r. cbn [lookup list_lookup drop]. simpl length.
      split; [intros [= <-]; split; [lia|done]|by intros [_ ->]].
    + cbn [lookup list_lookup].
      change (batches_of fuel (drop BATCH_SIZE (x :: l)) !! k = Some b
              ↔ (BATCH_SIZE * S k < length (x :: l))%nat
                ∧ b = take BATCH_SIZE (drop (BATCH_SIZE * S k) (x :: l))).
      rewrite IH.
      * rewrite length_drop, drop_drop.
        replace (BATCH_SIZE + BATCH_SIZE * k)%nat with (BATCH_SIZE * S k)%nat by lia.
        split; intros [? ?]; (split; [lia|done]).
      * rewrite length_drop. simpl in Hlen |- *. unfold BATCH_SIZE. lia.
Qed.

Lemma batches_of_concat (l : list (item * meta)) : ∀ fuel,
  (length l ≤ fuel)%nat → concat (batches_of fuel l) = l.
Proof.
  intros fuel. revert l.
  induction fuel as [|fuel IH]; intros l Hlen.
  - by destruct l; [|simpl in Hlen; lia].
  - destruct l as [|x l]; [done|]. cbn [batches_of concat].
    rewrite IH; [apply take_drop|].
    rewrite length_drop. simpl in Hlen |- *. unfold BATCH_SIZE. lia.
Qed.

(** X11. The batch loop cuts the regex queue into slices of 500 entries:
    the [k]-th batch is [slice(500 k, 500 k + 500)], there is one for
    every [k] with [500 k] below the length of the queue, none is empty,
    and laid end to end the batches are the queue: no entry is lost,
    repeated or moved. *)
Theorem X11_batches_cut_the_queue (E : externals) ctx ms :
  let queue := regexParserContent (scan E ctx ms).2 in
  let batches := batches_of (length queue) queue in
  scan_regex E queue = (λ st, foldl (scan_batch E) st batches)
  ∧ (∀ k b, batches !! k = Some b
            ↔ (500 * k < length queue)%nat ∧ b = take 500 (drop (500 * k) queue))
  ∧ concat batches = queue
  ∧ Forall (λ b, b ≠ [] ∧ (length b ≤ 500)%nat) batches.
Proof.
  intros queue batches. split_and!.
  - done.
  - intros k b. by apply batches_of_lookup.
  - by apply batches_of_concat.
  - apply Forall_lookup. intros k b Hb.
    apply batches_of_lookup in Hb as [Hk ->]; [|done].
    split.
    + intros Hnil. apply (f_equal length) in Hnil.
      rewrite length_take, length_drop in Hnil. cbn [length] in Hnil.
      unfold BATCH_SIZE in Hk, Hnil. lia.
    + rewrite length_take. unfold BATCH_SIZE. lia.
Qed.
End Batches.

(** ** The calls of a scan, apart from those of the extractors *)

Section Projection.
Context (E : externals) {X : Type} (f : event → option X).
Hypothesis f_extractor : ∀ e line, f (CallExtractor e line) = None.

Local Abbreviation proj st := (omap f (scan_trace st)).

Lemma proj_line e raw st : proj (getClassCandidates_line E e st raw) = proj st.
Proof.
  unfold getClassCandidates_line.
  destruct (str_has _ _); [done|].
  destruct (LRU.has _ _).
  - by destruct (LRU.get _ _).
  - cbn [scan_trace]. rewrite omap_app. simpl. rewrite f_extractor.
    by rewrite app_nil_r.
Qed.

Lemma proj_getClassCandidates text e st : proj (getClassCandidates E text e st) = proj st.
Proof.
  unfold getClassCandidates.
  apply (foldl_invariant (λ st', proj st' = proj st)); [|done].
  intros a b Ha. by rewrite proj_line.
Qed.

Lemma proj_scan_text text m st :
  proj (scan_text E text m st)
  = proj st ++ omap f [CallTransformer (meta_transformer m) text].
Proof.
  unfold scan_text. rewrite proj_getClassCandidates. cbn [log scan_trace].
  by rewrite omap_app.
Qed.

Lemma proj_starts batch : ∀ st,
  proj (foldl (batch_start E) st batch) = proj st ++ omap f (flat_map start_events batch).
Proof.
  induction batch as [|en batch IH]; intros st.
  - simpl. by rewrite app_nil_r.
  - cbn [foldl flat_map]. rewrite IH, omap_app, app_assoc. f_equal.
    unfold batch_start, start_events. destruct (reads_file en.1).
    + cbn [log scan_trace]. by rewrite omap_app.
    + apply proj_scan_text.
Qed.

Lemma proj_resumes l : ∀ st,
  proj (foldl (batch_resume E) st l) = proj st ++ omap f (flat_map (resume_events E) l).
Proof.
  induction l as [|en l IH]; intros st.
  - simpl. by rewrite app_nil_r.
  - cbn [foldl flat_map]. rewrite IH, omap_app, app_assoc. f_equal.
    unfold batch_resume, resume_events. destruct (reads_file en.1).
    + apply proj_scan_text.
    + simpl. by rewrite app_nil_r.
Qed.

Lemma proj_scan_batch st batch :
  proj (scan_batch E st batch) = proj st ++ omap f (batch_events E batch).
Proof.
  unfold scan_batch, batch_events.
  by rewrite proj_resumes, proj_starts, omap_app, app_assoc.
Qed.

Lemma proj_batches batches : ∀ st,
  proj (foldl (scan_batch E) st batches)
  = proj st ++ omap f (flat_map (batch_events E) batches).
Proof.
  induction batches as [|b batches IH]; intros st.
  - simpl. by rewrite app_nil_r.
  - cbn [foldl flat_map]. by rewrite IH, proj_scan_batch, omap_app, app_assoc.
Qed.

Lemma proj_scan ctx ms :
  let routed := (scan E ctx ms).2 in
  proj (scan E ctx ms).1
  = omap f (native_events (rustParserContent routed))
    ++ omap f (flat_map (batch_events E)
                 (batches_of (length (regexParserContent routed))
                    (regexParserContent routed))).
Proof.
  unfold scan. cbn [fst snd]. unfold scan_regex. rewrite proj_batches. f_equal.
  unfold scan_rust, native_events. by destruct (rustParserContent _).
Qed.
End Projection.

Lemma omap_flat_map {A B C} (f : B → option C) (g : A → list B) (l : list A) :
  omap f (flat_map g l) = flat_map (λ a, omap f (g a)) l.
Proof.
  induction l as [|a l IH]; [done|]. simpl. by rewrite omap_app, IH.
Qed.

Lemma flat_map_concat {A B} (g : list A → list B) (h : A → list B) (ls : list (list A)) :
  (∀ l, g l = flat_map h l) → flat_map g ls = flat_map h (concat ls).
Proof.
  intros Hg. induction ls as [|l ls IH]; [done|].
  simpl. by rewrite flat_map_app, Hg, IH.
Qed.

Section Reads.
Context (E : externals).

End Reads.

Section Transformers.
Context (E : externals).

Local Abbreviation call := (λ en : item * meta, (meta_transformer en.2, item_text E en.1)).

Lemma transformer_calls_starts batch :
  transformer_calls (flat_map start_events batch)
  = call <$> filter (λ en, is_read en = false) batch.
Proof.
  induction batch as [|en batch IH]; [done|].
  unfold transformer_calls in *. cbn [flat_map]. rewrite omap_app, IH, filter_cons.
  unfold start_events, is_read, item_text.
  destruct (reads_file en.1) as [path|] eqn:Hr.
  - rewrite decide_False; [done|]. rewrite bool_decide_eq_false. intros Hn. by apply Hn.
  - rewrite decide_True; [|rewrite bool_decide_eq_false; by intros [? ?]].
    simpl. by rewrite Hr.
Qed.

Lemma transformer_calls_resumes l :
  Forall (λ en, is_read en = true) l →
  transformer_calls (flat_map (resume_events E) l) = call <$> l.
Proof.
  induction 1 as [|en l Hen _ IH]; [done|].
  unfold transformer_calls in *. cbn [flat_map]. rewrite omap_app, IH.
  unfold resume_events, item_text. unfold is_read in Hen.
  apply bool_decide_eq_true in Hen as [path Hr].
  rewrite fmap_cons. cbn beta. by rewrite Hr.
Qed.

End Transformers.

(** ** The native scanner *)

Section Native.
Context (E : externals).

Lemma regex_tail_line e raw st t0 :
  (∃ rest, scan_trace st = t0 ++ rest ∧ Forall (λ ev, is_regex_event ev = true) rest) →
  ∃ rest, scan_trace (getClassCandidates_line E e st raw) = t0 ++ rest
          ∧ Forall (λ ev, is_regex_event ev = true) rest.
Proof.
  intros (rest & Ht & Hrest). unfold getClassCandidates_line.
  destruct (str_has _ _); [eauto|].
  destruct (LRU.has _ _).
  - destruct (LRU.get _ _). eauto.
  - cbn [scan_trace]. exists (rest ++ [CallExtractor e (JsString.trim raw)]).
    rewrite Ht, app_assoc. split; [done|].
    apply Forall_app. split; [done|]. by apply Forall_singleton.
Qed.

Lemma regex_tail_log ev st t0 :
  is_regex_event ev = true →
  (∃ rest, scan_trace st = t0 ++ rest ∧ Forall (λ ev, is_regex_event ev = true) rest) →
  ∃ rest, scan_trace (log ev st) = t0 ++ rest
          ∧ Forall (λ ev, is_regex_event ev = true) rest.
Proof.
  intros Hev (rest & Ht & Hrest). exists (rest ++ [ev]). cbn [log scan_trace].
  rewrite Ht, app_assoc. split; [done|].
  apply Forall_app. split; [done|]. by apply Forall_singleton.
Qed.

Lemma regex_tail_scan_text text m st t0 :
  (∃ rest, scan_trace st = t0 ++ rest ∧ Forall (λ ev, is_regex_event ev = true) rest) →
  ∃ rest, scan_trace (scan_text E text m st) = t0 ++ rest
          ∧ Forall (λ ev, is_regex_event ev = true) rest.
Proof.
  intros Hst. unfold scan_text, getClassCandidates.
  apply (foldl_invariant
           (λ st, ∃ rest, scan_trace st = t0 ++ rest
                          ∧ Forall (λ ev, is_regex_event ev = true) rest)).
  - intros. by apply regex_tail_line.
  - cbn [scan_trace]. by apply (regex_tail_log _ st t0).
Qed.

Lemma regex_tail_scan_regex regex st t0 :
  (∃ rest, scan_trace st = t0 ++ rest ∧ Forall (λ ev, is_regex_event ev = true) rest) →
  ∃ rest, scan_trace (scan_regex E regex st) = t0 ++ rest
          ∧ Forall (λ ev, is_regex_event ev = true) rest.
Proof.
  intros Hst. unfold scan_regex.
  apply (foldl_invariant
           (λ st, ∃ rest, scan_trace st = t0 ++ rest
                          ∧ Forall (λ ev, is_regex_event ev = true) rest)); [|done].
  intros a batch Ha. unfold scan_batch.
  apply (foldl_invariant
           (λ st, ∃ rest, scan_trace st = t0 ++ rest
                          ∧ Forall (λ ev, is_regex_event ev = true) rest)).
  - intros a' b Ha'. unfold batch_resume.
    destruct (reads_file b.1); [by apply regex_tail_scan_text|done].
  - apply (foldl_invariant
             (λ st, ∃ rest, scan_trace st = t0 ++ rest
                            ∧ Forall (λ ev, is_regex_event ev = true) rest)); [|done].
    intros a' b Ha'. unfold batch_start.
    destruct (reads_file b.1); [by apply regex_tail_log|by apply regex_tail_scan_text].
Qed.

Lemma route_no_fast cfg items : ∀ acc,
  Forall (λ it, routes_fast E cfg it = false) items →
  rustParserContent (foldl (route_step E cfg) acc items) = rustParserContent acc.
Proof.
  intros acc Hitems.
  destruct (foldl_route_spec E cfg items acc) as (-> & _ & _).
  rewrite (filter_none (λ it, routes_fast E cfg it = true)); [by rewrite app_nil_r|].
  eapply Forall_impl; [exact Hitems|]. intros it Hit. by rewrite Hit.
Qed.

(** X14. The native scanner is called once at most in a pass: with the
    whole native queue, when that is not empty, and before anything of
    the regex path. With the [oxideParser] flag off it is not called.
    When no item is left to the regex path the pass reads no file, calls
    no transformer or extractor, and leaves the line caches as they
    were. *)
Theorem X14_native_scan_comes_first ctx ms :
  let st := (scan E ctx ms).1 in
  let routed := (scan E ctx ms).2 in
  (∃ rest,
     scan_trace st
     = match rustParserContent routed with
       | [] => []
       | _ :: _ => [CallParseCandidateStrings (rustParserContent routed)]
       end ++ rest
     ∧ Forall (λ ev, is_regex_event ev = true) rest)
  ∧ (flagEnabled E (tailwindConfig ctx) "oxideParser" = false →
     rustParserContent routed = []
     ∧ filter (λ ev, is_native_scan ev = true) (scan_trace st) = [])
  ∧ (regexParserContent routed = [] →
     filter (λ ev, is_regex_event ev = true) (scan_trace st) = []
     ∧ extractorCache st = module_extractorCache ms).
Proof.
  intros st routed.
  assert (∃ rest,
            scan_trace st = native_events (rustParserContent routed) ++ rest
            ∧ Forall (λ ev, is_regex_event ev = true) rest) as Hshape.
  { unfold st, routed, scan. cbn [fst snd].
    apply regex_tail_scan_regex. exists [].
    rewrite app_nil_r. split; [|done].
    unfold scan_rust, native_events. by destruct (rustParserContent _). }
  split_and!.
  - exact Hshape.
  - intros Hflag.
    assert (rustParserContent routed = []) as Hrust.
    { unfold routed, scan, route. cbn [snd]. rewrite route_no_fast; [done|].
      apply Forall_forall. intros it _. by apply flag_off_routes_to_regex. }
    split; [done|].
    destruct Hshape as (rest & -> & Hrest). rewrite Hrust. simpl.
    apply filter_none. eapply Forall_impl; [exact Hrest|].
    intros ev Hev. by destruct ev.
  - intros Hregex. unfold routed, scan in Hregex. cbn [snd] in Hregex.
    unfold st, scan. cbn [fst]. rewrite Hregex.
    unfold scan_regex. cbn [length batches_of foldl]. split.
    + unfold scan_rust. by destruct (rustParserContent _).
    + unfold scan_rust. by destruct (rustParserContent _).
Qed.
End Native.

(** ** The lines that the extractors see *)

Module JsStringTrim.
Import JsString.

Lemma trimEnd_idem s : trimEnd (trimEnd s) = trimEnd s.
Proof.
  induction s as [|c r IH]; [done|]. cbn [trimEnd].
  destruct (is_space c && is_empty (trimEnd r)) eqn:Hc; [done|].
  cbn [trimEnd]. by rewrite IH, Hc.
Qed.

Lemma trimStart_head s :
  trimStart s = EmptyString
  ∨ ∃ c r, trimStart s = String c r ∧ is_space c = false.
Proof.
  induction s as [|c r IH]; [by left|]. cbn [trimStart].
  destruct (is_space c) eqn:Hc; [done|]. right. eauto.
Qed.

Lemma trimStart_trimEnd t :
  (t = EmptyString ∨ ∃ c r, t = String c r ∧ is_space c = false) →
  trimStart (trimEnd t) = trimEnd t.
Proof.
  intros [->|(c & r & -> & Hc)]; [done|].
  cbn [trimEnd]. rewrite Hc. cbn [andb trimStart]. by rewrite Hc.
Qed.

Lemma trim_idem s : trim (trim s) = trim s.
Proof.
  unfold trim. rewrite (trimStart_trimEnd (trimStart s)) by apply trimStart_head.
  apply trimEnd_idem.
Qed.

Lemma chars_trimStart s c :
  c ∈ list_ascii_of_string (trimStart s) → c ∈ list_ascii_of_string s.
Proof.
  induction s as [|d r IH]; [done|]. cbn [trimStart].
  destruct (is_space d); [|done]. intros Hc. simpl. right. by apply IH.
Qed.

Lemma chars_trimEnd s c :
  c ∈ list_ascii_of_string (trimEnd s) → c ∈ list_ascii_of_string s.
Proof.
  induction s as [|d r IH]; [done|]. cbn [trimEnd].
  destruct (is_space d && is_empty (trimEnd r)).
  - simpl. by intros ?%elem_of_nil.
  - simpl. intros [->|Hc]%elem_of_cons; [by left|]. right. by apply IH.
Qed.

Lemma chars_trim s c :
  c ∈ list_ascii_of_string (trim s) → c ∈ list_ascii_of_string s.
Proof. intros Hc. by apply chars_trimStart, chars_trimEnd. Qed.

Lemma split_newline_chars s : ∀ piece c,
  piece ∈ split_newline s → c ∈ list_ascii_of_string piece → is_newline c = false.
Proof.
  induction s as [|d r IH]; intros piece c.
  - simpl. intros ->%list_elem_of_singleton. simpl. by intros ?%elem_of_nil.
  - cbn [split_newline]. destruct (is_newline d) eqn:Hd.
    + intros [->|Hp]%elem_of_cons; [simpl; by intros ?%elem_of_nil|]. by apply IH.
    + destruct (split_newline r) as [|h t] eqn:Hs.
      * intros ->%list_elem_of_singleton. simpl.
        intros [->|?%elem_of_nil]%elem_of_cons; done.
      * intros [->|Hp]%elem_of_cons.
        -- simpl. intros [->|Hc]%elem_of_cons; [done|].
           apply (IH h); [by left|done].
        -- apply IH. by right.
Qed.

End JsStringTrim.

Lemma foldl_invariant_in {A B} (I : A → Prop) (f : A → B → A) (l : list B) :
  (∀ a b, b ∈ l → I a → I (f a b)) → ∀ a, I a → I (foldl f a l).
Proof.
  induction l as [|b l IH]; intros Hf a Ha; simpl; [done|].
  apply IH.
  - intros a' b' Hb'. apply Hf. by right.
  - apply Hf; [by left|done].
Qed.

Section Lines.
Context (E : externals).

Local Abbreviation fed st :=
  (∀ e line, CallExtractor e line ∈ scan_trace st →
     JsString.trim line = line
     ∧ ∀ c, c ∈ list_ascii_of_string line → JsString.is_newline c = false).

Lemma fed_getClassCandidates text e st : fed st → fed (getClassCandidates E text e st).
Proof.
  intros Hst. unfold getClassCandidates.
  apply (foldl_invariant_in (λ st, fed st)); [|done].
  intros a raw Hraw Ha. unfold getClassCandidates_line.
  destruct (str_has _ _); [done|].
  destruct (LRU.has _ _); [by destruct (LRU.get _ _)|].
  cbn [scan_trace]. intros e' line [Hin|[= _ ->]%list_elem_of_singleton]%elem_of_app;
    [by apply (Ha e')|].
  split; [apply JsStringTrim.trim_idem|].
  intros c Hc%JsStringTrim.chars_trim.
  by apply (JsStringTrim.split_newline_chars text raw).
Qed.

Lemma fed_log ev st :
  (∀ e line, ev ≠ CallExtractor e line) → fed st → fed (log ev st).
Proof.
  intros Hev Hst e line. cbn [log scan_trace].
  intros [Hin|Heq%list_elem_of_singleton]%elem_of_app; [by apply (Hst e)|].
  by destruct (Hev e line).
Qed.

Lemma fed_scan_text text m st : fed st → fed (scan_text E text m st).
Proof. intros Hst. unfold scan_text. by apply fed_getClassCandidates, fed_log. Qed.

(** X15. An extractor is only ever handed a single trimmed line: the
    argument of every extractor call of a pass has no white space at
    either end, so that trimming it changes nothing, and no line feed
    inside, whatever the transformers return. *)
Theorem X15_extractors_get_trimmed_lines ctx ms e line :
  CallExtractor e line ∈ scan_trace (scan E ctx ms).1 →
  JsString.trim line = line
  ∧ ∀ c, c ∈ list_ascii_of_string line → JsString.is_newline c = false.
Proof.
  revert e line. unfold scan. cbn [fst]. unfold scan_regex.
  apply (foldl_invariant (λ st, fed st)).
  - intros a batch Ha. unfold scan_batch.
    apply (foldl_invariant (λ st, fed st)).
    + intros a' b Ha'. unfold batch_resume.
      destruct (reads_file b.1); [by apply fed_scan_text|done].
    + apply (foldl_invariant (λ st, fed st)); [|done].
      intros a' b Ha'. unfold batch_start.
      destruct (reads_file b.1); [by apply fed_log|by apply fed_scan_text].
  - unfold scan_rust. destruct (rustParserContent _).
    + simpl. by intros e line ?%elem_of_nil.
    + simpl. intros e line [= ]%list_elem_of_singleton.
Qed.
End Lines.

(** ** The memo of the default extractor *)

Section DefaultMemo.
Context (E : externals) (fresh0 fresh1 : nat).

(** An extractor that [defaultExtractor(context)] returned in this pass. *)
Local Abbreviation born e := (∃ k, e = DefaultExtractorInstance k ∧ (fresh0 ≤ k < fresh1)%nat).

Local Abbreviation cold st :=
  ((∀ e lru line v, extractorCache st !! e = Some lru → LRU.peek line lru = Some v →
                    (∃ k, e = DefaultExtractorInstance k ∧ (fresh0 ≤ k)%nat) →
                    line ∈ scan_seen st)
   ∧ extracted_lines (scan_trace st) = scan_seen st
   ∧ (∀ k, (fresh1 ≤ k)%nat → extractorCache st !! DefaultExtractorInstance k = None)).

Lemma cold_line e raw st : born e → cold st → cold (getClassCandidates_line E e st raw).
Proof.
  intros (ke & -> & Hke) (Hec & Htr & Hdom). split_and!.
  - refine (proj1 (inv_line E
             (λ seen e line _, (∃ k, e = DefaultExtractorInstance k ∧ (fresh0 ≤ k)%nat) →
                               line ∈ seen) (λ _, True) _ _ _ _ raw st _)); try done.
    + intros seen line' e line _ Hin Hb. apply JsSetFacts.str_elem_of_add. left. auto.
    + intros seen e line _. apply JsSetFacts.str_elem_of_add. by right.
  - destruct (getClassCandidates_line_spec E (DefaultExtractorInstance ke) st raw)
      as [Hold Hnew].
    destruct (decide (JsString.trim raw ∈ scan_seen st)) as [Hin|Hin];
      [by rewrite (Hold Hin)|].
    destruct (Hnew Hin) as (-> & tokens & _ & _ & Hcase). clear Hnew Hold.
    destruct (LRU.peek (JsString.trim raw)
                (cache_of (extractorCache st) (DefaultExtractorInstance ke)))
      as [cached|] eqn:Hpeek.
    + apply LRUOrigin.peek_cache_of in Hpeek as (lru & He & Hpeek).
      destruct Hin. apply (Hec _ lru _ cached He Hpeek). exists ke. split; [done|lia].
    + destruct Hcase as [_ ->]. rewrite extracted_lines_app, Htr. done.
  - intros k Hk. unfold getClassCandidates_line.
    destruct (str_has _ _); [by apply Hdom|].
    destruct (LRU.has _ _).
    + destruct (LRU.get _ _). cbn [extractorCache].
      rewrite lookup_insert_ne; [by apply Hdom|]. intros [= ->]. lia.
    + cbn [extractorCache].
      rewrite lookup_insert_ne; [by apply Hdom|]. intros [= ->]. lia.
Qed.

Lemma cold_getClassCandidates text e st :
  born e → cold st → cold (getClassCandidates E text e st).
Proof.
  intros He (Hec & Htr & Hdom). unfold getClassCandidates.
  apply (foldl_invariant (λ st, cold st)); [intros; by apply cold_line|].
  cbn [extractorCache scan_seen scan_trace]. split_and!; [|done|].
  - intros e' lru line v [[<- <-]|[_ He']]%lookup_insert_Some Hpeek; [|eauto].
    apply LRUOrigin.peek_cache_of in Hpeek as (lru & He' & Hpeek). eauto.
  - intros k Hk. destruct He as (ke & -> & Hke).
    rewrite lookup_insert_ne; [by apply Hdom|]. intros [= ->]. lia.
Qed.

Lemma cold_log ev st :
  (∀ e line, ev ≠ CallExtractor e line) → cold st → cold (log ev st).
Proof.
  intros Hev (Hec & Htr & Hdom). split_and!; [done| |done].
  cbn [log scan_trace scan_seen]. rewrite extracted_lines_app, Htr.
  destruct ev; simpl; try by rewrite app_nil_r. by destruct (Hev e line).
Qed.

Lemma cold_scan_text text m st :
  born (meta_extractor m) → cold st → cold (scan_text E text m st).
Proof.
  intros Hm Hst. unfold scan_text. by apply cold_getClassCandidates, cold_log.
Qed.

Lemma cold_scan_batch batch st :
  (∀ l, read_order E l ≡ₚ l) →
  Forall (λ en, born (meta_extractor en.2)) batch →
  cold st → cold (scan_batch E st batch).
Proof.
  intros Hperm Hbatch Hst. rewrite Forall_forall in Hbatch. unfold scan_batch.
  apply (foldl_invariant_in (λ st, cold st)).
  - intros a b Hb Ha. unfold batch_resume.
    destruct (reads_file b.1); [|done]. apply cold_scan_text; [|done].
    apply Hbatch. rewrite Hperm in Hb. by apply list_elem_of_filter in Hb as [_ ?].
  - apply (foldl_invariant_in (λ st, cold st)); [|done].
    intros a b Hb Ha. unfold batch_start.
    destruct (reads_file b.1); [by apply cold_log|].
    apply cold_scan_text; [|done]. by apply Hbatch.
Qed.

Lemma cold_scan_regex regex st :
  (∀ l, read_order E l ≡ₚ l) →
  Forall (λ en, born (meta_extractor en.2)) regex →
  cold st → cold (scan_regex E regex st).
Proof.
  intros Hperm Hregex Hst. unfold scan_regex.
  apply (foldl_invariant_in (λ st, cold st)); [|done].
  intros a batch Hb Ha. apply cold_scan_batch; [done| |done].
  apply list_elem_of_lookup in Hb as [k Hb].
  apply batches_of_lookup in Hb as [_ ->]; [|done].
  by apply Forall_take, Forall_drop.
Qed.
End DefaultMemo.

Section DefaultRoute.
Context (E : externals) (cfg : config) (fresh0 : nat).

Lemma route_falls_back items : ∀ acc,
  Forall (λ it, falls_back cfg (extension it)) items →
  (fresh0 ≤ route_fresh acc)%nat →
  Forall (λ en, ∃ k, meta_extractor en.2 = DefaultExtractorInstance k
                     ∧ (fresh0 ≤ k < route_fresh acc)%nat) (regexParserContent acc) →
  let routed := foldl (route_step E cfg) acc items in
  route_fresh routed = (route_fresh acc + length items)%nat
  ∧ Forall (λ en, ∃ k, meta_extractor en.2 = DefaultExtractorInstance k
                       ∧ (fresh0 ≤ k < route_fresh routed)%nat)
      (regexParserContent routed).
Proof.
  induction items as [|it items IH]; intros acc Hitems Hfresh Hacc.
  - simpl. split; [lia|done].
  - apply Forall_cons in Hitems as [Hit Hitems]. cbn [foldl].
    assert (getExtractor cfg (extension it) (route_fresh acc)
            = (DefaultExtractorInstance (route_fresh acc), S (route_fresh acc))) as Hget.
    { unfold getExtractor. unfold falls_back in Hit. by rewrite Hit. }
    assert (Forall (λ en, ∃ k, meta_extractor en.2 = DefaultExtractorInstance k
                               ∧ (fresh0 ≤ k < S (route_fresh acc))%nat)
              (regexParserContent acc)) as Hacc'.
    { eapply Forall_impl; [exact Hacc|]. intros en (k & ? & ?). exists k. split; [done|lia]. }
    destruct (IH (route_step E cfg acc it) Hitems) as [Hlen Hall].
    + unfold route_step. rewrite Hget. destruct (uses_oxide _ _ _); simpl; lia.
    + unfold route_step. rewrite Hget. destruct (uses_oxide _ _ _); simpl; [done|].
      apply Forall_app. split; [done|]. apply Forall_singleton. simpl.
      exists (route_fresh acc). split; [done|lia].
    + split; [|done]. rewrite Hlen. unfold route_step. rewrite Hget.
      destruct (uses_oxide _ _ _); simpl; lia.
Qed.
End DefaultRoute.

(** X16. The memo of the built-in default extractor never hits. An item
    without a configured extractor gets a function of its own from
    [defaultExtractor(context)], one for every pending item, and a cache
    entry is looked up by function: in a pass where every pending item
    falls back to the default extractor, every distinct trimmed line is
    handed to an extractor, memo or no memo, and the caches hold no entry
    for a function that is yet to be made. *)
Theorem X16_default_memo_never_hits (E : externals) ctx ms :
  (∀ l, read_order E l ≡ₚ l) →
  (∀ k, (module_fresh ms ≤ k)%nat →
        module_extractorCache ms !! DefaultExtractorInstance k = None) →
  (∀ it, it ∈ changedContent ctx → falls_back (tailwindConfig ctx) (extension it)) →
  let st := (scan E ctx ms).1 in
  let routed := (scan E ctx ms).2 in
  extracted_lines (scan_trace st) = scan_seen st
  ∧ route_fresh routed = (module_fresh ms + length (changedContent ctx))%nat
  ∧ (∀ k, (route_fresh routed ≤ k)%nat →
          extractorCache st !! DefaultExtractorInstance k = None).
Proof.
  intros Hperm Hms Hitems st routed.
  destruct (route_falls_back E (tailwindConfig ctx) (module_fresh ms) (changedContent ctx)
              {| rustParserContent := []; regexParserContent := [];
                 route_fresh := module_fresh ms |}) as [Hlen Hall].
  { by apply Forall_forall. }
  { simpl. lia. }
  { constructor. }
  fold (route E (tailwindConfig ctx) (changedContent ctx) (module_fresh ms)) in Hlen, Hall.
  cbn [route_fresh] in Hlen.
  assert (routed = route E (tailwindConfig ctx) (changedContent ctx) (module_fresh ms))
    as Hrouted by done.
  rewrite <- Hrouted in Hlen, Hall.
  destruct (cold_scan_regex E (module_fresh ms) (route_fresh routed)
              (regexParserContent routed)
              (scan_rust E (rustParserContent routed)
                 {| extractorCache := module_extractorCache ms;
                    scan_candidates := initial_candidates E ctx;
                    scan_seen := []; scan_trace := [] |}) Hperm Hall)
    as (_ & Htr & Hdom).
  { unfold scan_rust. destruct (rustParserContent routed); simpl.
    - split_and!; [|done|].
      + intros e lru line v He _ (k & -> & Hk). by rewrite Hms in He.
      + intros k Hk. apply Hms. lia.
    - split_and!; [|done|].
      + intros e lru line v He _ (k & -> & Hk). by rewrite Hms in He.
      + intros k Hk. apply Hms. lia. }
  split_and!; [exact Htr|exact Hlen|exact Hdom].
Qed.

(** ** The place of the generated nodes *)

Section InPlace.

Lemma replaced_in_place (m : node) new pre post r :
  root_nodes r = pre ++ m :: post →
  absent (nid m) pre → absent (nid m) post → absent (nid m) new →
  root_nodes (remove m (before m new r)) = pre ++ new ++ post.
Proof.
  intros Hr Hpre Hpost Hnew. unfold remove, before. cbn [root_nodes]. rewrite Hr.
  unfold before_list. rewrite flat_map_app. cbn [flat_map].
  rewrite Nat.eqb_refl.
  fold (before_list (nid m) new pre). fold (before_list (nid m) new post).
  rewrite !before_absent by done.
  unfold prune_list. rewrite !flat_map_app. cbn [flat_map].
  rewrite Nat.eqb_refl.
  fold (prune_list (λ c, Nat.eqb (nid c) (nid m)) pre).
  fold (prune_list (λ c, Nat.eqb (nid c) (nid m)) new).
  fold (prune_list (λ c, Nat.eqb (nid c) (nid m)) post).
  rewrite !prune_absent by done. by rewrite app_nil_r.
Qed.

(** X17. The generated nodes take the place of their directive. For a
    marker among the top-level nodes of the document, an object that
    occurs once there and that is not among the copies that [cloneNodes]
    returns, the splice leaves the nodes before it and after it as they
    were, in their order, and puts the copies of the layer, made with the
    source of the marker, where the marker was; so does the splice of the
    variants when the marker is the [variants] marker. *)
Theorem X17_directive_replaced_in_place (E : externals) (m : node) pre post r layer tag :
  root_nodes r = pre ++ m :: post →
  absent (nid m) pre → absent (nid m) post →
  absent (nid m) (cloneNodes E layer (source m) tag) →
  root_nodes (splice_layer E (Some m) layer tag r)
  = pre ++ cloneNodes E layer (source m) tag ++ post
  ∧ (∀ ln, LayerNodes.variants ln = Some m → tag = "variants" →
       ∃ r', splice_variants E ln layer r = Some r'
             ∧ root_nodes r' = pre ++ cloneNodes E layer (source m) "variants" ++ post).
Proof.
  intros Hr Hpre Hpost Hnew. split.
  - unfold splice_layer. by apply replaced_in_place.
  - intros ln Hv ->. unfold splice_variants. rewrite Hv.
    eexists. split; [done|]. by apply replaced_in_place.
Qed.
End InPlace.

(** ** The variants without a marker *)

Section Appended.
Context (E : externals).

Lemma fill_source_walk s : ∀ l d,
  d ∈ walk_list (map (fill_source (Some s)) l) → is_Some (source d).
Proof.
  assert (∀ n d, d ∈ walk (fill_source (Some s) n) → is_Some (source d)) as Hnode.
  { induction n as [i ty nm ps src rw cs IH] using node_tree_ind.
    intros d Hd.
    change (walk (fill_source (Some s) (mkNode i ty nm ps src rw cs)))
      with (walk_list (map (fill_source (Some s)) cs)) in Hd.
    apply elem_of_walk_list in Hd as (c' & Hc' & Hd).
    apply list_elem_of_In, in_map_iff in Hc' as (c & <- & Hc).
    apply list_elem_of_In in Hc. rewrite Forall_forall in IH.
    destruct Hd as [->|Hd]; [|by apply (IH c Hc)].
    destruct c as [? ? ? ? [?|] ? ?]; simpl; eauto. }
  intros l d Hd. apply elem_of_walk_list in Hd as (c' & Hc' & Hd).
  apply list_elem_of_In, in_map_iff in Hc' as (c & <- & Hc).
  destruct Hd as [->|Hd]; [|by apply (Hnode c)].
  destruct c as [? ? ? ? [?|] ? ?]; simpl; eauto.
Qed.

Lemma backfill_Some ln c c' :
  backfill ln c = Some c' →
  nid c' = nid c ∧ type c' = type c ∧ name c' = name c ∧ params c' = params c
  ∧ source c' = source c ∧ raws_tailwind c' = raws_tailwind c
  ∧ is_container c = true
  ∧ match node_parentLayer c ≫= LayerNodes.get ln with
    | Some m => nodes c' = map (fill_source (source m)) (nodes c)
    | None => c' = c
    end
  ∧ (∀ d, d ∈ walk c' →
          is_Some (source d)
          ∨ ∃ m, (node_parentLayer c ≫= LayerNodes.get ln) = Some m ∧ source m = None).
Proof.
  unfold backfill. destruct (is_container c); [|done].
  destruct (node_parentLayer c ≫= LayerNodes.get ln) as [m|].
  - intros [= <-]. cbn [nid type name params source raws_tailwind nodes].
    split_and!; [done..|]. intros d Hd.
    destruct (source m) as [s|] eqn:Hs; [|right; eauto].
    left. by apply (fill_source_walk s (nodes c)).
  - destruct (forallb has_source (walk c)) eqn:Hall; [|done].
    intros [= <-]. split_and!; [done..|]. intros d Hd. left.
    rewrite forallb_forall in Hall. apply list_elem_of_In in Hd.
    specialize (Hall d Hd). unfold has_source in Hall.
    by destruct (source d).
Qed.

(** X18. Without a [variants] marker the variant nodes that pass the
    filter go to the end of the document, after everything that is there,
    in the order of their set. Each copy keeps its identity, its type and
    its own source, even a missing one: the back-fill reaches the nodes
    below a copy only, and afterwards every such node has a source unless
    the marker of the parent layer has none itself. With no variant node
    left by the filter nothing is appended. *)
Theorem X18_variants_are_appended ln vn r r' :
  LayerNodes.variants ln = None →
  splice_variants E ln vn r = Some r' →
  ∃ cloned,
    root_nodes r' = root_nodes r ++ cloned
    ∧ (vn = [] → cloned = [])
    ∧ Forall2
        (λ c c',
           nid c' = nid c ∧ type c' = type c ∧ source c' = source c
           ∧ raws_tailwind c' = raws_tailwind c ∧ is_container c = true
           ∧ ∀ d, d ∈ walk c' →
                  is_Some (source d)
                  ∨ ∃ m, (node_parentLayer c ≫= LayerNodes.get ln) = Some m
                         ∧ source m = None)
        (match vn with [] => [] | _ :: _ => cloneNodes E vn None "variants" end)
        cloned.
Proof.
  intros Hv. unfold splice_variants. rewrite Hv.
  destruct vn as [|v vn].
  - intros [= <-]. exists []. rewrite app_nil_r. by split_and!.
  - destruct (mapM _ _) as [cloned|] eqn:Hm; [|done].
    intros [= <-]. exists cloned. split_and!; [done|done|].
    apply mapM_Some in Hm. eapply Forall2_impl; [exact Hm|].
    intros c c' Hc. simpl in Hc.
    destruct (backfill_Some ln c c' Hc) as (? & ? & _ & _ & ? & ? & ? & _ & ?).
    by split_and!.
Qed.
End Appended.

(** ** The transformer of [svelte] files *)

Section Svelte.

Lemma svelte_replace_without s : ∀ at_start,
  includes "class:" s = false → svelte_replace at_start 0 s = s.
Proof.
  induction s as [|c r IH]; intros at_start Hs; [done|].
  cbn [includes] in Hs. apply orb_false_iff in Hs as [Hhere Hr].
  cbn [svelte_replace]. rewrite Hhere, andb_false_r.
  assert (JsString.starts_with "class:" r = false) as ->.
  { destruct r; [done|]. cbn [includes] in Hr. by apply orb_false_iff in Hr as [? _]. }
  rewrite andb_false_r. f_equal. by apply IH.
Qed.

Lemma svelte_replace_length s : ∀ at_start skip,
  (String.length (svelte_replace at_start skip s) ≤ String.length s)%nat.
Proof.
  induction s as [|c r IH]; intros at_start skip; [done|].
  cbn [svelte_replace]. destruct skip as [|k].
  - destruct (at_start && _); [simpl; specialize (IH false 5%nat); lia|].
    destruct (JsString.is_space c && _); simpl.
    + specialize (IH false 6%nat). lia.
    + specialize (IH false 0%nat). lia.
  - simpl. specialize (IH false k). lia.
Qed.

(** X19. The built-in transformer of [svelte] files leaves a text without
    [class:] as it is. It replaces [class:] at the very start of the
    text, and [class:] together with the white-space character before
    it, by one space, and goes on behind the match, where [class:] is no
    longer at the start; the text never gets longer. *)
Theorem X19_svelte_transformer (E : externals) (text : string) :
  (includes "class:" text = false → apply_transformer E BuiltInSvelte text = text)
  ∧ apply_transformer E BuiltInSvelte ("class:" +:+ text)
    = String " " (svelte_replace false 0 text)
  ∧ (∀ c, JsString.is_space c = true →
          apply_transformer E BuiltInSvelte (String c ("class:" +:+ text))
          = String " " (svelte_replace false 0 text))
  ∧ (String.length (apply_transformer E BuiltInSvelte text) ≤ String.length text)%nat.
Proof.
  split_and!.
  - apply svelte_replace_without.
  - reflexivity.
  - intros c Hc. cbn [apply_transformer].
    change (svelte_replace true 0 (String c ("class:" +:+ text)))
      with (if true && JsString.starts_with "class:" (String c ("class:" +:+ text))
            then String " " (svelte_replace false 5 ("class:" +:+ text))
            else if JsString.is_space c && JsString.starts_with "class:" ("class:" +:+ text)
            then String " " (svelte_replace false 6 ("class:" +:+ text))
            else String c (svelte_replace false 0 ("class:" +:+ text))).
    assert (JsString.starts_with "class:" (String c ("class:" +:+ text)) = false) as ->.
    { cbn [JsString.starts_with].
      destruct (Nat.eqb (JsString.code "c") (JsString.code c)) eqn:Heq; [|done].
      apply Nat.eqb_eq, JsStringFacts.code_inj in Heq. subst c. done. }
    rewrite Hc. reflexivity.
  - apply svelte_replace_length.
Qed.
End Svelte.

(** ** The plugin function *)

Section PluginFacts.
Context {C : Type} (K : @Plugin.collaborators C).

Lemma main_configOrPath c root :
  Plugin.ran_configOrPath (Plugin.main K c root)
  = default c (mjoin (Plugin.findAtConfigPath K root)).
Proof.
  unfold Plugin.main. destruct (Plugin.findAtConfigPath K root) as [found|]; [|done].
  simpl. destruct (Plugin.setupTrackingContext_returns K _); [|done].
  destruct (String.eqb _ _).
  - by destruct (Plugin.process_roots K _ _).
  - by destruct (Plugin.processTailwindFeatures_returns K _ _).
Qed.

Lemma main_all_last roots : ∀ init,
  Plugin.main_all K init roots = default init (last (Plugin.found_paths K roots)).
Proof.
  unfold Plugin.main_all, Plugin.found_paths.
  induction roots as [|root roots IH]; intros init; [done|].
  cbn [foldl omap list_omap]. rewrite IH, main_configOrPath.
  destruct (mjoin (Plugin.findAtConfigPath K root)) as [p|]; [|done].
  rewrite last_cons. by destruct (last _).
Qed.

Lemma process_roots_spec c roots :
  let run := Plugin.process_roots K c roots in
  (∀ ev, ev ∈ run.1 → ∃ root, ev = Plugin.CallProcessTailwindFeatures c root)
  ∧ Plugin.processed run.1
    `prefix_of` Plugin.css_id <$> filter (λ node, Plugin.css_type node = "root") roots
  ∧ (run.2 = Returned →
     Plugin.processed run.1
     = Plugin.css_id <$> filter (λ node, Plugin.css_type node = "root") roots).
Proof.
  induction roots as [|root roots IH]; [by split_and!; [intros ev ?%elem_of_nil|..]|].
  cbn [Plugin.process_roots]. rewrite filter_cons.
  destruct (String.eqb (Plugin.css_type root) "root") eqn:Hty.
  - apply String.eqb_eq in Hty. rewrite decide_True by done.
    destruct (Plugin.processTailwindFeatures_returns K c root).
    + destruct (Plugin.process_roots K c roots) as [trace done'].
      destruct IH as (Hev & Hpre & Hret). cbn [fst snd] in *. split_and!.
      * intros ev [ -> | Hin ]%elem_of_cons; eauto.
      * simpl. by apply prefix_cons.
      * intros Hd. simpl. by rewrite Hret.
    + cbn [fst snd]. split_and!; [|simpl|done].
      * intros ev ->%list_elem_of_singleton. eauto.
      * apply prefix_cons, prefix_nil.
  - apply String.eqb_neq in Hty. by rewrite decide_False by done.
Qed.

(** X20. The path of an [@config] directive outlives the file it was
    found in. The plugin function writes it to the variable
    [configOrPath] of the plugin instance: in every later run of that
    instance the context is set up, and the features are processed, with
    the last path that any file so far has named, this file included, and
    with the configuration the plugin was made with only when none has
    named one; this holds whether the runs return or throw. *)
Theorem X20_config_path_is_sticky init roots root :
  let before := Plugin.main_all K init roots in
  let run := Plugin.main K before root in
  before = default init (last (Plugin.found_paths K roots))
  ∧ Plugin.ran_configOrPath run
    = default init (last (Plugin.found_paths K (roots ++ [root])))
  ∧ (∀ ev c, ev ∈ Plugin.ran_trace run → Plugin.config_of ev = Some c →
             c = Plugin.ran_configOrPath run)
  ∧ (Plugin.findAtConfigPath K root = Some None →
     Plugin.ran_configOrPath run = before).
Proof.
  intros before run.
  assert (Plugin.ran_configOrPath run
          = Plugin.main_all K init (roots ++ [root])) as Hrun.
  { unfold Plugin.main_all. by rewrite foldl_snoc. }
  split_and!.
  - apply main_all_last.
  - rewrite Hrun. apply main_all_last.
  - intros ev c. unfold run, Plugin.main.
    destruct (Plugin.findAtConfigPath K root) as [found|];
      [|by intros ->%list_elem_of_singleton].
    simpl. destruct (Plugin.setupTrackingContext_returns K _).
    + destruct (String.eqb _ _).
      * destruct (process_roots_spec (default before found)
                    (filter (λ node, Plugin.css_type node = "root")
                       (Plugin.css_nodes root))) as (Hev & _).
        destruct (Plugin.process_roots K _ _) as [trace done']. cbn [fst] in Hev.
        cbn [Plugin.ran_trace Plugin.ran_configOrPath].
        intros [ -> | [ -> | Hin ]%elem_of_cons ]%elem_of_cons; [done|by intros [= <-]|].
        destruct (Hev ev Hin) as [root' ->]. by intros [= <-].
      * destruct (Plugin.processTailwindFeatures_returns K _ _);
          cbn [Plugin.ran_trace Plugin.ran_configOrPath];
          intros [ -> | [ -> | ->%list_elem_of_singleton ]%elem_of_cons ]%elem_of_cons;
          try done; by intros [= <-].
    + cbn [Plugin.ran_trace Plugin.ran_configOrPath].
      intros [ -> | ->%list_elem_of_singleton ]%elem_of_cons; [done|by intros [= <-]].
  - intros Hnone. unfold run. by rewrite main_configOrPath, Hnone.
Qed.

(** X21. What the plugin function processes. For a document the features
    are processed for its children of type [root], in their order and
    with one context, and for nothing else, not even for the document; any
    other node is processed itself. A run that throws has processed a
    part of these, from the start, and a run that returns all of them. *)
Theorem X21_roots_of_a_document init root :
  let run := Plugin.main K init root in
  let targets :=
    if String.eqb (Plugin.css_type root) "document"
    then filter (λ node, Plugin.css_type node = "root") (Plugin.css_nodes root)
    else [root] in
  Plugin.processed (Plugin.ran_trace run) `prefix_of` Plugin.css_id <$> targets
  ∧ (Plugin.ran_completion run = Returned →
     Plugin.processed (Plugin.ran_trace run) = Plugin.css_id <$> targets
     ∧ ∃ found, Plugin.findAtConfigPath K root = Some found
                ∧ Plugin.setupTrackingContext_returns K (default init found) = true).
Proof.
  intros run targets. unfold run, targets, Plugin.main.
  destruct (Plugin.findAtConfigPath K root) as [found|];
    [|split; [apply prefix_nil|done]].
  simpl. destruct (Plugin.setupTrackingContext_returns K _) eqn:Hsetup;
    [|split; [apply prefix_nil|done]].
  destruct (String.eqb _ _).
  - destruct (process_roots_spec (default init found)
                (filter (λ node, Plugin.css_type node = "root")
                   (Plugin.css_nodes root))) as (_ & Hpre & Hret).
    destruct (Plugin.process_roots K _ _) as [trace done']. cbn [fst snd] in *.
    cbn [Plugin.ran_trace Plugin.ran_completion Plugin.processed omap list_omap].
    rewrite list_filter_filter in Hpre, Hret.
    assert (filter (λ node, Plugin.css_type node = "root" ∧ Plugin.css_type node = "root")
              (Plugin.css_nodes root)
            = filter (λ node, Plugin.css_type node = "root") (Plugin.css_nodes root))
      as Heq by (apply list_filter_iff; tauto).
    rewrite Heq in Hpre, Hret. split; [done|]. intros Hd. split; [by apply Hret|eauto].
  - destruct (Plugin.processTailwindFeatures_returns K _ _);
      cbn [Plugin.ran_trace Plugin.ran_completion]; (split; [done|]);
      [intros _; split; [done|eauto]|done].
Qed.
End PluginFacts.

(** ** The error of the formatting stage *)

Section Excerpt.

Lemma length_string_of_list_ascii l :
  String.length (string_of_list_ascii l) = length l.
Proof. induction l as [|c l IH]; [done|]. simpl. by rewrite IH. Qed.

Lemma slice_inside {A} (l : list A) (start end_ : Z) :
  (0 ≤ start ≤ end_)%Z → (end_ ≤ Z.of_nat (length l))%Z →
  Plugin.slice l start end_
  = take (Z.to_nat (end_ - start)) (drop (Z.to_nat start) l).
Proof.
  intros Hs He. unfold Plugin.slice.
  assert ((start <? 0)%Z = false) as -> by (apply Z.ltb_ge; lia).
  assert ((end_ <? 0)%Z = false) as -> by (apply Z.ltb_ge; lia).
  f_equal; [|f_equal]; lia.
Qed.

Lemma slice_tail {A} (l : list A) (start : Z) (n : nat) :
  (0 ≤ start)%Z → (start ≤ Z.of_nat (length l))%Z →
  Plugin.slice l start (start + Z.of_nat n) = take n (drop (Z.to_nat start) l).
Proof.
  intros Hs He. unfold Plugin.slice.
  assert ((start <? 0)%Z = false) as -> by (apply Z.ltb_ge; lia).
  assert ((start + Z.of_nat n <? 0)%Z = false) as -> by (apply Z.ltb_ge; lia).
  replace (Z.to_nat (Z.min start (Z.of_nat (length l)))) with (Z.to_nat start) by lia.
  destruct (decide (start + Z.of_nat n ≤ Z.of_nat (length l))%Z) as [Hin|Hout].
  - f_equal. lia.
  - rewrite !take_ge; [done|rewrite length_drop; lia..].
Qed.

(** X22. The error that the formatting stage throws. Under the test
    runner, for an error that carries its source and a position inside
    it, the message is an excerpt of the source: the line of the error
    with the two lines before it, as far as there are any, then a caret
    under the column of the error, followed by the text of the error, then
    the two lines after it, as far as there are any. A column below one
    makes the handler throw a [RangeError] of its own in place of the
    error; outside the test runner, and for an error without source, the
    error is thrown as it is. *)
Theorem X22_error_excerpt (jest : bool) (err : Plugin.lightning_error) (source : string) :
  Plugin.err_source err = Some source →
  let lines := JsString.split_newline source in
  let line := Plugin.err_line err in
  let column := Plugin.err_column err in
  (JsString.is_empty source = false → jest = true →
   (1 ≤ line ≤ Z.of_nat (length lines))%Z → (1 ≤ column)%Z →
   ∃ before indent,
     Plugin.rethrow jest err
     = Plugin.Formatted
         (["Error formatting using Lightning CSS:"; ""; "```css"]
          ++ before
          ++ [indent +:+ "^-- " +:+ Plugin.err_toString err]
          ++ take 2 (drop (Z.to_nat line) lines)
          ++ ["```"])
     ∧ before = take (Z.to_nat (Z.min 3 line)) (drop (Z.to_nat (line - Z.min 3 line)) lines)
     ∧ last before = lines !! Z.to_nat (line - 1)
     ∧ length before = Z.to_nat (Z.min 3 line)
     ∧ indent = string_of_list_ascii (replicate (Z.to_nat (column - 1)) " "%char)
     ∧ String.length indent = Z.to_nat (column - 1))
  ∧ (JsString.is_empty source = false → jest = true → (column ≤ 0)%Z →
     Plugin.rethrow jest err = Plugin.RangeError)
  ∧ (JsString.is_empty source = true ∨ jest = false →
     Plugin.rethrow jest err = Plugin.Original).
Proof.
  intros Hsrc lines line column. unfold Plugin.rethrow. rewrite Hsrc. split_and!.
  - intros -> -> Hline Hcol. cbn [negb andb]. fold lines line column.
    unfold Plugin.repeat_space. assert ((column - 1 <? 0)%Z = false) as -> by (apply Z.ltb_ge; lia).
    eexists _, _. split_and!; [|reflexivity| | |reflexivity|].
    + rewrite (slice_inside lines (Z.max (line - 3) 0) line) by lia.
      replace (line + 2)%Z with (line + Z.of_nat 2)%Z by lia.
      rewrite (slice_tail lines line 2) by lia.
      replace (Z.to_nat (line - Z.max (line - 3) 0)) with (Z.to_nat (Z.min 3 line)) by lia.
      replace (Z.to_nat (Z.max (line - 3) 0)) with (Z.to_nat (line - Z.min 3 line)) by lia.
      reflexivity.
    + rewrite last_lookup, length_take, length_drop.
      replace (Init.Nat.pred (Z.to_nat (Z.min 3 line)
                 `min` (length lines - Z.to_nat (line - Z.min 3 line))))
        with (Z.to_nat (Z.min 3 line) - 1)%nat by lia.
      rewrite lookup_take_lt by lia. rewrite lookup_drop. f_equal. lia.
    + rewrite length_take, length_drop. lia.
    + rewrite length_string_of_list_ascii. apply length_replicate.
  - intros -> -> Hcol. cbn [negb andb]. fold column.
    unfold Plugin.repeat_space. by assert ((column - 1 <? 0)%Z = true) as -> by (apply Z.ltb_lt; lia).
  - intros [->| ->]; [done|]. by rewrite andb_false_r.
Qed.
End Excerpt.

(** ** The three layers of a document *)

Section Layers.
Context (E : externals).

Lemma absent_elem target l n : absent target l → n ∈ l → absent target [n].
Proof.
  intros Habs Hn. apply list_elem_of_split in Hn as (l1 & l2 & ->).
  apply absent_app in Habs as [_ Habs].
  apply absent_cons in Habs as (Hid & Hin & _).
  apply absent_cons. split_and!; [done|done|constructor].
Qed.

Lemma replace_same target new l :
  absent target l →
  flat_map (λ n, if Nat.eqb (nid n) target then new else [n]) l = l.
Proof.
  induction l as [|n l IH]; [done|].
  intros (Hid & _ & Hrest)%absent_cons. cbn [flat_map].
  apply Nat.eqb_neq in Hid. rewrite Hid, IH by done. done.
Qed.

Lemma flat_map_flat_map {A B C} (f : A → list B) (g : B → list C) (l : list A) :
  flat_map g (flat_map f l) = flat_map (λ a, flat_map g (f a)) l.
Proof.
  induction l as [|a l IH]; [done|]. simpl. by rewrite flat_map_app, IH.
Qed.

(** X23. The three layers of a document, wherever their directives are
    among the top-level nodes and in whatever order. When the markers of
    [base], [components] and [utilities] are found at top level, no other
    node of the document contains one of them, and [cloneNodes] returns
    none of them, the three splices together replace each marker by the
    copies of its layer (for [base], the base rules followed by the
    defaults) and leave every other top-level node as it was, at its
    place. *)
Theorem X23_layers_expand_in_place ln sheet r b c u :
  LayerNodes.base ln = Some b →
  LayerNodes.components ln = Some c →
  LayerNodes.utilities ln = Some u →
  let base := cloneNodes E (Stylesheet.base sheet ++ Stylesheet.defaults sheet)
                (source b) "base" in
  let components := cloneNodes E (Stylesheet.components sheet) (source c) "components" in
  let utilities := cloneNodes E (Stylesheet.utilities sheet) (source u) "utilities" in
  (∀ m n, m ∈ [b; c; u] → n ∈ root_nodes r → nid n ≠ nid m → absent (nid m) [n]) →
  (∀ m, m ∈ [b; c; u] →
        absent (nid m) base ∧ absent (nid m) components ∧ absent (nid m) utilities) →
  root_nodes (splice_markers E ln sheet r)
  = flat_map (λ n, if Nat.eqb (nid n) (nid b) then base
                   else if Nat.eqb (nid n) (nid c) then components
                   else if Nat.eqb (nid n) (nid u) then utilities
                   else [n])
      (root_nodes r).
Proof.
  intros Hb Hc Hu base components utilities Hdoc Hclones.
  assert (b ∈ [b; c; u]) as Hinb by (by left).
  assert (c ∈ [b; c; u]) as Hinc by (by right; left).
  assert (u ∈ [b; c; u]) as Hinu by (by right; right; left).
  destruct (Hclones b Hinb) as (Hbb & Hbc & Hbu).
  destruct (Hclones c Hinc) as (Hcb & Hcc & Hcu).
  destruct (Hclones u Hinu) as (Hub & Huc & Huu).
  unfold splice_markers. rewrite Hb, Hc, Hu. unfold splice_layer.
  fold base components utilities.
  assert (root_nodes (remove b (before b base r))
          = flat_map (λ n, if Nat.eqb (nid n) (nid b) then base else [n]) (root_nodes r))
    as H1 by (apply replaced_at_top; [intros n Hn Hid; by apply (Hdoc b)|done]).
  assert (∀ m, m ∈ [b; c; u] →
               ∀ n, n ∈ root_nodes (remove b (before b base r)) →
                    nid n ≠ nid m → absent (nid m) [n]) as Hdoc1.
  { intros m Hm n Hn Hid. rewrite H1 in Hn.
    apply list_elem_of_In, in_flat_map in Hn as (n0 & Hn0 & Hn).
    apply list_elem_of_In in Hn0, Hn.
    destruct (Nat.eqb (nid n0) (nid b)).
    - destruct (Hclones m Hm) as (Hmb & _). by apply (absent_elem _ base).
    - apply list_elem_of_singleton in Hn as ->. by apply Hdoc. }
  assert (root_nodes (remove c (before c components (remove b (before b base r))))
          = flat_map (λ n, if Nat.eqb (nid n) (nid c) then components else [n])
              (root_nodes (remove b (before b base r))))
    as H2 by (apply replaced_at_top; [intros n Hn Hid; by apply (Hdoc1 c)|done]).
  assert (∀ n, n ∈ root_nodes (remove c (before c components
                                          (remove b (before b base r)))) →
               nid n ≠ nid u → absent (nid u) [n]) as Hdoc2.
  { intros n Hn Hid. rewrite H2 in Hn.
    apply list_elem_of_In, in_flat_map in Hn as (n0 & Hn0 & Hn).
    apply list_elem_of_In in Hn0, Hn.
    destruct (Nat.eqb (nid n0) (nid c)).
    - by apply (absent_elem _ components).
    - apply list_elem_of_singleton in Hn as ->. by apply (Hdoc1 u). }
  rewrite (replaced_at_top u utilities _ Hdoc2 Huu), H2, H1.
  rewrite (flat_map_flat_map _ _ (root_nodes r)), flat_map_flat_map.
  apply flat_map_ext. intros n.
  destruct (Nat.eqb (nid n) (nid b)).
  - rewrite (replace_same (nid c) components base Hcb).
    by rewrite (replace_same (nid u) utilities base Hub).
  - cbn [flat_map]. rewrite app_nil_r.
    destruct (Nat.eqb (nid n) (nid c)).
    + by rewrite (replace_same (nid u) utilities components Huc).
    + cbn [flat_map]. by rewrite app_nil_r.
Qed.
End Layers.

(** * Sample runs *)

Lemma X3_next_pass_scans_nothing_witness :
  LayerNodes.all_null (discover sample_base_document) = false
  ∧ out_completion (expandTailwindAtRules Demo.E sample_pending_context
                      Demo.fresh_module sample_base_document) = Returned
  ∧ filter (λ ev, is_scan_event ev = true)
      (out_trace
         (expandTailwindAtRules Demo.E
            (out_context (expandTailwindAtRules Demo.E sample_pending_context
                            Demo.fresh_module sample_base_document))
            Demo.fresh_module sample_base_document)) = [].
Proof.
  assert (LayerNodes.all_null (discover sample_base_document) = false) as Hn
    by (vm_compute; reflexivity).
  assert (out_completion (expandTailwindAtRules Demo.E sample_pending_context
                            Demo.fresh_module sample_base_document) = Returned) as Hr
    by (vm_compute; reflexivity).
  split; [exact Hn|]. split; [exact Hr|].
  exact (proj1 (X3_next_pass_scans_nothing Demo.E sample_pending_context
                  Demo.fresh_module sample_base_document Hn Hr
                  Demo.fresh_module sample_base_document)).
Defined.


Lemma X7_buildStylesheet_throws_iff_witness :
  offsets_sort Demo.E sample_user_rules ≡ₚ sample_user_rules
  ∧ buildStylesheet Demo.E sample_user_rules = None.
Proof.
  assert (offsets_sort Demo.E sample_user_rules ≡ₚ sample_user_rules) as Hperm
    by apply merge_sort_Permutation.
  split; [exact Hperm|].
  apply (proj2 (X7_buildStylesheet_throws_iff Demo.E sample_user_rules Hperm)).
  exists (Demo.offset "user" 1), (Demo.generated 11 None). split.
  - unfold sample_user_rules. right. left.
  - unfold Stylesheet.keys. simpl. rewrite !not_elem_of_cons.
    split_and!; try done. apply not_elem_of_nil.
Defined.

Lemma X8_layer_sets_follow_the_sort_witness :
  buildStylesheet Demo.E sample_rules = Some sample_sorted_sheet
  ∧ Stylesheet.get sample_sorted_sheet "base" = [Demo.generated 10 None].
Proof.
  assert (buildStylesheet Demo.E sample_rules = Some sample_sorted_sheet) as Hb
    by (vm_compute; reflexivity).
  split; [exact Hb|].
  rewrite (X8_layer_sets_follow_the_sort Demo.E sample_rules sample_sorted_sheet Hb "base").
  vm_compute. reflexivity.
Defined.

Lemma X9_bang_star_is_never_found_witness :
  bang_free (module_extractorCache Demo.fresh_module)
  ∧ run_extractor Demo.E (ConfiguredExtractor 0 false) "!* p-4" = ["!*"; "p-4"]
  ∧ ("!*" ∉ discovered_by_regex Demo.E (module_extractorCache Demo.fresh_module)
              (regexParserContent (scan Demo.E sample_bang_context Demo.fresh_module).2)).
Proof.
  assert (bang_free (module_extractorCache Demo.fresh_module)) as Hms.
  { intros e lru line v He. simpl in He. by rewrite lookup_empty in He. }
  split; [exact Hms|]. split; [vm_compute; reflexivity|].
  exact (proj1 (X9_bang_star_is_never_found Demo.E sample_bang_context
                  Demo.fresh_module Hms)).
Defined.

Lemma X10_memo_is_transparent_witness :
  coherent Demo.E (module_extractorCache sample_warm_module)
  ∧ scan_trace (scan Demo.E sample_two_items_context sample_warm_module).1
    = [CallTransformer BuiltInDefault "p-4"; CallTransformer BuiltInDefault " p-4 "]
  ∧ scan_candidates (scan Demo.E sample_two_items_context sample_warm_module).1
    = ["*"; "p-4"].
Proof.
  assert (coherent Demo.E (module_extractorCache Demo.fresh_module)) as Hcold.
  { intros e lru line v He. simpl in He. by rewrite lookup_empty in He. }
  assert (coherent Demo.E (module_extractorCache sample_warm_module)) as Hwarm.
  { exact (proj1 (proj2 (proj2 (proj2
             (X10_memo_is_transparent Demo.E sample_two_items_context
                Demo.fresh_module Hcold))))). }
  split; [exact Hwarm|]. split; [vm_compute; reflexivity|].
  rewrite (proj1 (X10_memo_is_transparent Demo.E sample_two_items_context
                    sample_warm_module Hwarm)).
  vm_compute. reflexivity.
Defined.


Lemma X15_extractors_get_trimmed_lines_witness :
  CallExtractor (ConfiguredExtractor 0 false) "p-4"
  ∈ scan_trace (scan Demo.E sample_two_items_context Demo.fresh_module).1
  ∧ JsString.trim "p-4" = "p-4".
Proof.
  assert (CallExtractor (ConfiguredExtractor 0 false) "p-4"
          ∈ scan_trace (scan Demo.E sample_two_items_context Demo.fresh_module).1) as Hin.
  { vm_compute. right. left. }
  split; [exact Hin|].
  exact (proj1 (X15_extractors_get_trimmed_lines Demo.E sample_two_items_context
                  Demo.fresh_module _ _ Hin)).
Defined.

Lemma X16_default_memo_never_hits_witness :
  (∀ l, read_order Demo.E l ≡ₚ l)
  ∧ (∀ k, (module_fresh Demo.fresh_module ≤ k)%nat →
          module_extractorCache Demo.fresh_module !! DefaultExtractorInstance k = None)
  ∧ (∀ it, it ∈ changedContent sample_pending_context →
           falls_back (tailwindConfig sample_pending_context) (extension it))
  ∧ extracted_lines
      (scan_trace (scan Demo.E sample_pending_context Demo.fresh_module).1)
    = ["text-3xl"]
  ∧ route_fresh (scan Demo.E sample_pending_context Demo.fresh_module).2 = 1%nat.
Proof.
  assert (∀ l, read_order Demo.E l ≡ₚ l) as Hperm by (intros l; reflexivity).
  assert (∀ k, (module_fresh Demo.fresh_module ≤ k)%nat →
               module_extractorCache Demo.fresh_module !! DefaultExtractorInstance k
               = None) as Hms.
  { intros k _. simpl. apply lookup_empty. }
  assert (∀ it, it ∈ changedContent sample_pending_context →
                falls_back (tailwindConfig sample_pending_context) (extension it))
    as Hitems.
  { intros it Hit. simpl in Hit. apply list_elem_of_singleton in Hit. subst it.
    vm_compute. reflexivity. }
  destruct (X16_default_memo_never_hits Demo.E sample_pending_context
              Demo.fresh_module Hperm Hms Hitems) as (Hlines & Hfresh & _).
  split; [exact Hperm|]. split; [exact Hms|]. split; [exact Hitems|].
  split; [rewrite Hlines; vm_compute; reflexivity|exact Hfresh].
Defined.

Lemma X17_directive_replaced_in_place_witness :
  root_nodes sample_layers_document
  = [] ++ Demo.directive 1 "base" :: [Demo.directive 2 "utilities"]
  ∧ absent 1 []
  ∧ absent 1 [Demo.directive 2 "utilities"]
  ∧ absent 1 (cloneNodes Demo.E [Demo.generated 11 None; Demo.generated 10 None]
                (Some (Demo.loc 1)) "base")
  ∧ root_nodes (splice_layer Demo.E (Some (Demo.directive 1 "base"))
                  [Demo.generated 11 None; Demo.generated 10 None] "base"
                  sample_layers_document)
    = [Demo.clone (Some (Demo.loc 1)) (Demo.generated 11 None);
       Demo.clone (Some (Demo.loc 1)) (Demo.generated 10 None);
       Demo.directive 2 "utilities"].
Proof.
  assert (absent 1 []) as Hpre by constructor.
  assert (absent 1 [Demo.directive 2 "utilities"]) as Hpost.
  { unfold absent. simpl. repeat constructor. simpl. lia. }
  assert (absent 1 (cloneNodes Demo.E [Demo.generated 11 None; Demo.generated 10 None]
                      (Some (Demo.loc 1)) "base")) as Hnew.
  { unfold absent. simpl. repeat constructor; simpl; lia. }
  split; [reflexivity|]. split; [exact Hpre|]. split; [exact Hpost|].
  split; [exact Hnew|].
  exact (proj1 (X17_directive_replaced_in_place Demo.E (Demo.directive 1 "base")
                  [] [Demo.directive 2 "utilities"] sample_layers_document
                  [Demo.generated 11 None; Demo.generated 10 None] "base"
                  eq_refl Hpre Hpost Hnew)).
Defined.

Lemma X18_variants_are_appended_witness :
  LayerNodes.variants (discover sample_utilities_document) = None
  ∧ ∃ r', splice_variants Demo.E (discover sample_utilities_document)
            [sample_variant_rule] sample_utilities_document = Some r'
          ∧ ∃ cloned, root_nodes r' = root_nodes sample_utilities_document ++ cloned
                      ∧ Forall (λ c', source c' = None
                                      ∧ ∀ d, d ∈ walk c' → source d = Some (Demo.loc 1))
                          cloned.
Proof.
  assert (LayerNodes.variants (discover sample_utilities_document) = None) as Hv
    by (vm_compute; reflexivity).
  split; [exact Hv|].
  destruct (splice_variants Demo.E (discover sample_utilities_document)
              [sample_variant_rule] sample_utilities_document) as [r'|] eqn:Hs;
    [|by vm_compute in Hs].
  exists r'. split; [reflexivity|].
  destruct (X18_variants_are_appended Demo.E (discover sample_utilities_document)
              [sample_variant_rule] sample_utilities_document r' Hv Hs)
    as (cloned & Hroot & _ & _).
  exists cloned. split; [exact Hroot|].
  vm_compute in Hs. injection Hs as <-. simpl in Hroot.
  injection Hroot as <-. repeat constructor.
  intros d Hd. vm_compute in Hd.
  apply list_elem_of_singleton in Hd. by subst d.
Defined.

Lemma X22_error_excerpt_witness :
  Plugin.err_source sample_error
  = Some ("a {" +:+ String "010" ("  b: c;" +:+ String "010"
            ("  d e;" +:+ String "010" "}")))
  ∧ Plugin.rethrow true sample_error
    = Plugin.Formatted
        ["Error formatting using Lightning CSS:"; ""; "```css";
         "a {"; "  b: c;"; "  d e;"; "    ^-- SyntaxError"; "}"; "```"].
Proof.
  split; [reflexivity|].
  destruct (proj1 (X22_error_excerpt true sample_error _ eq_refl))
    as (before & indent & -> & -> & _ & _ & -> & _); try done.
Defined.

Lemma X23_layers_expand_in_place_witness :
  LayerNodes.base (discover sample_canonical_document) = Some (Demo.directive 1 "base")
  ∧ LayerNodes.components (discover sample_canonical_document)
    = Some (Demo.directive 2 "components")
  ∧ LayerNodes.utilities (discover sample_canonical_document)
    = Some (Demo.directive 3 "utilities")
  ∧ root_nodes (splice_markers Demo.E (discover sample_canonical_document)
                  sample_layers_sheet sample_canonical_document)
    = [Demo.clone (Some (Demo.loc 3)) (Demo.generated 12 None);
       mkNode 4 ty_rule "" "" (Some (Demo.loc 4)) None [];
       Demo.clone (Some (Demo.loc 1)) (Demo.generated 11 None);
       Demo.clone (Some (Demo.loc 1)) (Demo.generated 10 None)].
Proof.
  assert (LayerNodes.base (discover sample_canonical_document)
          = Some (Demo.directive 1 "base")) as Hb by (vm_compute; reflexivity).
  assert (LayerNodes.components (discover sample_canonical_document)
          = Some (Demo.directive 2 "components")) as Hc by (vm_compute; reflexivity).
  assert (LayerNodes.utilities (discover sample_canonical_document)
          = Some (Demo.directive 3 "utilities")) as Hu by (vm_compute; reflexivity).
  split; [exact Hb|]. split; [exact Hc|]. split; [exact Hu|].
  rewrite (X23_layers_expand_in_place Demo.E (discover sample_canonical_document)
             sample_layers_sheet sample_canonical_document _ _ _ Hb Hc Hu).
  - vm_compute. reflexivity.
  - intros m n Hm Hn Hid. simpl in Hn. unfold absent.
    repeat (apply elem_of_cons in Hm as [->|Hm]);
      [| | |by apply elem_of_nil in Hm];
      repeat (apply elem_of_cons in Hn as [->|Hn]);
      try (by apply elem_of_nil in Hn); try done;
      simpl; repeat constructor; simpl; lia.
  - intros m Hm. unfold absent.
    repeat (apply elem_of_cons in Hm as [->|Hm]);
      [| | |by apply elem_of_nil in Hm];
      (split_and!; simpl; repeat constructor; simpl; lia).
Defined.
